(** * AudioPlayer: a model of [src/components/AudioPlayer.tsx]

    The component is a React function component.  Every render binds the
    current state values ([sound], [isPlaying], ...) and the [uri] prop to
    fresh constants and builds fresh closures over them.  The development
    below keeps that structure:

    - a [Scope] is the set of bindings of one render;
    - each function of the component becomes a function from the scope it
      closes over to a program ([Prog]) of setter calls, console output
      and platform calls, suspended at each [await];
    - a [World] holds the React state, the scopes retained by the hook
      dependency arrays, the platform (expo-av sounds, the system volume)
      and the promises in flight; [step] runs one event of the event loop
      and the render that follows it.

    The platform is not constrained: any promise in flight may resolve or
    reject at any time, and any status may be delivered to a subscriber.
    The status subscriber is wrapped by lodash's [throttle]; an event
    [StatusDelivered] is one call that the throttle lets through to the
    wrapped function.  The last part of the definitions adds the time:
    a [Timed] world keeps the state of the throttle of each sound and
    decides which raw status reaches the wrapped function, and when.

    Times in a status and in the state cells are whole milliseconds
    ([Z]); the volume level is a rational ([Q]).  [formatTime] is
    modelled on IEEE 754 numbers. *)

From Stdlib Require Import ZArith QArith Lia Ascii String DecimalString List.
From stdpp Require Import base option gmap strings.

Local Open Scope Z_scope.

(** ** JavaScript values read from a raw playback status

    [status] has type [any]; expo-av declares [durationMillis] as an
    optional number.  Only the cases that the logical-or of lines 67-68
    tells apart are kept. *)

Inductive jsval : Type :=
| JUndefined
| JNull
| JNaN
| JNum (n : Z).

(** ToBoolean on those values: [undefined], [null], [NaN] and [0] are
    falsy. *)
Definition truthy (v : jsval) : bool :=
  match v with
  | JNum n => negb (n =? 0)
  | _ => false
  end.

(** [a || b] *)
Definition js_or (a b : jsval) : jsval := if truthy a then a else b.

Definition is_number (v : jsval) : Prop := exists n, v = JNum n.

(** ** formatTime (lines 138-143) *)

Module Fmt.

(** *** JavaScript numbers

    A [number] is an IEEE 754 binary64 value.  A finite value is kept as
    an integer mantissa and a binary exponent, [m * 2^e].  The sign of
    zero is not kept: division by a positive constant, [Math.floor], [%]
    and [toString] give the same text for -0 and 0. *)
Inductive number : Type :=
| NaN
| Infinity (negative : bool)
| Finite (m : Z) (e : Z).

(** A number known to be whole, as [Math.floor] and [%] on whole numbers
    return it: its exact value. *)
Inductive whole : Type :=
| WNaN
| WInfinity (negative : bool)
| Whole (n : Z).

Definition of_whole (w : whole) : number :=
  match w with
  | WNaN => NaN
  | WInfinity s => Infinity s
  | Whole n => Finite n 0
  end.

(** [a / b] for [0 < b], rounded to a whole number, ties to even. *)
Definition round_half_even (a b : Z) : Z :=
  let q := a / b in
  match 2 * (a mod b) ?= b with
  | Lt => q
  | Gt => q + 1
  | Eq => if Z.even q then q else q + 1
  end.

(** The rational [a / (b * 2^k)] as a fraction of integers. *)
Definition scaled (a b k : Z) : Z * Z :=
  if 0 <=? k then (a, b * 2 ^ k) else (a * 2 ^ (- k), b).

(** The largest [k] with [2^k <= a / b], for positive [a] and [b]. *)
Definition log2_ratio (a b : Z) : Z :=
  let k := Z.log2 a - Z.log2 b in
  let '(n, d) := scaled a b k in
  if d <=? n then k else k - 1.

(** The binary64 value nearest to [a / b], for positive [a] and [b]: a
    mantissa of 53 bits, fewer below 2^-1022 where the exponent stops at
    -1074, ties to even, and Infinity from 2^1024 on. *)
Definition round_positive (a b : Z) : number :=
  let e := Z.max (log2_ratio a b - 52) (- 1074) in
  let '(n, d) := scaled a b e in
  let m := round_half_even n d in
  if (0 <=? e) && (2 ^ 1024 <=? m * 2 ^ e) then Infinity false
  else Finite m e.

Definition negate (x : number) : number :=
  match x with
  | NaN => NaN
  | Infinity s => Infinity (negb s)
  | Finite m e => Finite (- m) e
  end.

(** The binary64 value nearest to [a / b], for [0 < b]. *)
Definition round (a b : Z) : number :=
  match a ?= 0 with
  | Eq => Finite 0 0
  | Gt => round_positive a b
  | Lt => negate (round_positive (- a) b)
  end.

(** The number written as the whole literal [z]. *)
Definition number_of_Z (z : Z) : number := round z 1.

(** [x / d] for a positive whole constant [d]. *)
Definition divide (x : number) (d : Z) : number :=
  match x with
  | Finite m e => let '(n, d') := scaled m d (- e) in round n d'
  | _ => x
  end.

(** [Math.floor(x)] *)
Definition floor (x : number) : whole :=
  match x with
  | NaN => WNaN
  | Infinity s => WInfinity s
  | Finite m e => Whole (if 0 <=? e then m * 2 ^ e else m / 2 ^ (- e))
  end.

(** [x % d] for a whole [x] and a positive whole constant [d]: exact,
    with the sign of [x]. *)
Definition remainder (x : whole) (d : Z) : whole :=
  match x with
  | Whole n => Whole (Z.rem n d)
  | _ => WNaN
  end.

(** *** Number.prototype.toString on whole numbers *)

(** The decimal numeral of an integer. *)
Definition decimal (n : Z) : string := NilZero.string_of_int (Z.to_int n).

(** [x] has the value [n]. *)
Definition has_value (x : number) (n : Z) : bool :=
  match x with
  | Finite m e => if 0 <=? e then m * 2 ^ e =? n else m =? n * 2 ^ (- e)
  | _ => false
  end.

(** Reading the decimal [c] gives the number of value [n]. *)
Definition reads_back (c n : Z) : bool := has_value (round c 1) n.

(** The multiple of [p] that reads back as [n], if there is one among
    the two next to [n]: the nearer one, and on a tie the even
    multiple. *)
Definition candidate (n p : Z) : option Z :=
  let lo := n / p * p in
  let hi := lo + p in
  match reads_back lo n, reads_back hi n with
  | true, true =>
      match n - lo ?= hi - n with
      | Lt => Some lo
      | Gt => Some hi
      | Eq => if Z.even (n / p) then Some lo else Some hi
      end
  | true, false => Some lo
  | false, true => Some hi
  | false, false => None
  end.

(** The decimal with the fewest significant digits that reads back as
    [n]: multiples of 10^j are tried from the largest [j] down, starting
    at the power of ten of the first digit of [n]. *)
Fixpoint shortest_from (j : nat) (n : Z) : Z :=
  match candidate n (10 ^ Z.of_nat j) with
  | Some c => c
  | None =>
      match j with
      | O => n
      | S j' => shortest_from j' n
      end
  end.

Definition shortest (n : Z) : Z :=
  shortest_from (String.length (decimal n) - 1) n.

Fixpoint strip_zeros (rev_digits : list ascii) : list ascii :=
  match rev_digits with
  | "0"%char :: r => strip_zeros r
  | _ => rev_digits
  end.

(** Exponent notation, used from 10^21 on: the significant digits with
    a point after the first, and the power of ten. *)
Definition exponent_form (c : Z) : string :=
  let all := list_ascii_of_string (decimal c) in
  match List.rev (strip_zeros (List.rev all)) with
  | nil => EmptyString
  | d :: nil =>
      String d ("e+" +:+ decimal (Z.of_nat (List.length all) - 1))
  | d :: ds =>
      String d ("." +:+ string_of_list_ascii ds +:+ "e+" +:+
                decimal (Z.of_nat (List.length all) - 1))
  end.

Definition toString_positive (n : Z) : string :=
  let c := shortest n in
  if c <? 10 ^ 21 then decimal c else exponent_form c.

Definition toString (x : whole) : string :=
  match x with
  | WNaN => "NaN"
  | WInfinity false => "Infinity"
  | WInfinity true => "-Infinity"
  | Whole n =>
      if n <? 0 then ("-" +:+ toString_positive (- n))%string
      else toString_positive n
  end.

Fixpoint replicate_char (k : nat) (c : ascii) : string :=
  match k with
  | O => EmptyString
  | S k' => String c (replicate_char k' c)
  end.

(** [s.padStart(n, c)] for a one-character filler. *)
Definition padStart (n : nat) (c : ascii) (s : string) : string :=
  (replicate_char (n - String.length s) c +:+ s)%string.

Definition formatTime (milliseconds : number) : string :=
  let totalSeconds := floor (divide milliseconds 1000) in
  let minutes := floor (divide (of_whole totalSeconds) 60) in
  let seconds := remainder totalSeconds 60 in
  (toString minutes +:+ ":" +:+ padStart 2 "0" (toString seconds))%string.

(** *** The specification's wording *)

(** The whole numbers that a binary64 holds exactly, one by one
    ([Number.MAX_SAFE_INTEGER]). *)
Definition max_safe_integer : Z := 2 ^ 53 - 1.

(** The decimal digit [d], and a number below 100 on two digits. *)
Definition digit (d : Z) : ascii := ascii_of_nat (48 + Z.to_nat d).

Definition two_digits (s : Z) : string :=
  String (digit (s / 10)) (String (digit (s mod 10)) EmptyString).

(** Padding the numeral of a number to two characters gives its two
    digits. *)
Definition pad_agrees (s : Z) : bool :=
  String.eqb (padStart 2 "0" (decimal s)) (two_digits s).

(** The specification's wording, to compare [formatTime] with:
    floor(ms/60000) minutes, a colon, and the whole seconds left over,
    on two digits. *)
Definition spec_rendering (ms : Z) : string :=
  (decimal (ms / 60000) +:+ ":" +:+ two_digits ((ms mod 60000) / 1000))%string.

End Fmt.

(** ** Data of the component *)

(** An [Audio.Sound] object, by identity. *)
Definition Handle := nat.

(** The raw status handed to the status subscriber. *)
Record PlaybackStatus := mkStatus {
  isLoaded : bool;
  durationMillis : jsval;
  positionMillis : jsval;
  status_isPlaying : bool
}.

(** The six [useState] cells (lines 14-19). *)
Record UIState := mkUI {
  sound : option Handle;
  isPlaying : bool;
  duration : jsval;
  position : jsval;
  volume : Q;
  isSeeking : bool
}.

(** The initial values passed to [useState]. *)
Definition initialUI : UIState :=
  {| sound := None; isPlaying := false; duration := JNum 0;
     position := JNum 0; volume := 1%Q; isSeeking := false |}.

(** The bindings of one render: the prop and the state values that the
    closures created during that render see for as long as they live. *)
Record Scope := mkScope {
  uri : string;
  st : UIState
}.

(** ** Commands and platform calls *)

(** State setters and console output. *)
Inductive Cmd : Type :=
| SetSound (h : Handle)
| SetIsPlaying (b : bool)
| SetDuration (v : jsval)
| SetPosition (v : jsval)
| SetVolume (v : Q)
| SetIsSeeking (b : bool)
| ConsoleLog (msg : string)
| ConsoleError (msg : option string).

(** Calls into expo-av and react-native-volume-controller.  A status
    subscriber or volume listener passed to the platform is a closure; it
    is identified by the scope it closes over. *)
Inductive Call : Type :=
| RequestPermissionsAsync
| SetAudioModeAsync
| GetVolume
| UnloadAsync (h : Handle)
| CreateAsync (u : string) (onStatus : Scope)
| PauseAsync (h : Handle)
| PlayAsync (h : Handle)
| SetPositionAsync (h : Handle) (v : Z)
| SetVolumeAsync (h : Handle) (v : Q)
| VolumeChange (v : Q)
| VolumeOnChange (listener : Scope)
| ListenerRemove.

(** What a call yields when it succeeds. *)
Definition result (c : Call) : Type :=
  match c with
  | CreateAsync _ _ => Handle
  | _ => unit
  end.

Inductive Outcome (A : Type) : Type :=
| Resolved (a : A)
| Rejected.
Arguments Resolved {A} a.
Arguments Rejected {A}.

(** ** Programs

    The body of a (possibly [async]) function: a tree of commands,
    synchronous native calls ([Invoke]) and suspension points ([Await]).
    A thrown exception or a rejected awaited promise is [Throw] until a
    [try_catch] handles it. *)
Inductive Prog (A : Type) : Type :=
| Ret (a : A)
| Throw
| Act (c : Cmd) (k : Prog A)
| Invoke (c : Call) (k : Outcome (result c) -> Prog A)
| Await (c : Call) (k : Outcome (result c) -> Prog A).
Arguments Ret {A} a.
Arguments Throw {A}.
Arguments Act {A} c k.
Arguments Invoke {A} c k.
Arguments Await {A} c k.

Fixpoint prog_bind {A B : Type} (f : A -> Prog B) (p : Prog A) : Prog B :=
  match p with
  | Ret a => f a
  | Throw => Throw
  | Act c k => Act c (prog_bind f k)
  | Invoke c k => Invoke c (fun o => prog_bind f (k o))
  | Await c k => Await c (fun o => prog_bind f (k o))
  end.

#[global] Instance Prog_ret : MRet Prog := @Ret.
#[global] Instance Prog_bind : MBind Prog := @prog_bind.

(** [try { body } catch (error) { handler }] *)
Fixpoint try_catch {A : Type} (body handler : Prog A) : Prog A :=
  match body with
  | Ret a => Ret a
  | Throw => handler
  | Act c k => Act c (try_catch k handler)
  | Invoke c k => Invoke c (fun o => try_catch (k o) handler)
  | Await c k => Await c (fun o => try_catch (k o) handler)
  end.

Definition unwrap {A : Type} (o : Outcome A) : Prog A :=
  match o with
  | Resolved a => Ret a
  | Rejected => Throw
  end.

Definition act (c : Cmd) : Prog unit := Act c (Ret tt).
Definition invoke (c : Call) : Prog (result c) := Invoke c unwrap.
Definition await (c : Call) : Prog (result c) := Await c unwrap.

(** ** The functions of the component *)

Module AudioPlayer.

(** Lines 22-39.  [getVolume] takes a callback; the platform runs it
    later (event [VolumeRead] below). *)
Definition initAudio : Prog unit :=
  try_catch
    (await RequestPermissionsAsync;;
     await SetAudioModeAsync;;
     invoke GetVolume)
    (act (ConsoleError (Some "Error initializing audio:"%string))).

(** Lines 65-72: the function that [throttle] wraps.  [sc] is the render
    in which this closure was created. *)
Definition onPlaybackStatusUpdate (sc : Scope) (status : PlaybackStatus)
  : Prog unit :=
  if isLoaded status && negb (isSeeking (st sc)) then
    act (SetDuration (js_or (durationMillis status) (JNum 0)));;
    act (SetPosition (js_or (positionMillis status) (JNum 0)));;
    act (SetIsPlaying (status_isPlaying status));;
    act (ConsoleLog "Playback status:"%string)
  else Ret tt.

(** Lines 42-62. *)
Definition loadAudio (sc : Scope) : Prog unit :=
  try_catch
    (match sound (st sc) with
     | Some s => await (UnloadAsync s)
     | None => Ret tt
     end;;
     act (ConsoleLog "Loading audio from URI:"%string);;
     audioSound ← await (CreateAsync (uri sc) sc);
     act (ConsoleLog "Audio loaded, status:"%string);;
     act (SetSound audioSound))
    (act (ConsoleError (Some "Error loading audio:"%string))).

(** Lines 75-89. *)
Definition handlePlayPause (sc : Scope) : Prog unit :=
  match sound (st sc) with
  | None => Ret tt
  | Some s =>
      try_catch
        (if isPlaying (st sc) then
           act (ConsoleLog "Pausing audio"%string);;
           await (PauseAsync s)
         else
           act (ConsoleLog "Playing audio"%string);;
           await (PlayAsync s))
        (act (ConsoleError (Some "Error toggling play/pause:"%string)))
  end.

(** Lines 92-94. *)
Definition handleSlidingStart : Prog unit := act (SetIsSeeking true).

(** Lines 97-106. *)
Definition handleSlidingComplete (sc : Scope) (value : Z) : Prog unit :=
  match sound (st sc) with
  | None => Ret tt
  | Some s =>
      try_catch
        (await (SetPositionAsync s value);;
         act (SetPosition (JNum value));;
         act (SetIsSeeking false))
        (act (ConsoleError (Some "Error seeking:"%string)))
  end.

(** Lines 109-121. *)
Definition handleVolumeChange (sc : Scope) (value : Q) : Prog unit :=
  try_catch
    (invoke (VolumeChange value);;
     match sound (st sc) with
     | Some s => await (SetVolumeAsync s value)
     | None => Ret tt
     end;;
     act (SetVolume value))
    (act (ConsoleError (Some "Error changing volume:"%string))).

(** Lines 125-129: the listener given to [VolumeController.onChange];
    [.catch(console.error)] is the continuation of the promise. *)
Definition catch_console_error (o : Outcome unit) : Prog unit :=
  match o with
  | Resolved _ => Ret tt
  | Rejected => act (ConsoleError None)
  end.

Definition onVolumeChange (sc : Scope) (level : Q) : Prog unit :=
  act (SetVolume level);;
  match sound (st sc) with
  | Some s => Await (SetVolumeAsync s level) catch_console_error
  | None => Ret tt
  end.

(** Lines 124-135: effect with dependency [sound], and its cleanup. *)
Definition volumeEffect (sc : Scope) : Prog unit :=
  invoke (VolumeOnChange sc).

Definition volumeEffect_cleanup : Prog unit := invoke ListenerRemove.

(** Lines 155-162: effect with dependency [uri], and its cleanup.  The
    promises of [loadAudio()] and [sound?.unloadAsync()] are not awaited
    by the effect; nothing follows them. *)
Definition loadEffect (sc : Scope) : Prog unit :=
  match uri sc with
  | EmptyString => Ret tt
  | _ => loadAudio sc
  end.

Definition loadEffect_cleanup (sc : Scope) : Prog unit :=
  match sound (st sc) with
  | Some s => Await (UnloadAsync s) (fun _ => Ret tt)
  | None => Ret tt
  end.

End AudioPlayer.

(** ** The platform

    What expo-av and the volume controller hold: which sounds are loaded,
    the status subscriber attached to each sound, the playback volume of
    each sound, the system output level, the volume listener and the
    [getVolume] callbacks not yet run. *)
Record Platform := mkPlatform {
  loaded : gset nat;
  next_handle : Handle;
  subscriber : gmap nat Scope;
  res_volume : gmap nat Q;
  sys_volume : Q;
  volume_listener : option Scope;
  volume_reads : nat
}.

Definition initialPlatform : Platform :=
  {| loaded := ∅; next_handle := O; subscriber := ∅; res_volume := ∅;
     sys_volume := 1%Q; volume_listener := None; volume_reads := O |}.

(** The effect of a call that succeeds, and its value. *)
Definition complete (c : Call) (p : Platform) : result c * Platform :=
  match c as c0 return result c0 * Platform with
  | RequestPermissionsAsync => (tt, p)
  | SetAudioModeAsync => (tt, p)
  | GetVolume =>
      (tt, {| loaded := loaded p; next_handle := next_handle p;
              subscriber := subscriber p; res_volume := res_volume p;
              sys_volume := sys_volume p;
              volume_listener := volume_listener p;
              volume_reads := S (volume_reads p) |})
  | UnloadAsync h =>
      (tt, {| loaded := loaded p ∖ {[ h ]}; next_handle := next_handle p;
              subscriber := subscriber p; res_volume := res_volume p;
              sys_volume := sys_volume p;
              volume_listener := volume_listener p;
              volume_reads := volume_reads p |})
  | CreateAsync u cb =>
      let h := next_handle p in
      (h, {| loaded := loaded p ∪ {[ h ]}; next_handle := S h;
             subscriber := <[ h := cb ]> (subscriber p);
             res_volume := <[ h := 1%Q ]> (res_volume p);
             sys_volume := sys_volume p;
             volume_listener := volume_listener p;
             volume_reads := volume_reads p |})
  | PauseAsync h => (tt, p)
  | PlayAsync h => (tt, p)
  | SetPositionAsync h v => (tt, p)
  | SetVolumeAsync h v =>
      (tt, {| loaded := loaded p; next_handle := next_handle p;
              subscriber := subscriber p;
              res_volume := <[ h := v ]> (res_volume p);
              sys_volume := sys_volume p;
              volume_listener := volume_listener p;
              volume_reads := volume_reads p |})
  | VolumeChange v =>
      (tt, {| loaded := loaded p; next_handle := next_handle p;
              subscriber := subscriber p; res_volume := res_volume p;
              sys_volume := v;
              volume_listener := volume_listener p;
              volume_reads := volume_reads p |})
  | VolumeOnChange sc =>
      (tt, {| loaded := loaded p; next_handle := next_handle p;
              subscriber := subscriber p; res_volume := res_volume p;
              sys_volume := sys_volume p;
              volume_listener := Some sc;
              volume_reads := volume_reads p |})
  | ListenerRemove =>
      (tt, {| loaded := loaded p; next_handle := next_handle p;
              subscriber := subscriber p; res_volume := res_volume p;
              sys_volume := sys_volume p;
              volume_listener := None;
              volume_reads := volume_reads p |})
  end.

(** ** The world *)

Inductive Lifecycle : Type := Fresh | Mounted | Gone.

(** A function suspended at an [await]: the promise it waits for and the
    rest of its body. *)
Record Task := mkTask {
  awaited : Call;
  resume : Outcome (result awaited) -> Prog unit
}.

(** What has been done so far, in order. *)
Inductive Entry : Type :=
| Issued (c : Call)
| Ran (c : Cmd).

Record World := mkWorld {
  lifecycle : Lifecycle;
  props_uri : string;
  ui : UIState;
  (** the render retained by the hooks whose dependency array is [sound]
      (lines 106, 121, 135) *)
  sound_scope : Scope;
  (** the render retained by the effect whose dependency array is [uri]
      (line 162) *)
  uri_scope : Scope;
  plat : Platform;
  pending : gmap nat Task;
  next_task : nat;
  trace : list Entry
}.

Definition init : World :=
  {| lifecycle := Fresh; props_uri := EmptyString; ui := initialUI;
     sound_scope := mkScope EmptyString initialUI;
     uri_scope := mkScope EmptyString initialUI;
     plat := initialPlatform; pending := ∅; next_task := O; trace := nil |}.

(** The bindings of the latest render. *)
Definition current (w : World) : Scope := mkScope (props_uri w) (ui w).

Definition with_ui (s : UIState) (w : World) : World :=
  mkWorld (lifecycle w) (props_uri w) s (sound_scope w) (uri_scope w)
          (plat w) (pending w) (next_task w) (trace w).

Definition with_plat (p : Platform) (w : World) : World :=
  mkWorld (lifecycle w) (props_uri w) (ui w) (sound_scope w) (uri_scope w)
          p (pending w) (next_task w) (trace w).

Definition with_trace (t : list Entry) (w : World) : World :=
  mkWorld (lifecycle w) (props_uri w) (ui w) (sound_scope w) (uri_scope w)
          (plat w) (pending w) (next_task w) t.

Definition with_pending (q : gmap nat Task) (n : nat) (w : World) : World :=
  mkWorld (lifecycle w) (props_uri w) (ui w) (sound_scope w) (uri_scope w)
          (plat w) q n (trace w).

Definition with_sound_scope (sc : Scope) (w : World) : World :=
  mkWorld (lifecycle w) (props_uri w) (ui w) sc (uri_scope w)
          (plat w) (pending w) (next_task w) (trace w).

Definition with_uri_scope (sc : Scope) (w : World) : World :=
  mkWorld (lifecycle w) (props_uri w) (ui w) (sound_scope w) sc
          (plat w) (pending w) (next_task w) (trace w).

Definition with_props (life : Lifecycle) (u : string) (w : World) : World :=
  mkWorld life u (ui w) (sound_scope w) (uri_scope w)
          (plat w) (pending w) (next_task w) (trace w).

Definition record (e : Entry) (w : World) : World :=
  with_trace (trace w ++ e :: nil) w.

(** A state setter. *)
Definition apply_cmd (c : Cmd) (s : UIState) : UIState :=
  match c with
  | SetSound h =>
      mkUI (Some h) (isPlaying s) (duration s) (position s) (volume s)
           (isSeeking s)
  | SetIsPlaying b =>
      mkUI (sound s) b (duration s) (position s) (volume s) (isSeeking s)
  | SetDuration v =>
      mkUI (sound s) (isPlaying s) v (position s) (volume s) (isSeeking s)
  | SetPosition v =>
      mkUI (sound s) (isPlaying s) (duration s) v (volume s) (isSeeking s)
  | SetVolume v =>
      mkUI (sound s) (isPlaying s) (duration s) (position s) v (isSeeking s)
  | SetIsSeeking b =>
      mkUI (sound s) (isPlaying s) (duration s) (position s) (volume s) b
  | ConsoleLog _ => s
  | ConsoleError _ => s
  end.

(** React ignores a state update on a component that is not mounted. *)
Definition run_cmd (c : Cmd) (w : World) : World :=
  let w1 := record (Ran c) w in
  match lifecycle w with
  | Mounted => with_ui (apply_cmd c (ui w)) w1
  | _ => w1
  end.

(** Run a program until it ends or suspends at an [await].  [native_ok]
    tells which synchronous native calls return rather than throw.  At an
    [await] the call is issued and the rest of the body is parked. *)
Fixpoint exec (native_ok : Call -> bool) (p : Prog unit) (w : World)
  : World :=
  match p with
  | Ret _ => w
  | Throw => w
  | Act c k => exec native_ok k (run_cmd c w)
  | Invoke c k =>
      let w1 := record (Issued c) w in
      if native_ok c then
        let r := complete c (plat w1) in
        exec native_ok (k (Resolved (fst r))) (with_plat (snd r) w1)
      else exec native_ok (k Rejected) w1
  | Await c k =>
      with_pending (<[ next_task w := mkTask c k ]> (pending w))
                   (S (next_task w)) (record (Issued c) w)
  end.

Definition all_ok (c : Call) : bool := true.

(** ** Events of the event loop *)

Inductive Event : Type :=
| Mount (u : string)
| ChangeUri (u : string)
| Unmount
| PressPlayPause
| SlidingStart
| SlidingComplete (value : Z)
(** release of the volume slider; [native_ok] says whether
    [VolumeController.change] returns normally *)
| VolumeSlidingComplete (value : Q) (native_ok : bool)
(** the system output level was changed from outside *)
| SystemVolumeChanged (level : Q)
(** the platform runs a [getVolume] callback *)
| VolumeRead
(** the throttled subscriber of sound [h] forwards [status] to the
    function it wraps *)
| StatusDelivered (h : Handle) (status : PlaybackStatus)
(** the promise of task [id] resolves ([ok]) or rejects *)
| Settle (id : nat) (ok : bool).

Definition settle (id : nat) (ok : bool) (w : World) : World :=
  match pending w !! id with
  | None => w
  | Some t =>
      let w1 := with_pending (delete id (pending w)) (next_task w) w in
      if ok then
        let r := complete (awaited t) (plat w1) in
        exec all_ok (resume t (Resolved (fst r))) (with_plat (snd r) w1)
      else exec all_ok (resume t Rejected) w1
  end.

Definition read_volume (w : World) : World :=
  match volume_reads (plat w) with
  | O => w
  | S n =>
      let p := plat w in
      exec all_ok (act (SetVolume (sys_volume p)))
        (with_plat {| loaded := loaded p; next_handle := next_handle p;
                      subscriber := subscriber p;
                      res_volume := res_volume p;
                      sys_volume := sys_volume p;
                      volume_listener := volume_listener p;
                      volume_reads := n |} w)
  end.

Definition system_volume_changed (level : Q) (w : World) : World :=
  let w1 := with_plat (snd (complete (VolumeChange level) (plat w))) w in
  match volume_listener (plat w1) with
  | Some sc => exec all_ok (AudioPlayer.onVolumeChange sc level) w1
  | None => w1
  end.

(** First render: the three effects run in the order they are declared. *)
Definition mount (u : string) (w : World) : World :=
  let w0 := with_ui initialUI (with_props Mounted u w) in
  let cur := current w0 in
  let w1 := with_uri_scope cur (with_sound_scope cur w0) in
  let w2 := exec all_ok (AudioPlayer.volumeEffect cur) w1 in
  let w3 := exec all_ok AudioPlayer.initAudio w2 in
  exec all_ok (AudioPlayer.loadEffect cur) w3.

(** Unmount: the cleanups run in the order the effects are declared. *)
Definition unmount (w : World) : World :=
  let w1 := exec all_ok AudioPlayer.volumeEffect_cleanup w in
  let w2 := exec all_ok (AudioPlayer.loadEffect_cleanup (uri_scope w1)) w1 in
  with_props Gone (props_uri w2) w2.

Definition handle (e : Event) (w : World) : World :=
  match e, lifecycle w with
  | Mount u, Fresh => mount u w
  | ChangeUri u, Mounted => with_props Mounted u w
  | Unmount, Mounted => unmount w
  | PressPlayPause, Mounted =>
      exec all_ok (AudioPlayer.handlePlayPause (current w)) w
  | SlidingStart, Mounted => exec all_ok AudioPlayer.handleSlidingStart w
  | SlidingComplete v, Mounted =>
      exec all_ok (AudioPlayer.handleSlidingComplete (sound_scope w) v) w
  | VolumeSlidingComplete v ok, Mounted =>
      exec (fun _ => ok) (AudioPlayer.handleVolumeChange (sound_scope w) v) w
  | SystemVolumeChanged v, _ => system_volume_changed v w
  | VolumeRead, _ => read_volume w
  | StatusDelivered h s, _ =>
      match subscriber (plat w) !! h with
      | Some sc => exec all_ok (AudioPlayer.onPlaybackStatusUpdate sc s) w
      | None => w
      end
  | Settle id ok, _ => settle id ok w
  | _, _ => w
  end.

(** After an event React renders again and compares each dependency
    array with the one of the render it retained.  For the effects whose
    dependencies changed, the cleanups of the retained render run first,
    then the effect bodies of the new render. *)
Definition rerender (w : World) : World :=
  match lifecycle w with
  | Mounted =>
      let cur := current w in
      let sound_changed :=
        bool_decide (sound (st cur) <> sound (st (sound_scope w))) in
      let uri_changed := bool_decide (uri cur <> uri (uri_scope w)) in
      let w1 :=
        if sound_changed
        then exec all_ok AudioPlayer.volumeEffect_cleanup w else w in
      let w2 :=
        if uri_changed
        then exec all_ok (AudioPlayer.loadEffect_cleanup (uri_scope w1)) w1
        else w1 in
      let w3 :=
        if sound_changed
        then exec all_ok (AudioPlayer.volumeEffect cur)
                         (with_sound_scope cur w2)
        else w2 in
      if uri_changed
      then exec all_ok (AudioPlayer.loadEffect cur) (with_uri_scope cur w3)
      else w3
  | _ => w
  end.

Definition step (w : World) (e : Event) : World := rerender (handle e w).

Definition run (es : list Event) (w : World) : World := fold_left step es w.

Inductive reachable : World -> Prop :=
| reach_init : reachable init
| reach_step w e : reachable w -> reachable (step w e).

(** ** Invariants of reachable worlds *)

(** Subscribing and unsubscribing the volume listener is done by the
    effect of lines 124-135 only. *)
Definition quiet_call (c : Call) : bool :=
  match c with
  | VolumeOnChange _ => false
  | ListenerRemove => false
  | _ => true
  end.

Definition is_num (v : jsval) : bool :=
  match v with
  | JNum _ => true
  | _ => false
  end.

(** The setters of [duration] and [position] are given numbers. *)
Definition numeric_cmd (c : Cmd) : bool :=
  match c with
  | SetDuration v => is_num v
  | SetPosition v => is_num v
  | _ => true
  end.

Inductive tame : Prog unit -> Prop :=
| tame_Ret u : tame (Ret u)
| tame_Throw : tame Throw
| tame_Act c k : numeric_cmd c = true -> tame k -> tame (Act c k)
| tame_Invoke c k :
    quiet_call c = true -> (forall o, tame (k o)) -> tame (Invoke c k)
| tame_Await c k :
    quiet_call c = true -> (forall o, tame (k o)) -> tame (Await c k).

Definition tame_task (t : Task) : Prop :=
  quiet_call (awaited t) = true /\ forall o, tame (resume t o).

Definition tame_pending (w : World) : Prop :=
  forall id t, pending w !! id = Some t -> tame_task t.

(** While the component is mounted, the retained renders agree with the
    latest one on their dependencies, and the volume listener in place is
    the one of the retained render. *)
Definition in_sync (w : World) : Prop :=
  lifecycle w = Mounted ->
  sound (st (sound_scope w)) = sound (ui w) /\
  uri (uri_scope w) = props_uri w /\
  volume_listener (plat w) = Some (sound_scope w).

Definition listener_ok (w : World) : Prop :=
  lifecycle w = Mounted -> volume_listener (plat w) = Some (sound_scope w).

Definition numbers (w : World) : Prop :=
  is_num (duration (ui w)) = true /\ is_num (position (ui w)) = true.

(** What every handler and continuation preserves. *)
Definition steady (w : World) : Prop :=
  tame_pending w /\ listener_ok w /\ numbers w.

(** ** The loader, when no two loads overlap *)

(** A program is inert when it neither creates a sound nor takes
    ownership of one. *)
Definition inert_call (c : Call) : bool :=
  match c with
  | CreateAsync _ _ => false
  | _ => true
  end.

Definition inert_cmd (c : Cmd) : bool :=
  match c with
  | SetSound _ => false
  | _ => true
  end.

Inductive inert : Prog unit -> Prop :=
| inert_Ret u : inert (Ret u)
| inert_Throw : inert Throw
| inert_Act c k : inert_cmd c = true -> inert k -> inert (Act c k)
| inert_Invoke c k :
    inert_call c = true -> (forall o, inert (k o)) -> inert (Invoke c k)
| inert_Await c k :
    inert_call c = true -> (forall o, inert (k o)) -> inert (Await c k).

Definition inert_task (t : Task) : Prop :=
  inert_call (awaited t) = true /\ forall o, inert (resume t o).

(** No load is in flight: no pending promise can end in a loaded sound
    or in a call of [setSound]. *)
Definition no_load_in_flight (w : World) : Prop :=
  forall id t, pending w !! id = Some t -> inert_task t.

(** A program that ends by calling [setSound(h)]. *)
Inductive adopts (h : Handle) : Prog unit -> Prop :=
| adopts_Act c k :
    inert_cmd c = true -> adopts h k -> adopts h (Act c k)
| adopts_Set k : inert k -> adopts h (Act (SetSound h) k).

(** [loadAudio] suspended at line 50. *)
Inductive creating : Task -> Prop :=
| creating_intro u sc k :
    inert (k Rejected) -> (forall h, adopts h (k (Resolved h))) ->
    creating (mkTask (CreateAsync u sc) k).

(** The part of [loadAudio] from line 49 to the [await] of line 50. *)
Inductive starts_create : Prog unit -> Prop :=
| starts_Act c k :
    inert_cmd c = true -> starts_create k -> starts_create (Act c k)
| starts_Await u sc k :
    creating (mkTask (CreateAsync u sc) k) ->
    starts_create (Await (CreateAsync u sc) k).

(** [loadAudio] suspended at line 46, unloading sound [X]. *)
Inductive unloading (X : Handle) : Task -> Prop :=
| unloading_intro k :
    inert (k Rejected) -> starts_create (k (Resolved tt)) ->
    unloading X (mkTask (UnloadAsync X) k).

(** The sound the component owns, as a set. *)
Definition owned (s : UIState) : gset nat :=
  match sound s with
  | Some h => {[ h ]}
  | None => ∅
  end.

Definition bounded (w : World) : Prop :=
  forall id t, pending w !! id = Some t -> (id < next_task w)%nat.

(** Where the loader stands: idle, waiting for the previous sound to be
    unloaded, or waiting for the new sound to be created. *)
Inductive loader (w : World) : Prop :=
| loader_idle :
    no_load_in_flight w ->
    loaded (plat w) ⊆ owned (ui w) ->
    loader w
| loader_unloading id X t :
    pending w !! id = Some t -> unloading X t ->
    (forall id' t', id' <> id -> pending w !! id' = Some t' -> inert_task t') ->
    lifecycle w = Mounted ->
    sound (ui w) = Some X ->
    loaded (plat w) ⊆ {[ X ]} ->
    loader w
| loader_creating id t :
    pending w !! id = Some t -> creating t ->
    (forall id' t', id' <> id -> pending w !! id' = Some t' -> inert_task t') ->
    lifecycle w = Mounted ->
    loaded (plat w) = ∅ ->
    loader w.

(** [w'] continues [w] without touching the loader: the owned sound is
    the same, no sound was loaded, the promises already in flight are
    still there and the new ones are inert. *)
Record grows (w w' : World) : Prop := mkGrows {
  grows_lifecycle : lifecycle w' = lifecycle w;
  grows_sound : sound (ui w') = sound (ui w);
  grows_loaded : loaded (plat w') ⊆ loaded (plat w);
  grows_next : (next_task w <= next_task w')%nat;
  grows_new : forall id t,
    pending w' !! id = Some t ->
    pending w !! id = Some t \/
    ((next_task w <= id)%nat /\ (id < next_task w')%nat /\ inert_task t);
  grows_old : forall id,
    (id < next_task w)%nat -> pending w' !! id = pending w !! id
}.

(** Dropping a settled promise from the table. *)
Definition settled (id : nat) (w : World) : World :=
  with_pending (delete id (pending w)) (next_task w) w.

(** Before mount nothing is in flight and nothing is loaded. *)
Definition pristine (w : World) : Prop :=
  pending w = ∅ /\ loaded (plat w) = ∅ /\ subscriber (plat w) = ∅ /\
  volume_listener (plat w) = None /\ volume_reads (plat w) = O.

Definition changes_locator (e : Event) : bool :=
  match e with
  | ChangeUri _ => true
  | Unmount => true
  | _ => false
  end.

(** Runs in which the locator changes, and the component unmounts, only
    while no load is in flight. *)
Inductive calm : World -> Prop :=
| calm_init : calm init
| calm_step w e :
    calm w ->
    (changes_locator e = true -> no_load_in_flight w) ->
    calm (step w e).

(** The sounds for which an unload has been requested. *)
Fixpoint unloads (t : list Entry) : list Handle :=
  match t with
  | nil => nil
  | Issued (UnloadAsync h) :: t' => h :: unloads t'
  | _ :: t' => unloads t'
  end.

(** ** Sample runs *)

(** The component mounted on a file whose load has succeeded: the sound
    has handle 0 and is owned. *)
Definition playing_world : World :=
  run (Mount "a.mp3" :: Settle 1 true :: nil) init.

(** The user has started dragging the seek slider. *)
Definition dragging_world : World :=
  run (Mount "a.mp3" :: Settle 1 true :: SlidingStart :: nil) init.

Definition status_at_500 : PlaybackStatus :=
  mkStatus true (JNum 1000) (JNum 500) true.

(** The locator changes from a.mp3 to b.mp3 while the first load is still
    in flight; both loads then succeed. *)
Definition overlapping_loads : World :=
  run (Mount "a.mp3" :: ChangeUri "b.mp3" :: Settle 1 true ::
       Settle 2 true :: nil) init.

(** A schedule in which every locator change finds no promise in
    flight. *)
Fixpoint settled_schedule (es : list Event) (w : World) : Prop :=
  match es with
  | nil => True
  | e :: es' =>
      (changes_locator e = true -> pending w = ∅) /\
      settled_schedule es' (step w e)
  end.

(** Two loads one after the other: every promise has settled when the
    locator changes. *)
Definition sequential_loads : World :=
  run (Mount "a.mp3" :: Settle 0 true :: Settle 2 true :: Settle 1 true ::
       ChangeUri "b.mp3" :: Settle 3 true :: Settle 4 true :: nil) init.

(** ** The throttle of line 65 and the time of deliveries

    [onPlaybackStatusUpdate] is [throttle(f, 100)], [f] being the
    function of lines 65-72.  [throttle] is called in the body of the
    component, so every render builds a throttled function with a state
    of its own.  [loadAudio] hands the one of its render to
    [createAsync] (line 53), and the player calls it for that sound from
    then on: each sound has its own throttle.

    Modelled from lodash's documentation of [throttle] (lodash is not
    part of the repository): the throttled function invokes [f] at most
    once per [wait] milliseconds.  With the default options the first
    call invokes [f] at once and opens a window of [wait] milliseconds; a
    call made while the window is open is not forwarded but kept, the
    last one replacing the one before; when the window ends, the kept
    call, if any, is forwarded and a new window opens. *)

Definition wait : Z := 100.

(** The open window of a throttle: when it ends, and the call kept for
    its end. *)
Record Throttle := mkThrottle {
  window_end : Z;
  kept : option PlaybackStatus
}.

(** One call of the wrapped function. *)
Record Delivery := mkDelivery {
  at_time : Z;
  from_sound : Handle;
  delivered : PlaybackStatus
}.

Record Timed := mkTimed {
  untimed : World;
  clock : Z;
  (** the open window of the throttle of each sound; no entry when no
      window is open *)
  throttles : gmap nat Throttle;
  forwarded : list Delivery
}.

Definition timed_init : Timed :=
  {| untimed := init; clock := 0; throttles := ∅; forwarded := nil |}.

Inductive TimedEvent : Type :=
(** an event of the event loop other than a delivery *)
| Happens (e : Event)
(** the player calls the status callback of sound [h] at time [t] *)
| RawStatus (t : Z) (h : Handle) (status : PlaybackStatus)
(** the timer of the throttle of sound [h] fires *)
| WindowEnds (h : Handle).

(** The throttle of sound [h] invokes the wrapped function at time [t]
    and opens a window. *)
Definition forward (t : Z) (h : Handle) (s : PlaybackStatus) (tw : Timed)
  : Timed :=
  {| untimed := step (untimed tw) (StatusDelivered h s);
     clock := t;
     throttles := <[ h := mkThrottle (t + wait) None ]> (throttles tw);
     forwarded := forwarded tw ++ mkDelivery t h s :: nil |}.

Definition timed_step (tw : Timed) (e : TimedEvent) : Timed :=
  match e with
  | Happens (StatusDelivered _ _) => tw
  | Happens e' =>
      {| untimed := step (untimed tw) e'; clock := clock tw;
         throttles := throttles tw; forwarded := forwarded tw |}
  | RawStatus t h s =>
      if t <? clock tw then tw
      else
        match subscriber (plat (untimed tw)) !! h with
        | None => tw
        | Some _ =>
            match throttles tw !! h with
            | Some th =>
                if t <? window_end th
                then {| untimed := untimed tw; clock := t;
                        throttles :=
                          <[ h := mkThrottle (window_end th) (Some s) ]>
                            (throttles tw);
                        forwarded := forwarded tw |}
                else forward t h s tw
            | None => forward t h s tw
            end
        end
  | WindowEnds h =>
      match throttles tw !! h with
      | None => tw
      | Some th =>
          let t := Z.max (clock tw) (window_end th) in
          match kept th with
          | Some s => forward t h s tw
          | None =>
              {| untimed := untimed tw; clock := t;
                 throttles := delete h (throttles tw);
                 forwarded := forwarded tw |}
          end
      end
  end.

Definition timed_run (es : list TimedEvent) (tw : Timed) : Timed :=
  fold_left timed_step es tw.

(** Consecutive deliveries are at least [wait] milliseconds apart. *)
Fixpoint spaced (l : list Delivery) : bool :=
  match l with
  | nil => true
  | a :: r =>
      match r with
      | nil => true
      | b :: _ => (at_time a + wait <=? at_time b) && spaced r
      end
  end.

(** The deliveries that come from sound [h]. *)
Definition of_sound (h : Handle) (l : list Delivery) : list Delivery :=
  List.filter (fun d => Nat.eqb (from_sound d) h) l.

Definition status_at_700 : PlaybackStatus :=
  mkStatus true (JNum 2000) (JNum 700) false.

(** The two sounds of [overlapping_loads] each report a status, ten
    milliseconds apart. *)
Definition two_sounds_report : list TimedEvent :=
  Happens (Mount "a.mp3") :: Happens (ChangeUri "b.mp3") ::
  Happens (Settle 1 true) :: Happens (Settle 2 true) ::
  RawStatus 1000 0%nat status_at_500 :: RawStatus 1010 1%nat status_at_700 ::
  nil.
From Stdlib Require DecimalZ.

(** ** Classes of events *)

Definition is_settle (e : Event) : bool :=
  match e with
  | Settle _ _ => true
  | _ => false
  end.

(** The events that can give the [uri] effect a new render to retain. *)
Definition sets_locator (e : Event) : bool :=
  match e with
  | Mount _ => true
  | ChangeUri _ => true
  | _ => false
  end.

(** ** Suspended functions *)

(** The task that a function leaves in the table when it is called: the
    setter calls and console output before its first [await] are skipped,
    the promise awaited and the rest of the body are kept.  A function
    that returns, throws or makes a native call first parks nothing. *)
Fixpoint parked (p : Prog unit) : option Task :=
  match p with
  | Await c k => Some (mkTask c k)
  | Act _ k => parked k
  | _ => None
  end.

(** [loadAudio] suspended at line 50, waiting for the new sound: at once
    when no sound was owned, after the unload of line 46 has resolved
    otherwise. *)
Definition awaiting_create (sc : Scope) : option Task :=
  match parked (AudioPlayer.loadAudio sc) with
  | Some t =>
      match awaited t as c
        return (Outcome (result c) -> Prog unit) -> option Task with
      | UnloadAsync _ => fun k => parked (k (Resolved tt))
      | c => fun k => Some (mkTask c k)
      end (resume t)
  | None => None
  end.

(** ** Programs that leave the playing flag and the duration alone *)

Definition hushed_cmd (c : Cmd) : bool :=
  match c with
  | SetIsPlaying _ => false
  | SetDuration _ => false
  | _ => true
  end.

Inductive hushed : Prog unit -> Prop :=
| hushed_Ret u : hushed (Ret u)
| hushed_Throw : hushed Throw
| hushed_Act c k : hushed_cmd c = true -> hushed k -> hushed (Act c k)
| hushed_Invoke c k : (forall o, hushed (k o)) -> hushed (Invoke c k)
| hushed_Await c k : (forall o, hushed (k o)) -> hushed (Await c k).

(** No promise in flight ends in [setIsPlaying] or [setDuration]. *)
Definition hushed_pending (w : World) : Prop :=
  forall id t, pending w !! id = Some t -> forall o, hushed (resume t o).

Definition is_status (e : Event) : bool :=
  match e with
  | StatusDelivered _ _ => true
  | _ => false
  end.

(** ** Status subscribers on the platform *)

(** No subscriber is attached to a handle that was not given out yet. *)
Definition known (p : Platform) : Prop :=
  forall h, (next_handle p <= h)%nat -> subscriber p !! h = None.

(** [p'] has the subscribers of [p] on the handles given out so far. *)
Definition extends (p p' : Platform) : Prop :=
  (next_handle p <= next_handle p')%nat /\
  forall h, (h < next_handle p)%nat -> subscriber p' !! h = subscriber p !! h.

(** ** Theorems about [formatTime] *)

Module FmtFacts.
Import Fmt.

Lemma minutes_floor (ms : Z) : ms / 1000 / 60 = ms / 60000.
Proof. rewrite Z.div_div by lia. reflexivity. Qed.

Lemma seconds_left_over (ms : Z) :
  0 <= ms -> Z.rem (ms / 1000) 60 = (ms mod 60000) / 1000.
Proof.
  intros Hms.
  assert (H0 : 0 <= ms / 1000) by (apply Z.div_pos; lia).
  rewrite Z.rem_mod_nonneg by lia.
  replace 60000 with (1000 * 60) by reflexivity.
  rewrite Z.rem_mul_r by lia.
  rewrite (Z.mul_comm 1000), Z.div_add by lia.
  rewrite (Z.div_small (ms mod 1000)) by (apply Z.mod_pos_bound; lia).
  reflexivity.
Qed.

Lemma pad_two_digits (s : Z) :
  0 <= s < 60 -> padStart 2 "0" (decimal s) = two_digits s.
Proof.
  intros Hs. apply String.eqb_eq. change (pad_agrees s = true).
  assert (Hall : forallb pad_agrees (map Z.of_nat (seq 0 60)) = true)
    by (vm_compute; reflexivity).
  rewrite forallb_forall in Hall. apply Hall.
  apply in_map_iff. exists (Z.to_nat s). split; [lia|].
  apply in_seq. lia.
Qed.

(** *** Rounding *)

(** Rounding to a whole number moves by half a unit at most. *)
Lemma round_half_even_near (a b : Z) :
  0 < b ->
  2 * (round_half_even a b * b) <= 2 * a + b /\
  2 * a <= 2 * (round_half_even a b * b) + b.
Proof.
  intros Hb. unfold round_half_even.
  assert (D := Z.div_mod a b ltac:(lia)).
  assert (M := Z.mod_pos_bound a b Hb).
  destruct (Z.compare_spec (2 * (a mod b)) b) as [E|E|E];
    [destruct (Z.even (a / b))|..]; nia.
Qed.

Lemma round_half_even_one (a : Z) : round_half_even a 1 = a.
Proof.
  unfold round_half_even. rewrite Z.mod_1_r, Z.div_1_r. reflexivity.
Qed.

Lemma log2_ratio_le (a b : Z) : log2_ratio a b <= Z.log2 a - Z.log2 b.
Proof.
  unfold log2_ratio.
  destruct (scaled a b (Z.log2 a - Z.log2 b)) as [n d].
  destruct (d <=? n); lia.
Qed.

(** [2^k <= a / b] for [k] the binary logarithm of the ratio. *)
Lemma log2_ratio_lower (a b : Z) :
  0 < a -> 0 < b ->
  (0 <= log2_ratio a b -> b * 2 ^ log2_ratio a b <= a) /\
  (log2_ratio a b < 0 -> b <= a * 2 ^ (- log2_ratio a b)).
Proof.
  intros Ha Hb.
  destruct (Z.log2_spec a Ha) as [A1 _].
  destruct (Z.log2_spec b Hb) as [_ B2].
  assert (La := Z.log2_nonneg a). assert (Lb := Z.log2_nonneg b).
  unfold log2_ratio, scaled.
  set (k := Z.log2 a - Z.log2 b).
  destruct (Z.leb_spec 0 k) as [K|K].
  - destruct (Z.leb_spec (b * 2 ^ k) a) as [T|T]; [split; [trivial|lia]|].
    split; intros S.
    + assert (E : 2 ^ Z.log2 a = 2 ^ (Z.log2 b + 1) * 2 ^ (k - 1))
        by (rewrite <- Z.pow_add_r by lia; f_equal; lia).
      rewrite <- Z.add_1_r in B2.
      assert (0 < 2 ^ (k - 1)) by (apply Z.pow_pos_nonneg; lia).
      nia.
    + assert (k = 0) by lia.
      replace (- (k - 1)) with 1 by lia.
      replace (Z.log2 a) with (Z.log2 b) in A1 by lia.
      rewrite <- Z.add_1_r, Z.pow_add_r in B2 by lia.
      change (2 ^ 1) with 2 in *. lia.
  - destruct (Z.leb_spec b (a * 2 ^ (- k))) as [T|T]; [split; [lia|trivial]|].
    split; intros S; [lia|].
    assert (E : 2 ^ Z.log2 a * 2 ^ (- (k - 1)) = 2 ^ (Z.log2 b + 1))
      by (rewrite <- Z.pow_add_r by lia; f_equal; lia).
    rewrite <- Z.add_1_r in B2.
    assert (0 < 2 ^ (- (k - 1))) by (apply Z.pow_pos_nonneg; lia).
    nia.
Qed.

Lemma log2_ratio_one (c : Z) : 0 < c -> log2_ratio c 1 = Z.log2 c.
Proof.
  intros Hc. unfold log2_ratio, scaled.
  change (Z.log2 1) with 0. rewrite Z.sub_0_r.
  assert (L := Z.log2_nonneg c).
  destruct (Z.leb_spec 0 (Z.log2 c)) as [_|]; [|lia].
  destruct (Z.log2_spec c Hc) as [A _].
  destruct (Z.leb_spec (1 * 2 ^ Z.log2 c) c); lia.
Qed.

(** *** Division and floor on the whole numbers that a binary64 holds *)

(** For a whole [a] below 2^53 and a divisor up to 1000 the rounded
    quotient does not reach the next whole number: [Math.floor(a / d)]
    is the integer quotient. *)
Lemma floor_round_positive (a d : Z) :
  0 < a < 2 ^ 53 -> 1 <= d <= 1000 ->
  floor (round_positive a d) = Whole (a / d).
Proof.
  intros Ha Hd.
  assert (Lle := log2_ratio_le a d).
  assert (La : Z.log2 a < 53) by (apply Z.log2_lt_pow2; lia).
  assert (Ld := Z.log2_nonneg d).
  destruct (log2_ratio_lower a d ltac:(lia) ltac:(lia)) as [Lp Ln].
  unfold round_positive.
  set (lg := log2_ratio a d) in *.
  set (e := Z.max (lg - 52) (- 1074)).
  assert (He : e <= 0) by (subst e; lia).
  (* the mantissa is a * P / d rounded, with P = 2^(-e) *)
  assert (HP : 0 < 2 ^ (- e)) by (apply Z.pow_pos_nonneg; lia).
  assert (Hgap : d < 2 * 2 ^ (- e)).
  { subst e. destruct (Z.max_spec (lg - 52) (- 1074)) as [[_ ->]|[_ ->]].
    - change (- - 1074) with 1074.
      assert (2 ^ 10 <= 2 ^ 1074) by (apply Z.pow_le_mono_r; lia).
      change (2 ^ 10) with 1024 in *. lia.
    - replace (- (lg - 52)) with (52 - lg) by lia.
      destruct (Z.leb_spec 0 lg) as [G|G].
      + specialize (Lp G).
        assert (E : 2 ^ 53 = 2 ^ lg * (2 * 2 ^ (52 - lg))).
        { rewrite <- (Z.pow_succ_r 2 (52 - lg)) by lia.
          rewrite <- Z.pow_add_r by lia. f_equal. lia. }
        assert (0 < 2 ^ lg) by (apply Z.pow_pos_nonneg; lia).
        nia.
      + specialize (Ln G).
        assert (E : 2 * 2 ^ (52 - lg) = 2 ^ 53 * 2 ^ (- lg)).
        { rewrite <- (Z.pow_succ_r 2 (52 - lg)) by lia.
          rewrite <- Z.pow_add_r by lia. f_equal. lia. }
        assert (0 < 2 ^ (- lg)) by (apply Z.pow_pos_nonneg; lia).
        nia. }
  assert (Hm : forall n d',
             (n, d') = (a * 2 ^ (- e), d) ->
             a / d * 2 ^ (- e) <= round_half_even n d' <
             a / d * 2 ^ (- e) + 2 ^ (- e)).
  { intros n d' [= -> ->].
    destruct (round_half_even_near (a * 2 ^ (- e)) d ltac:(lia)) as [N1 N2].
    assert (D := Z.div_mod a d ltac:(lia)).
    assert (M := Z.mod_pos_bound a d ltac:(lia)).
    set (m := round_half_even (a * 2 ^ (- e)) d) in *.
    set (P := 2 ^ (- e)) in *. set (q := a / d) in *.
    set (r := a mod d) in *.
    split; nia. }
  unfold scaled.
  destruct (Z.leb_spec 0 e) as [E0|E0].
  - assert (e = 0) by lia. subst e.
    replace (Z.max (lg - 52) (- 1074)) with 0 in * by lia.
    change (2 ^ 0) with 1 in *. change (- 0) with 0 in *.
    change (2 ^ 0) with 1 in *.
    rewrite !Z.mul_1_r in *.
    specialize (Hm a d eq_refl).
    assert (Hs : (2 ^ 1024 <=? round_half_even a d) = false).
    { apply Z.leb_gt.
      assert (2 ^ 53 < 2 ^ 1024) by (apply Z.pow_lt_mono_r; lia).
      assert (a / d <= a) by (apply Z.div_le_upper_bound; nia).
      lia. }
    rewrite Hs. simpl andb. cbv iota. unfold floor.
    change (0 <=? 0) with true. cbv iota. rewrite Z.mul_1_r.
    f_equal. lia.
  - specialize (Hm _ _ eq_refl).
    simpl andb. cbv iota. unfold floor.
    destruct (Z.leb_spec 0 e) as [|_]; [lia|].
    f_equal. symmetry. apply Z.div_unique with
      (r := round_half_even (a * 2 ^ (- e)) d - a / d * 2 ^ (- e)); lia.
Qed.

Lemma floor_divide (a d : Z) :
  0 <= a < 2 ^ 53 -> 1 <= d <= 1000 ->
  floor (divide (Finite a 0) d) = Whole (a / d).
Proof.
  intros Ha Hd. unfold divide, scaled. change (- 0) with 0.
  change (0 <=? 0) with true. cbv iota. change (2 ^ 0) with 1.
  rewrite Z.mul_1_r. unfold round.
  destruct (Z.compare_spec a 0) as [->|L|G]; [|lia|].
  - rewrite Z.div_0_l by lia. reflexivity.
  - apply floor_round_positive; lia.
Qed.

(** *** Number.prototype.toString on the whole numbers of a binary64 *)

Lemma round_half_even_ge (a b : Z) : 0 < b -> a / b <= round_half_even a b.
Proof.
  intros Hb. unfold round_half_even.
  destruct (2 * (a mod b) ?= b); [destruct (Z.even (a / b))|..]; lia.
Qed.

(** Below 2^53 a whole number is the only decimal that reads back as
    itself. *)
Lemma reads_back_safe (c n : Z) :
  0 <= n < 2 ^ 53 -> 0 <= c -> reads_back c n = true -> c = n.
Proof.
  intros Hn Hc. unfold reads_back, round.
  destruct (Z.compare_spec c 0) as [->|L|G]; [|lia|].
  - unfold has_value. change (0 <=? 0) with true. cbv iota.
    change (0 * 2 ^ 0) with 0. intros H. apply Z.eqb_eq in H. lia.
  - unfold round_positive. rewrite (log2_ratio_one c G).
    assert (L0 := Z.log2_nonneg c).
    destruct (Z.log2_spec c G) as [C1 C2].
    replace (Z.max (Z.log2 c - 52) (- 1074)) with (Z.log2 c - 52) by lia.
    set (e := Z.log2 c - 52). unfold scaled.
    destruct (Z.leb_spec 0 e) as [E|E].
    + rewrite Z.mul_1_l.
      assert (P : 0 < 2 ^ e) by (apply Z.pow_pos_nonneg; lia).
      assert (M : 2 ^ 52 <= round_half_even c (2 ^ e)).
      { etransitivity; [|apply round_half_even_ge, P].
        apply Z.div_le_lower_bound; [exact P|].
        rewrite Z.mul_comm, <- Z.pow_add_r by lia.
        replace (52 + e) with (Z.log2 c) by lia. exact C1. }
      destruct (2 ^ 1024 <=? round_half_even c (2 ^ e) * 2 ^ e);
        simpl; [discriminate|].
      destruct (Z.leb_spec 0 e) as [_|]; [|lia].
      intros H. apply Z.eqb_eq in H.
      destruct (Z.eq_dec e 0) as [E0|E0].
      * rewrite E0 in *. change (2 ^ 0) with 1 in *.
        rewrite round_half_even_one in H. lia.
      * assert (2 <= 2 ^ e).
        { change 2 with (2 ^ 1) at 1. apply Z.pow_le_mono_r; lia. }
        change (2 ^ 53) with (2 ^ 52 * 2) in Hn. nia.
    + simpl andb. cbv iota. unfold has_value.
      destruct (Z.leb_spec 0 e) as [|_]; [lia|].
      rewrite round_half_even_one. intros H. apply Z.eqb_eq in H.
      assert (P : 0 < 2 ^ (- e)) by (apply Z.pow_pos_nonneg; lia).
      nia.
Qed.

Lemma candidate_reads_back (n p c : Z) :
  0 <= n -> 0 < p -> candidate n p = Some c ->
  0 <= c /\ reads_back c n = true.
Proof.
  intros Hn Hp. unfold candidate.
  assert (L : 0 <= n / p * p).
  { assert (0 <= n / p) by (apply Z.div_pos; lia). nia. }
  destruct (reads_back (n / p * p) n) eqn:E1;
    destruct (reads_back (n / p * p + p) n) eqn:E2;
    [destruct (n - n / p * p ?= n / p * p + p - n);
     [destruct (Z.even (n / p))|..]|..];
    intros [= <-]; (split; [lia|assumption]).
Qed.

Lemma shortest_from_safe (j : nat) (n : Z) :
  0 <= n < 2 ^ 53 -> shortest_from j n = n.
Proof.
  intros Hn.
  assert (K : forall i c, candidate n (10 ^ Z.of_nat i) = Some c -> c = n).
  { intros i c E.
    assert (P : 0 < 10 ^ Z.of_nat i) by (apply Z.pow_pos_nonneg; lia).
    destruct (candidate_reads_back n _ c (proj1 Hn) P E) as [C R].
    apply (reads_back_safe c n Hn C R). }
  induction j as [|j IH]; cbn [shortest_from].
  - destruct (candidate n (10 ^ Z.of_nat 0)) as [c|] eqn:E;
      [exact (K _ _ E)|reflexivity].
  - destruct (candidate n (10 ^ Z.of_nat (S j))) as [c|] eqn:E;
      [exact (K _ _ E)|exact IH].
Qed.

(** Below 2^53 a whole number is printed with all its digits. *)
Lemma toString_safe (n : Z) :
  0 <= n < 2 ^ 53 -> toString (Whole n) = decimal n.
Proof.
  intros Hn. unfold toString, toString_positive, shortest.
  destruct (Z.ltb_spec n 0) as [|_]; [lia|].
  rewrite shortest_from_safe by exact Hn.
  assert (2 ^ 53 < 10 ^ 21) by reflexivity.
  destruct (Z.ltb_spec n (10 ^ 21)) as [_|]; [reflexivity|lia].
Qed.

(** [formatTime] on a whole number of milliseconds that a binary64
    holds exactly: the arithmetic is that of the integers. *)
Lemma formatTime_safe (ms : Z) :
  0 <= ms <= max_safe_integer ->
  formatTime (Finite ms 0) =
    (decimal (ms / 1000 / 60) +:+ ":" +:+
     padStart 2 "0" (decimal (Z.rem (ms / 1000) 60)))%string.
Proof.
  unfold max_safe_integer. intros Hms.
  assert (S : 2 ^ 53 = 9007199254740992) by reflexivity.
  assert (T : 0 <= ms / 1000 < 2 ^ 53).
  { split; [apply Z.div_pos; lia|].
    apply Z.div_lt_upper_bound; lia. }
  assert (M : 0 <= ms / 1000 / 60 < 2 ^ 53).
  { split; [apply Z.div_pos; lia|].
    apply Z.div_lt_upper_bound; lia. }
  assert (R : 0 <= Z.rem (ms / 1000) 60 < 2 ^ 53).
  { assert (B := Z.rem_bound_pos (ms / 1000) 60 ltac:(lia) ltac:(lia)). lia. }
  unfold formatTime. cbv zeta.
  rewrite (floor_divide ms 1000) by lia.
  change (of_whole (Whole (ms / 1000))) with (Finite (ms / 1000) 0).
  rewrite (floor_divide (ms / 1000) 60) by lia.
  change (remainder (Whole (ms / 1000)) 60)
    with (Whole (Z.rem (ms / 1000) 60)).
  rewrite !toString_safe by assumption.
  reflexivity.
Qed.



End FmtFacts.

(** ** What [exec] leaves alone *)

Lemma run_cmd_frame (c : Cmd) (w : World) :
  lifecycle (run_cmd c w) = lifecycle w /\
  props_uri (run_cmd c w) = props_uri w /\
  sound_scope (run_cmd c w) = sound_scope w /\
  uri_scope (run_cmd c w) = uri_scope w /\
  plat (run_cmd c w) = plat w /\
  pending (run_cmd c w) = pending w /\
  next_task (run_cmd c w) = next_task w.
Proof.
  unfold run_cmd. destruct (lifecycle w) eqn:E; simpl; rewrite ?E; tauto.
Qed.

Section ExecFrame.

Variable ok : Call -> bool.

Lemma exec_lifecycle (p : Prog unit) :
  forall w, lifecycle (exec ok p w) = lifecycle w.
Proof.
  induction p as [a| |c k IH|c k IH|c k IH]; intros w; simpl; trivial.
  - rewrite IH. apply run_cmd_frame.
  - destruct (ok c); rewrite IH; reflexivity.
Qed.

Lemma exec_props_uri (p : Prog unit) :
  forall w, props_uri (exec ok p w) = props_uri w.
Proof.
  induction p as [a| |c k IH|c k IH|c k IH]; intros w; simpl; trivial.
  - rewrite IH. apply run_cmd_frame.
  - destruct (ok c); rewrite IH; reflexivity.
Qed.

Lemma exec_sound_scope (p : Prog unit) :
  forall w, sound_scope (exec ok p w) = sound_scope w.
Proof.
  induction p as [a| |c k IH|c k IH|c k IH]; intros w; simpl; trivial.
  - rewrite IH. apply run_cmd_frame.
  - destruct (ok c); rewrite IH; reflexivity.
Qed.

Lemma exec_uri_scope (p : Prog unit) :
  forall w, uri_scope (exec ok p w) = uri_scope w.
Proof.
  induction p as [a| |c k IH|c k IH|c k IH]; intros w; simpl; trivial.
  - rewrite IH. apply run_cmd_frame.
  - destruct (ok c); rewrite IH; reflexivity.
Qed.

End ExecFrame.

(** ** Programs that leave the volume listener alone *)

Lemma complete_listener (c : Call) (p : Platform) :
  quiet_call c = true ->
  volume_listener (snd (complete c p)) = volume_listener p.
Proof. destruct c; simpl; intros H; try discriminate; reflexivity. Qed.

Lemma js_or_number (v : jsval) : is_num (js_or v (JNum 0)) = true.
Proof. destruct v as [| | |n]; try reflexivity. unfold js_or. simpl.
  destruct (n =? 0); reflexivity. Qed.

Lemma run_cmd_numbers (c : Cmd) (w : World) :
  numeric_cmd c = true -> numbers w -> numbers (run_cmd c w).
Proof.
  unfold numbers, run_cmd. intros Hc [H1 H2].
  destruct (lifecycle w); simpl; try (split; assumption).
  destruct c; simpl in *; split; assumption.
Qed.

Lemma exec_tame_pending (ok : Call -> bool) (p : Prog unit) :
  tame p ->
  forall w, tame_pending w -> tame_pending (exec ok p w).
Proof.
  induction 1 as [u| |c k Hc Hk IH|c k Hc Hk IH|c k Hc Hk IH];
    intros w Hw; simpl; try assumption.
  - apply IH. destruct (run_cmd_frame c w) as (_ & _ & _ & _ & _ & Hq & _).
    intros id t. rewrite Hq. apply Hw.
  - destruct (ok c); apply IH; exact Hw.
  - intros id t. simpl. rewrite lookup_insert.
    case_decide as E.
    + intros [= <-]. split; [exact Hc|exact Hk].
    + apply Hw.
Qed.

Lemma exec_listener (ok : Call -> bool) (p : Prog unit) :
  tame p ->
  forall w, volume_listener (plat (exec ok p w)) = volume_listener (plat w).
Proof.
  induction 1 as [u| |c k Hc Hk IH|c k Hc Hk IH|c k Hc Hk IH];
    intros w; simpl; try reflexivity.
  - rewrite IH. destruct (run_cmd_frame c w) as (_ & _ & _ & _ & Hp & _).
    rewrite Hp. reflexivity.
  - destruct (ok c); rewrite IH; simpl; [|reflexivity].
    apply complete_listener, Hc.
Qed.

Lemma exec_numbers (ok : Call -> bool) (p : Prog unit) :
  tame p -> forall w, numbers w -> numbers (exec ok p w).
Proof.
  induction 1 as [u| |c k Hc Hk IH|c k Hc Hk IH|c k Hc Hk IH];
    intros w Hw; simpl; try assumption.
  - apply IH, run_cmd_numbers; assumption.
  - destruct (ok c); apply IH; exact Hw.
Qed.

Ltac tame_tac :=
  repeat first
    [ apply tame_Ret | apply tame_Throw
    | apply tame_Act; [first [reflexivity|apply js_or_number]|]
    | apply tame_Invoke; [reflexivity|intros []]
    | apply tame_Await; [reflexivity|intros []] ].

Lemma tame_initAudio : tame AudioPlayer.initAudio.
Proof. unfold AudioPlayer.initAudio. cbn. tame_tac. Qed.

Lemma tame_onPlaybackStatusUpdate sc s :
  tame (AudioPlayer.onPlaybackStatusUpdate sc s).
Proof.
  unfold AudioPlayer.onPlaybackStatusUpdate.
  destruct (isLoaded s && negb (isSeeking (st sc))); cbn; tame_tac.
Qed.

Lemma tame_loadAudio sc : tame (AudioPlayer.loadAudio sc).
Proof.
  unfold AudioPlayer.loadAudio. destruct (sound (st sc)); cbn; tame_tac.
Qed.

Lemma tame_loadEffect sc : tame (AudioPlayer.loadEffect sc).
Proof.
  unfold AudioPlayer.loadEffect.
  destruct (uri sc); [tame_tac|apply tame_loadAudio].
Qed.

Lemma tame_loadEffect_cleanup sc : tame (AudioPlayer.loadEffect_cleanup sc).
Proof.
  unfold AudioPlayer.loadEffect_cleanup.
  destruct (sound (st sc)); cbn; tame_tac.
Qed.

Lemma tame_handlePlayPause sc : tame (AudioPlayer.handlePlayPause sc).
Proof.
  unfold AudioPlayer.handlePlayPause.
  destruct (sound (st sc)); [destruct (isPlaying (st sc))|]; cbn; tame_tac.
Qed.

Lemma tame_handleSlidingStart : tame AudioPlayer.handleSlidingStart.
Proof. unfold AudioPlayer.handleSlidingStart. cbn. tame_tac. Qed.

Lemma tame_handleSlidingComplete sc v :
  tame (AudioPlayer.handleSlidingComplete sc v).
Proof.
  unfold AudioPlayer.handleSlidingComplete.
  destruct (sound (st sc)); cbn; tame_tac.
Qed.

Lemma tame_handleVolumeChange sc v :
  tame (AudioPlayer.handleVolumeChange sc v).
Proof.
  unfold AudioPlayer.handleVolumeChange.
  destruct (sound (st sc)); cbn; tame_tac.
Qed.

Lemma tame_onVolumeChange sc v : tame (AudioPlayer.onVolumeChange sc v).
Proof.
  unfold AudioPlayer.onVolumeChange.
  destruct (sound (st sc)); cbn; tame_tac.
Qed.

Create HintDb tame.

#[local] Hint Resolve tame_initAudio tame_onPlaybackStatusUpdate
  tame_loadAudio tame_loadEffect tame_loadEffect_cleanup
  tame_handlePlayPause tame_handleSlidingStart tame_handleSlidingComplete
  tame_handleVolumeChange tame_onVolumeChange : tame.

(** ** The invariants hold in every reachable world *)

Lemma exec_steady (ok : Call -> bool) (p : Prog unit) (w : World) :
  tame p -> steady w -> steady (exec ok p w).
Proof.
  intros Hp (Hq & Hl & Hn). split; [|split].
  - apply exec_tame_pending; assumption.
  - unfold listener_ok.
    rewrite exec_lifecycle, exec_sound_scope, exec_listener by assumption.
    exact Hl.
  - apply exec_numbers; assumption.
Qed.

Lemma loadEffect_ui (sc : Scope) (w : World) :
  ui (exec all_ok (AudioPlayer.loadEffect sc) w) = ui w.
Proof.
  unfold AudioPlayer.loadEffect, AudioPlayer.loadAudio.
  destruct (uri sc); [reflexivity|].
  destruct (sound (st sc)); cbn; [reflexivity|].
  unfold run_cmd. destruct (lifecycle w); reflexivity.
Qed.

Lemma loadEffect_cleanup_ui (sc : Scope) (w : World) :
  ui (exec all_ok (AudioPlayer.loadEffect_cleanup sc) w) = ui w.
Proof.
  unfold AudioPlayer.loadEffect_cleanup.
  destruct (sound (st sc)); reflexivity.
Qed.

Lemma settle_steady (id : nat) (ok : bool) (w : World) :
  steady w -> steady (settle id ok w).
Proof.
  intros (Hq & Hl & Hn). unfold settle.
  destruct (pending w !! id) as [t|] eqn:Ht;
    [|split; [|split]; assumption].
  destruct (Hq id t Ht) as [Hc Hk].
  assert (Hq' : tame_pending
                  (with_pending (delete id (pending w)) (next_task w) w)).
  { intros i t'. simpl. rewrite lookup_delete.
    case_decide; [discriminate|apply Hq]. }
  destruct ok.
  - apply exec_steady; [apply Hk|]. split; [exact Hq'|]. split; [|exact Hn].
    unfold listener_ok. simpl. rewrite complete_listener by exact Hc.
    exact Hl.
  - apply exec_steady; [apply Hk|]. split; [exact Hq'|]. split; assumption.
Qed.

Lemma mount_steady (u : string) (w : World) :
  tame_pending w -> steady (mount u w).
Proof.
  intros Hq. unfold mount.
  apply exec_steady; [apply tame_loadEffect|].
  apply exec_steady; [apply tame_initAudio|].
  split; [exact Hq|]. split.
  - intros _. reflexivity.
  - split; reflexivity.
Qed.

Lemma unmount_steady (w : World) : steady w -> steady (unmount w).
Proof.
  intros (Hq & Hl & Hn). unfold unmount. split; [|split].
  - apply (exec_tame_pending all_ok _ (tame_loadEffect_cleanup
             (uri_scope (exec all_ok AudioPlayer.volumeEffect_cleanup w)))).
    exact Hq.
  - intros H. simpl in H. discriminate.
  - unfold numbers. simpl. rewrite loadEffect_cleanup_ui. exact Hn.
Qed.

Lemma system_volume_changed_steady (v : Q) (w : World) :
  steady w -> steady (system_volume_changed v w).
Proof.
  intros Hw. unfold system_volume_changed.
  set (w1 := with_plat (snd (complete (VolumeChange v) (plat w))) w).
  assert (H1 : steady w1) by exact Hw.
  destruct (volume_listener (plat w1)); [|assumption].
  apply exec_steady; [apply tame_onVolumeChange|assumption].
Qed.

Lemma read_volume_steady (w : World) : steady w -> steady (read_volume w).
Proof.
  intros Hw. unfold read_volume.
  destruct (volume_reads (plat w)); [assumption|].
  apply exec_steady; [unfold act; tame_tac|exact Hw].
Qed.

Lemma handle_steady (e : Event) (w : World) :
  steady w -> steady (handle e w).
Proof.
  intros Hw.
  destruct e as [u|u| | | |v|v ok|v| |h s|id ok]; unfold handle.
  - destruct (lifecycle w); try assumption.
    apply mount_steady, Hw.
  - destruct (lifecycle w) eqn:L; try assumption.
    destruct Hw as (Hq & Hl & Hn). split; [exact Hq|]. split; [|exact Hn].
    unfold listener_ok. simpl. intros _. apply Hl, L.
  - destruct (lifecycle w); try assumption.
    apply unmount_steady; assumption.
  - destruct (lifecycle w); try assumption.
    apply exec_steady; auto with tame.
  - destruct (lifecycle w); try assumption.
    apply exec_steady; auto with tame.
  - destruct (lifecycle w); try assumption.
    apply exec_steady; auto with tame.
  - destruct (lifecycle w); try assumption.
    apply exec_steady; auto with tame.
  - assert (H := system_volume_changed_steady v w Hw).
    destruct (lifecycle w); exact H.
  - assert (H := read_volume_steady w Hw).
    destruct (lifecycle w); exact H.
  - assert (H : steady
                  match subscriber (plat w) !! h with
                  | Some sc =>
                      exec all_ok (AudioPlayer.onPlaybackStatusUpdate sc s) w
                  | None => w
                  end).
    { destruct (subscriber (plat w) !! h); [|assumption].
      apply exec_steady; auto with tame. }
    destruct (lifecycle w); exact H.
  - assert (H := settle_steady id ok w Hw).
    destruct (lifecycle w); exact H.
Qed.

Lemma exec_volumeEffect (sc : Scope) (w : World) :
  exec all_ok (AudioPlayer.volumeEffect sc) w =
  with_plat (snd (complete (VolumeOnChange sc) (plat w)))
            (record (Issued (VolumeOnChange sc)) w).
Proof. reflexivity. Qed.

Lemma exec_volumeEffect_cleanup (w : World) :
  exec all_ok AudioPlayer.volumeEffect_cleanup w =
  with_plat (snd (complete ListenerRemove (plat w)))
            (record (Issued ListenerRemove) w).
Proof. reflexivity. Qed.

Lemma dep_unchanged {A : Type} `{EqDecision A} (a b : A) :
  bool_decide (a <> b) = false -> a = b.
Proof.
  intros H. apply bool_decide_eq_false in H.
  destruct (decide (a = b)); [assumption|contradiction].
Qed.

Lemma rerender_ui (w : World) : ui (rerender w) = ui w.
Proof.
  unfold rerender. destruct (lifecycle w); try reflexivity.
  destruct (bool_decide (sound (st (current w)) <> sound (st (sound_scope w))));
    destruct (bool_decide (uri (current w) <> uri (uri_scope w)));
    rewrite ?loadEffect_ui, ?exec_volumeEffect, ?exec_volumeEffect_cleanup;
    simpl; rewrite ?loadEffect_cleanup_ui; reflexivity.
Qed.

Lemma rerender_lifecycle (w : World) : lifecycle (rerender w) = lifecycle w.
Proof.
  unfold rerender. destruct (lifecycle w) eqn:L; try assumption.
  destruct (bool_decide (sound (st (current w)) <> sound (st (sound_scope w))));
    destruct (bool_decide (uri (current w) <> uri (uri_scope w)));
    rewrite ?exec_lifecycle; simpl; rewrite ?exec_lifecycle; simpl;
    rewrite ?exec_lifecycle; simpl; rewrite ?exec_lifecycle; assumption.
Qed.

Lemma rerender_props_uri (w : World) : props_uri (rerender w) = props_uri w.
Proof.
  unfold rerender. destruct (lifecycle w) eqn:L; try reflexivity.
  destruct (bool_decide (sound (st (current w)) <> sound (st (sound_scope w))));
    destruct (bool_decide (uri (current w) <> uri (uri_scope w)));
    rewrite ?exec_props_uri; simpl; rewrite ?exec_props_uri; simpl;
    rewrite ?exec_props_uri; simpl; rewrite ?exec_props_uri; reflexivity.
Qed.

Lemma rerender_sync (w : World) :
  steady w -> tame_pending (rerender w) /\ in_sync (rerender w).
Proof.
  intros (Hq & Hl & _).
  assert (Hui := rerender_ui w).
  assert (Hlife := rerender_lifecycle w).
  assert (Hprops := rerender_props_uri w).
  unfold in_sync. rewrite Hui, Hlife, Hprops. clear Hui Hlife Hprops.
  unfold rerender.
  destruct (lifecycle w) eqn:L;
    try (split; [assumption|discriminate]).
  specialize (Hl L).
  destruct (bool_decide (sound (st (current w)) <> sound (st (sound_scope w))))
    eqn:Es;
    destruct (bool_decide (uri (current w) <> uri (uri_scope w))) eqn:Eu;
    try apply dep_unchanged in Es; try apply dep_unchanged in Eu.
  - split.
    + apply exec_tame_pending; [apply tame_loadEffect|].
      rewrite exec_volumeEffect.
      apply (exec_tame_pending all_ok _ (tame_loadEffect_cleanup _)).
      exact Hq.
    + intros _.
      rewrite (exec_listener all_ok _ (tame_loadEffect _)).
      rewrite !exec_sound_scope, !exec_uri_scope. simpl. auto.
  - split; [exact Hq|]. intros _. simpl. auto.
  - split.
    + apply exec_tame_pending; [apply tame_loadEffect|].
      apply (exec_tame_pending all_ok _ (tame_loadEffect_cleanup _)).
      exact Hq.
    + intros _.
      rewrite (exec_listener all_ok _ (tame_loadEffect _)).
      rewrite !exec_sound_scope, !exec_uri_scope. simpl.
      rewrite (exec_listener all_ok _ (tame_loadEffect_cleanup _)).
      rewrite !exec_sound_scope. auto.
  - split; [exact Hq|]. intros _. auto.
Qed.

Lemma in_sync_listener (w : World) : in_sync w -> listener_ok w.
Proof. intros H L. apply H, L. Qed.

Lemma step_consistent (w : World) (e : Event) :
  tame_pending w -> in_sync w -> numbers w ->
  tame_pending (step w e) /\ in_sync (step w e) /\ numbers (step w e).
Proof.
  intros Hq Hs Hn. unfold step.
  assert (H : steady (handle e w)).
  { apply handle_steady. split; [exact Hq|].
    split; [apply in_sync_listener, Hs|exact Hn]. }
  destruct (rerender_sync _ H) as [H1 H2].
  split; [exact H1|]. split; [exact H2|].
  unfold numbers. rewrite rerender_ui. apply H.
Qed.

Lemma reachable_consistent (w : World) :
  reachable w -> tame_pending w /\ in_sync w /\ numbers w.
Proof.
  induction 1 as [|w e Hw (IH1 & IH2 & IH3)].
  - split; [|split].
    + intros id t H. simpl in H. rewrite lookup_empty in H. discriminate.
    + intros H. discriminate.
    + split; reflexivity.
  - apply step_consistent; assumption.
Qed.

Lemma rerender_idle (w : World) :
  in_sync w -> rerender w = w.
Proof.
  intros Hs. unfold rerender. destruct (lifecycle w) eqn:L; try reflexivity.
  destruct (Hs L) as (H1 & H2 & _).
  rewrite (bool_decide_eq_false_2 (sound (st (current w)) <> _))
    by (simpl; intros H; apply H; symmetry; exact H1).
  rewrite (bool_decide_eq_false_2 (uri (current w) <> _))
    by (simpl; intros H; apply H; symmetry; exact H2).
  reflexivity.
Qed.

(** ** The state at mount *)

Lemma mount_ui (u : string) (w : World) : ui (mount u w) = initialUI.
Proof.
  unfold mount. rewrite loadEffect_ui. reflexivity.
Qed.

(** C9: right after mount, before any platform callback has run, no
    handle is owned, [isPlaying] is false, the duration and the position
    are 0, the volume is 1.0 and [isSeeking] is false. *)
Theorem state_at_mount :
  forall u : string,
    let w := step init (Mount u) in
    lifecycle w = Mounted /\
    sound (ui w) = None /\
    isPlaying (ui w) = false /\
    duration (ui w) = JNum 0 /\
    position (ui w) = JNum 0 /\
    volume (ui w) = 1%Q /\
    isSeeking (ui w) = false.
Proof.
  intros u w. subst w. unfold step.
  rewrite rerender_lifecycle, rerender_ui.
  change (handle (Mount u) init) with (mount u init).
  rewrite mount_ui. unfold mount.
  rewrite !exec_lifecycle. repeat split.
Qed.

(** ** Handlers in a reachable, mounted world *)

Lemma reachable_in_sync (w : World) : reachable w -> in_sync w.
Proof. intros H. apply reachable_consistent, H. Qed.

(** A mounted world, taken apart so that the handlers compute on it. *)
Ltac open_world w Hm Hs :=
  destruct w as [life u s ss us p q n tr];
  simpl in Hm; subst life;
  unfold in_sync in Hs; simpl in Hs;
  destruct (Hs eq_refl) as (?Hsnd & ?Huri & ?Hlis); clear Hs.

Ltac idle_rerender :=
  rewrite rerender_idle
    by (intros _; simpl; repeat split; congruence).

Arguments rerender : simpl never.

(** C6: the play/pause toggle does nothing when no handle is owned; with
    a handle it requests pause if [isPlaying] is true and play otherwise;
    neither the request nor its outcome changes the state cells, and a
    failure is logged. *)
Theorem playPause_toggle (w : World) (Hr : reachable w)
  (Hm : lifecycle w = Mounted) :
  let w1 := step w PressPlayPause in
  match sound (ui w) with
  | None => w1 = w
  | Some h =>
      trace w1 =
        trace w ++
          (if isPlaying (ui w)
           then Ran (ConsoleLog "Pausing audio") :: Issued (PauseAsync h) :: nil
           else Ran (ConsoleLog "Playing audio") :: Issued (PlayAsync h) :: nil)
      /\ ui w1 = ui w
      /\ (forall ok, ui (step w1 (Settle (next_task w) ok)) = ui w)
      /\ trace (step w1 (Settle (next_task w) true)) = trace w1
      /\ trace (step w1 (Settle (next_task w) false)) =
           trace w1 ++
             Ran (ConsoleError (Some "Error toggling play/pause:"%string)) :: nil
  end.
Proof.
  intros w1. subst w1.
  assert (Hs := reachable_in_sync w Hr).
  open_world w Hm Hs.
  unfold step, handle. simpl lifecycle. cbv iota.
  unfold AudioPlayer.handlePlayPause. simpl.
  destruct (sound s) as [h|] eqn:Hsound.
  - destruct (isPlaying s) eqn:Hp; cbn;
      idle_rerender; cbn; unfold settle; cbn; rewrite lookup_insert_eq; cbn;
      (split; [rewrite <- app_assoc; reflexivity|]);
      (split; [reflexivity|]);
      (split; [intros [|]; rewrite rerender_ui; reflexivity|]);
      split; idle_rerender; reflexivity.
  - idle_rerender. reflexivity.
Qed.

Lemma run_reachable (es : list Event) :
  forall w, reachable w -> reachable (run es w).
Proof.
  induction es as [|e es IH]; intros w Hw; simpl; [exact Hw|].
  apply IH, reach_step, Hw.
Qed.

Lemma playing_world_reachable : reachable playing_world.
Proof. apply run_reachable, reach_init. Qed.

Lemma playing_world_mounted : lifecycle playing_world = Mounted.
Proof. vm_compute. reflexivity. Qed.

Lemma playing_world_sound : sound (ui playing_world) = Some O.
Proof. vm_compute. reflexivity. Qed.

Lemma playPause_toggle_witness :
  reachable playing_world /\
  lifecycle playing_world = Mounted /\
  ui (step playing_world PressPlayPause) = ui playing_world.
Proof.
  split; [exact playing_world_reachable|].
  split; [exact playing_world_mounted|].
  pose proof (playPause_toggle playing_world playing_world_reachable
                playing_world_mounted) as H.
  cbv zeta in H. rewrite playing_world_sound in H.
  destruct H as (_ & H & _). exact H.
Defined.

(** C7: seek commit at [v] does nothing when no handle is owned; with a
    handle it asks the resource to jump to [v], and once that call has
    succeeded it sets the local position to [v] and then clears
    [isSeeking]. *)
Theorem seek_commit (w : World) (v : Z) (Hr : reachable w)
  (Hm : lifecycle w = Mounted) :
  let w1 := step w (SlidingComplete v) in
  match sound (ui w) with
  | None => w1 = w
  | Some h =>
      trace w1 = trace w ++ Issued (SetPositionAsync h v) :: nil
      /\ ui w1 = ui w
      /\ let w2 := step w1 (Settle (next_task w) true) in
         trace w2 =
           trace w1 ++
             Ran (SetPosition (JNum v)) :: Ran (SetIsSeeking false) :: nil
         /\ ui w2 =
              mkUI (sound (ui w)) (isPlaying (ui w)) (duration (ui w))
                   (JNum v) (volume (ui w)) false
  end.
Proof.
  intros w1. subst w1.
  assert (Hs := reachable_in_sync w Hr).
  open_world w Hm Hs.
  unfold step, handle. simpl lifecycle. cbv iota.
  unfold AudioPlayer.handleSlidingComplete. simpl.
  destruct (sound s) as [h|] eqn:Hsound; rewrite Hsnd.
  - cbn. idle_rerender. cbn. unfold settle. cbn.
    rewrite lookup_insert_eq. cbn.
    split; [reflexivity|]. split; [reflexivity|].
    idle_rerender. cbn. rewrite <- !app_assoc. rewrite Hsound.
    split; reflexivity.
  - idle_rerender. reflexivity.
Qed.

(** When the seek call fails the error is logged and the state cells,
    [isSeeking] included, stay as they were. *)
Lemma seek_commit_rejected (w : World) (v : Z) (h : Handle) :
  reachable w -> lifecycle w = Mounted -> sound (ui w) = Some h ->
  ui (step (step w (SlidingComplete v)) (Settle (next_task w) false)) = ui w /\
  trace (step (step w (SlidingComplete v)) (Settle (next_task w) false)) =
    trace w ++
      Issued (SetPositionAsync h v) ::
      Ran (ConsoleError (Some "Error seeking:"%string)) :: nil.
Proof.
  intros Hr Hm Hsound.
  assert (Hs := reachable_in_sync w Hr).
  open_world w Hm Hs. simpl in Hsound.
  unfold step, handle. simpl lifecycle. cbv iota.
  unfold AudioPlayer.handleSlidingComplete. simpl.
  rewrite Hsnd, Hsound. cbn.
  match goal with
  | |- context [settle _ _ (rerender ?x)] =>
      rewrite (rerender_idle x) by (intros _; simpl; repeat split; congruence)
  end.
  unfold settle. cbn. rewrite lookup_insert_eq. cbn. idle_rerender. cbn.
  rewrite <- !app_assoc. destruct s. split; reflexivity.
Qed.

Lemma seek_commit_witness :
  reachable playing_world /\
  lifecycle playing_world = Mounted /\
  position
    (ui (step (step playing_world (SlidingComplete 42000))
              (Settle (next_task playing_world) true))) = JNum 42000.
Proof.
  split; [exact playing_world_reachable|].
  split; [exact playing_world_mounted|].
  pose proof (seek_commit playing_world 42000 playing_world_reachable
                playing_world_mounted) as H.
  cbv zeta in H. rewrite playing_world_sound in H.
  destruct H as (_ & _ & _ & H). rewrite H. reflexivity.
Defined.

(** ** Volume commit (lines 109-121) *)

(** C3 as stated fails: with a handle owned, when
    [VolumeController.change] throws, the commit of 0.4 logs the error and
    stops; [setVolumeAsync] is not called and the level of the resource
    stays at 1. *)
Lemma volume_commit_system_failure :
  sound (ui playing_world) = Some O /\
  trace (step playing_world (VolumeSlidingComplete (4 # 10) false)) =
    trace playing_world ++
      Issued (VolumeChange (4 # 10)) ::
      Ran (ConsoleError (Some "Error changing volume:"%string)) :: nil /\
  pending (step playing_world (VolumeSlidingComplete (4 # 10) false)) =
    pending playing_world /\
  res_volume (plat (step playing_world (VolumeSlidingComplete (4 # 10) false)))
    !! O = Some 1%Q /\
  res_volume (plat (step playing_world (VolumeSlidingComplete (4 # 10) false)))
    !! O <> Some (4 # 10)%Q.
Proof.
  split; [vm_compute; reflexivity|].
  split; [vm_compute; reflexivity|].
  split; [vm_compute; reflexivity|].
  split; [vm_compute; reflexivity|].
  vm_compute. discriminate.
Qed.

(** C3, amended: the commit first sets the system output level to [v].
    If that call throws, the error is logged and nothing else is done:
    the resource is not asked.  If it returns, the system level is [v];
    with no handle the local volume becomes [v]; with a handle the
    resource is then asked to set its level to [v], and when that call
    succeeds the resource level and the local volume are [v], while when
    it fails the error is logged, the system level stays at [v] and the
    local volume is unchanged. *)
Theorem volume_commit (w : World) (v : Q) (Hr : reachable w)
  (Hm : lifecycle w = Mounted) :
  (let w1 := step w (VolumeSlidingComplete v false) in
   trace w1 =
     trace w ++
       Issued (VolumeChange v) ::
       Ran (ConsoleError (Some "Error changing volume:"%string)) :: nil
   /\ ui w1 = ui w /\ plat w1 = plat w /\ pending w1 = pending w)
  /\
  (let w1 := step w (VolumeSlidingComplete v true) in
   sys_volume (plat w1) = v /\
   match sound (ui w) with
   | None =>
       trace w1 =
         trace w ++ Issued (VolumeChange v) :: Ran (SetVolume v) :: nil
       /\ volume (ui w1) = v
   | Some h =>
       trace w1 =
         trace w ++
           Issued (VolumeChange v) :: Issued (SetVolumeAsync h v) :: nil
       /\ ui w1 = ui w
       /\ (let w2 := step w1 (Settle (next_task w) true) in
           sys_volume (plat w2) = v
           /\ res_volume (plat w2) !! h = Some v
           /\ volume (ui w2) = v
           /\ trace w2 = trace w1 ++ Ran (SetVolume v) :: nil)
       /\ (let w2 := step w1 (Settle (next_task w) false) in
           sys_volume (plat w2) = v
           /\ res_volume (plat w2) = res_volume (plat w)
           /\ ui w2 = ui w
           /\ trace w2 =
                trace w1 ++
                  Ran (ConsoleError (Some "Error changing volume:"%string))
                  :: nil)
   end).
Proof.
  assert (Hs := reachable_in_sync w Hr).
  open_world w Hm Hs.
  unfold step, handle. simpl lifecycle. cbv iota.
  unfold AudioPlayer.handleVolumeChange. simpl.
  split.
  - destruct (sound (st ss)) eqn:E; cbn; idle_rerender; cbn;
      rewrite <- !app_assoc; destruct p; repeat split.
  - destruct (sound s) as [h|] eqn:Hsound; rewrite Hsnd; cbn.
    + idle_rerender. cbn. unfold settle. cbn. rewrite lookup_insert_eq. cbn.
      split; [reflexivity|].
      split; [rewrite <- !app_assoc; reflexivity|].
      split; [reflexivity|].
      split; idle_rerender; cbn.
      * rewrite lookup_insert_eq. repeat split.
      * destruct s; repeat split.
    + idle_rerender. cbn. rewrite <- !app_assoc. repeat split.
Qed.

Lemma volume_commit_witness :
  reachable playing_world /\
  lifecycle playing_world = Mounted /\
  sys_volume (plat (step playing_world (VolumeSlidingComplete (4 # 10) true)))
    = (4 # 10)%Q.
Proof.
  split; [exact playing_world_reachable|].
  split; [exact playing_world_mounted|].
  destruct (volume_commit playing_world (4 # 10) playing_world_reachable
              playing_world_mounted) as (_ & H & _).
  exact H.
Defined.

(** ** System volume bridge (lines 124-135) *)

Lemma bridge_notify (w : World) (v : Q) (Hr : reachable w)
  (Hm : lifecycle w = Mounted) :
  lifecycle (step w (SystemVolumeChanged v)) = Mounted /\
  volume (ui (step w (SystemVolumeChanged v))) = v /\
  sound (ui (step w (SystemVolumeChanged v))) = sound (ui w) /\
  match sound (ui w) with
  | None =>
      trace (step w (SystemVolumeChanged v)) =
        trace w ++ Ran (SetVolume v) :: nil
  | Some h =>
      trace (step w (SystemVolumeChanged v)) =
        trace w ++ Ran (SetVolume v) :: Issued (SetVolumeAsync h v) :: nil
      /\ pending (step w (SystemVolumeChanged v)) !! next_task w =
           Some (mkTask (SetVolumeAsync h v) AudioPlayer.catch_console_error)
  end.
Proof.
  assert (Hs := reachable_in_sync w Hr).
  open_world w Hm Hs.
  unfold step, handle. simpl lifecycle. cbv iota.
  destruct p as [ld nh sub rv sv vl vr]. simpl in Hlis. subst vl.
  unfold system_volume_changed, AudioPlayer.onVolumeChange. simpl.
  destruct (sound s) as [h|] eqn:Hsound; rewrite Hsnd; cbn;
    idle_rerender; cbn; rewrite <- ?app_assoc, ?lookup_insert_eq;
    rewrite ?Hsound; repeat split.
Qed.

Lemma bridge_settle (w : World) (id : nat) (h : Handle) (v : Q) (ok : bool)
  (Hr : reachable w) (Hm : lifecycle w = Mounted) :
  pending w !! id =
    Some (mkTask (SetVolumeAsync h v) AudioPlayer.catch_console_error) ->
  lifecycle (step w (Settle id ok)) = Mounted /\
  ui (step w (Settle id ok)) = ui w /\
  volume_listener (plat (step w (Settle id ok))) = volume_listener (plat w) /\
  if ok
  then res_volume (plat (step w (Settle id ok))) !! h = Some v
       /\ trace (step w (Settle id ok)) = trace w
  else plat (step w (Settle id ok)) = plat w
       /\ trace (step w (Settle id ok)) = trace w ++ Ran (ConsoleError None) :: nil.
Proof.
  intros Hp.
  assert (Hs := reachable_in_sync w Hr).
  open_world w Hm Hs. simpl in Hp.
  unfold step, handle. simpl lifecycle. cbv iota.
  unfold settle. simpl pending. rewrite Hp.
  destruct ok; cbn; idle_rerender; cbn.
  - rewrite lookup_insert_eq. repeat split.
  - destruct s. repeat split.
Qed.

(** C8: on an external volume change to [v] the listener sets the local
    volume to [v] and, when a sound is owned, asks it to set its level to
    [v].  When that request fails the error is logged, the listener stays
    subscribed, and a later change to [v'] is handled the same way. *)
Theorem volume_bridge (w : World) (v v' : Q) (Hr : reachable w)
  (Hm : lifecycle w = Mounted) :
  let w1 := step w (SystemVolumeChanged v) in
  volume (ui w1) = v /\
  match sound (ui w) with
  | None => trace w1 = trace w ++ Ran (SetVolume v) :: nil
  | Some h =>
      trace w1 =
        trace w ++ Ran (SetVolume v) :: Issued (SetVolumeAsync h v) :: nil
      /\ res_volume (plat (step w1 (Settle (next_task w) true))) !! h = Some v
      /\ let w2 := step w1 (Settle (next_task w) false) in
         trace w2 = trace w1 ++ Ran (ConsoleError None) :: nil
         /\ lifecycle w2 = Mounted
         /\ volume_listener (plat w2) = volume_listener (plat w1)
         /\ is_Some (volume_listener (plat w2))
         /\ volume (ui (step w2 (SystemVolumeChanged v'))) = v'
         /\ trace (step w2 (SystemVolumeChanged v')) =
              trace w2 ++
                Ran (SetVolume v') :: Issued (SetVolumeAsync h v') :: nil
  end.
Proof.
  intros w1.
  destruct (bridge_notify w v Hr Hm) as (Hm1 & Hv1 & Hs1 & H1).
  assert (Hr1 : reachable w1) by apply reach_step, Hr.
  fold w1 in Hm1, Hv1, Hs1, H1.
  split; [exact Hv1|].
  destruct (sound (ui w)) as [h|] eqn:Hsound; [|exact H1].
  destruct H1 as [Ht1 Hp1].
  split; [exact Ht1|].
  split; [apply (bridge_settle w1 _ h v true Hr1 Hm1 Hp1)|].
  intros w2.
  destruct (bridge_settle w1 _ h v false Hr1 Hm1 Hp1)
    as (Hm2 & Hu2 & Hl2 & Hplat2 & Ht2).
  assert (Hr2 : reachable w2) by apply reach_step, Hr1.
  fold w2 in Hm2, Hu2, Hl2, Hplat2, Ht2.
  destruct (bridge_notify w2 v' Hr2 Hm2) as (_ & Hv3 & _ & H3).
  rewrite Hu2, Hs1 in H3.
  split; [exact Ht2|]. split; [exact Hm2|]. split; [exact Hl2|].
  split.
  - destruct (reachable_in_sync w2 Hr2 Hm2) as (_ & _ & Hl).
    rewrite Hl. eexists. reflexivity.
  - split; [exact Hv3|]. apply H3.
Qed.

Lemma volume_bridge_witness :
  reachable playing_world /\
  lifecycle playing_world = Mounted /\
  volume (ui (step playing_world (SystemVolumeChanged (7 # 10)))) = (7 # 10)%Q.
Proof.
  split; [exact playing_world_reachable|].
  split; [exact playing_world_mounted|].
  destruct (volume_bridge playing_world (7 # 10) (3 # 10)
              playing_world_reachable playing_world_mounted) as (H & _).
  exact H.
Defined.

(** ** Status subscriber (lines 65-72) *)

(** What a delivery does: the guard reads [isSeeking] in the scope the
    subscriber closes over. *)
Lemma status_delivery (w : World) (h : Handle) (sc : Scope)
  (s : PlaybackStatus) :
  lifecycle w = Mounted ->
  subscriber (plat w) !! h = Some sc ->
  ui (step w (StatusDelivered h s)) =
    if isLoaded s && negb (isSeeking (st sc))
    then mkUI (sound (ui w)) (status_isPlaying s)
              (js_or (durationMillis s) (JNum 0))
              (js_or (positionMillis s) (JNum 0))
              (volume (ui w)) (isSeeking (ui w))
    else ui w.
Proof.
  intros Hm Hsub. unfold step. rewrite rerender_ui.
  unfold handle. rewrite Hsub.
  unfold AudioPlayer.onPlaybackStatusUpdate.
  destruct w as [life u0 s0 ss us p q n tr]. simpl in Hm. subst life.
  destruct (isLoaded s && negb (isSeeking (st sc))); reflexivity.
Qed.

(** When the guard fails the delivery changes nothing at all: the status
    is dropped, not kept for later. *)
Lemma status_dropped (w : World) (h : Handle) (sc : Scope)
  (s : PlaybackStatus) :
  reachable w ->
  subscriber (plat w) !! h = Some sc ->
  isLoaded s && negb (isSeeking (st sc)) = false ->
  step w (StatusDelivered h s) = w.
Proof.
  intros Hr Hsub Hg. unfold step.
  assert (Hh : handle (StatusDelivered h s) w = w).
  { unfold handle. rewrite Hsub.
    unfold AudioPlayer.onPlaybackStatusUpdate. rewrite Hg.
    destruct (lifecycle w); reflexivity. }
  rewrite Hh. apply rerender_idle, reachable_in_sync, Hr.
Qed.

Lemma is_num_number (v : jsval) : is_num v = true -> is_number v.
Proof. destruct v; try discriminate. intros _. eexists. reflexivity. Qed.

(** C10: in every reachable state the duration and the position are
    numbers; when a status is applied, each of the two is the raw field
    or, if that field is [undefined], [null] or 0 (any falsy value), the
    number 0. *)
Theorem status_fields_coalesced (w : World) (Hr : reachable w) :
  is_number (duration (ui w)) /\
  is_number (position (ui w)) /\
  js_or JUndefined (JNum 0) = JNum 0 /\
  js_or JNull (JNum 0) = JNum 0 /\
  js_or (JNum 0) (JNum 0) = JNum 0 /\
  forall h sc s,
    lifecycle w = Mounted ->
    subscriber (plat w) !! h = Some sc ->
    isLoaded s && negb (isSeeking (st sc)) = true ->
    let w1 := step w (StatusDelivered h s) in
    duration (ui w1) = js_or (durationMillis s) (JNum 0) /\
    position (ui w1) = js_or (positionMillis s) (JNum 0) /\
    (truthy (durationMillis s) = false -> duration (ui w1) = JNum 0) /\
    (truthy (positionMillis s) = false -> position (ui w1) = JNum 0).
Proof.
  destruct (reachable_consistent w Hr) as (_ & _ & Hn1 & Hn2).
  split; [apply is_num_number, Hn1|].
  split; [apply is_num_number, Hn2|].
  repeat (split; [reflexivity|]).
  intros h sc s Hm Hsub Hg w1. subst w1.
  rewrite (status_delivery w h sc s Hm Hsub), Hg. simpl.
  repeat split; unfold js_or; intros ->; reflexivity.
Qed.

Lemma playing_world_subscriber :
  subscriber (plat playing_world) !! O = Some (mkScope "a.mp3" initialUI).
Proof. vm_compute. reflexivity. Qed.

Lemma status_fields_coalesced_witness :
  reachable playing_world /\
  lifecycle playing_world = Mounted /\
  duration
    (ui (step playing_world
           (StatusDelivered O (mkStatus true JUndefined (JNum 12) true))))
    = JNum 0.
Proof.
  split; [exact playing_world_reachable|].
  split; [exact playing_world_mounted|].
  destruct (status_fields_coalesced playing_world playing_world_reachable)
    as (_ & _ & _ & _ & _ & H).
  destruct (H O (mkScope "a.mp3" initialUI)
              (mkStatus true JUndefined (JNum 12) true)
              playing_world_mounted playing_world_subscriber eq_refl)
    as (_ & _ & H3 & _).
  apply H3. reflexivity.
Defined.

(** C1 fails on the code.  The subscriber attached to a sound is the
    closure of the render that loaded it; its guard reads the [isSeeking]
    of that render.  After the user starts dragging, [isSeeking] is true,
    yet a delivered status still overwrites the duration, the position
    and the playing flag. *)
Theorem status_applied_while_seeking :
  reachable dragging_world /\
  isSeeking (ui dragging_world) = true /\
  position (ui dragging_world) = JNum 0 /\
  isPlaying (ui dragging_world) = false /\
  subscriber (plat dragging_world) !! O = Some (mkScope "a.mp3" initialUI) /\
  ui (step dragging_world (StatusDelivered O status_at_500)) =
    mkUI (Some O) true (JNum 1000) (JNum 500) 1%Q true.
Proof.
  split; [apply run_reachable, reach_init|].
  do 4 (split; [vm_compute; reflexivity|]).
  vm_compute. reflexivity.
Qed.

(** ** Source loader (lines 42-62 and 155-162) *)

(** C2 fails on the code.  When the locator changes while the first load
    is in flight, the second [loadAudio] still sees no sound and unloads
    nothing; once both loads have succeeded two handles are loaded, no
    unload was ever requested, and unmounting requests none either. *)
Theorem two_handles_loaded :
  reachable overlapping_loads /\
  loaded (plat overlapping_loads) = {[ 0%nat; 1%nat ]} /\
  size (loaded (plat overlapping_loads)) = 2%nat /\
  sound (ui overlapping_loads) = Some 1%nat /\
  unloads (trace (step overlapping_loads Unmount)) = nil /\
  loaded (plat (step overlapping_loads Unmount)) = {[ 0%nat; 1%nat ]}.
Proof.
  split; [apply run_reachable, reach_init|].
  do 4 (split; [vm_compute; reflexivity|]).
  vm_compute. reflexivity.
Qed.

(** ** The loader when loads do not overlap *)

Lemma grows_refl (w : World) : grows w w.
Proof.
  constructor; try reflexivity; try lia.
  intros id t H. left. exact H.
Qed.

Lemma grows_trans (a b c : World) : grows a b -> grows b c -> grows a c.
Proof.
  intros [L1 S1 D1 N1 P1 O1] [L2 S2 D2 N2 P2 O2]. constructor.
  - congruence.
  - congruence.
  - set_solver.
  - lia.
  - intros id t H. destruct (P2 id t H) as [H'|(Hle & Hlt & Hi)].
    + destruct (P1 id t H') as [H''|(Hle & Hlt & Hi)]; [left; exact H''|].
      right. split; [lia|]. split; [lia|exact Hi].
    + right. split; [lia|]. split; [lia|exact Hi].
  - intros id Hid. rewrite O2 by lia. apply O1, Hid.
Qed.

Lemma complete_loaded (c : Call) (p : Platform) :
  inert_call c = true -> loaded (snd (complete c p)) ⊆ loaded p.
Proof.
  destruct c; simpl; try discriminate; intros _;
    first [reflexivity|apply subseteq_difference_l; reflexivity].
Qed.

Lemma run_cmd_grows (c : Cmd) (w : World) :
  inert_cmd c = true -> grows w (run_cmd c w).
Proof.
  intros Hc. unfold run_cmd.
  destruct (lifecycle w) eqn:L; constructor; simpl;
    try reflexivity; try lia; try exact L; try (intros; left; assumption).
  destruct c; simpl in *; try discriminate; reflexivity.
Qed.

Lemma exec_inert (ok : Call -> bool) (p : Prog unit) :
  inert p -> forall w, grows w (exec ok p w).
Proof.
  induction 1 as [u| |c k Hc Hk IH|c k Hc Hk IH|c k Hc Hk IH];
    intros w; simpl.
  - apply grows_refl.
  - apply grows_refl.
  - eapply grows_trans; [apply run_cmd_grows, Hc|apply IH].
  - destruct (ok c).
    + eapply grows_trans; [|apply IH].
      constructor; simpl; try reflexivity; try lia;
        try (intros; left; assumption).
      apply complete_loaded, Hc.
    + eapply grows_trans; [|apply IH].
      constructor; simpl; try reflexivity; try lia;
        intros; left; assumption.
  - constructor; simpl; try reflexivity; try lia.
    + intros id t. rewrite lookup_insert. case_decide as E.
      * intros [= <-]. right. subst id.
        split; [lia|]. split; [lia|]. split; [exact Hc|exact Hk].
      * intros H. left. exact H.
    + intros id Hid. apply lookup_insert_ne. lia.
Qed.

Lemma owned_sound (s s' : UIState) : sound s' = sound s -> owned s' = owned s.
Proof. unfold owned. intros ->. reflexivity. Qed.

Lemma grows_bounded (w w' : World) : grows w w' -> bounded w -> bounded w'.
Proof.
  intros [L S D N P O] Hb id t H.
  destruct (P id t H) as [H'|(_ & Hlt & _)]; [|exact Hlt].
  specialize (Hb id t H'). lia.
Qed.

Lemma grows_loader (w w' : World) :
  grows w w' -> bounded w -> loader w -> loader w'.
Proof.
  intros [L S D N P O] Hb Hl.
  destruct Hl as [Hi Hs|id X t Ht Hu Hi Hm Hx Hs|id t Ht Hc Hi Hm Hs].
  - apply loader_idle.
    + intros id t H. destruct (P id t H) as [H'|(_ & _ & H')];
        [exact (Hi id t H')|exact H'].
    + rewrite (owned_sound _ _ S). set_solver.
  - apply (loader_unloading w' id X t).
    + rewrite O; [exact Ht|]. apply (Hb id t Ht).
    + exact Hu.
    + intros id' t' Hne H. destruct (P id' t' H) as [H'|(_ & _ & H')];
        [exact (Hi id' t' Hne H')|exact H'].
    + congruence.
    + congruence.
    + set_solver.
  - apply (loader_creating w' id t).
    + rewrite O; [exact Ht|]. apply (Hb id t Ht).
    + exact Hc.
    + intros id' t' Hne H. destruct (P id' t' H) as [H'|(_ & _ & H')];
        [exact (Hi id' t' Hne H')|exact H'].
    + congruence.
    + set_solver.
Qed.

Lemma loader_one_sound (w : World) :
  loader w -> (size (loaded (plat w)) <= 1)%nat.
Proof.
  intros [Hi Hs|id X t Ht Hu Hi Hm Hx Hs|id t Ht Hc Hi Hm Hs].
  - apply subseteq_size in Hs. unfold owned in Hs.
    destruct (sound (ui w)).
    + rewrite size_singleton in Hs. exact Hs.
    + rewrite size_empty in Hs. lia.
  - apply subseteq_size in Hs. rewrite size_singleton in Hs. exact Hs.
  - rewrite Hs, size_empty. lia.
Qed.

Ltac inert_tac :=
  repeat first
    [ apply inert_Ret | apply inert_Throw
    | apply inert_Act; [reflexivity|]
    | apply inert_Invoke; [reflexivity|intros []]
    | apply inert_Await; [reflexivity|intros []] ].

Lemma inert_initAudio : inert AudioPlayer.initAudio.
Proof. unfold AudioPlayer.initAudio. cbn. inert_tac. Qed.

Lemma inert_onPlaybackStatusUpdate sc s :
  inert (AudioPlayer.onPlaybackStatusUpdate sc s).
Proof.
  unfold AudioPlayer.onPlaybackStatusUpdate.
  destruct (isLoaded s && negb (isSeeking (st sc))); cbn; inert_tac.
Qed.

Lemma inert_loadEffect_cleanup sc : inert (AudioPlayer.loadEffect_cleanup sc).
Proof.
  unfold AudioPlayer.loadEffect_cleanup.
  destruct (sound (st sc)); cbn; inert_tac.
Qed.

Lemma inert_volumeEffect sc : inert (AudioPlayer.volumeEffect sc).
Proof. unfold AudioPlayer.volumeEffect. cbn. inert_tac. Qed.

Lemma inert_volumeEffect_cleanup : inert AudioPlayer.volumeEffect_cleanup.
Proof. unfold AudioPlayer.volumeEffect_cleanup. cbn. inert_tac. Qed.

Lemma inert_handlePlayPause sc : inert (AudioPlayer.handlePlayPause sc).
Proof.
  unfold AudioPlayer.handlePlayPause.
  destruct (sound (st sc)); [destruct (isPlaying (st sc))|]; cbn; inert_tac.
Qed.

Lemma inert_handleSlidingStart : inert AudioPlayer.handleSlidingStart.
Proof. unfold AudioPlayer.handleSlidingStart. cbn. inert_tac. Qed.

Lemma inert_handleSlidingComplete sc v :
  inert (AudioPlayer.handleSlidingComplete sc v).
Proof.
  unfold AudioPlayer.handleSlidingComplete.
  destruct (sound (st sc)); cbn; inert_tac.
Qed.

Lemma inert_handleVolumeChange sc v :
  inert (AudioPlayer.handleVolumeChange sc v).
Proof.
  unfold AudioPlayer.handleVolumeChange.
  destruct (sound (st sc)); cbn; inert_tac.
Qed.

Lemma inert_onVolumeChange sc v : inert (AudioPlayer.onVolumeChange sc v).
Proof.
  unfold AudioPlayer.onVolumeChange.
  destruct (sound (st sc)); cbn; inert_tac.
Qed.

(** The two shapes of [loadAudio]. *)
Lemma loadAudio_unloading (sc : Scope) (X : Handle) :
  sound (st sc) = Some X ->
  exists k, AudioPlayer.loadAudio sc = Await (UnloadAsync X) k /\
            unloading X (mkTask (UnloadAsync X) k).
Proof.
  intros H. unfold AudioPlayer.loadAudio. rewrite H. cbn.
  eexists. split; [reflexivity|].
  constructor; cbn.
  - inert_tac.
  - apply starts_Act; [reflexivity|]. apply starts_Await.
    constructor; cbn.
    + inert_tac.
    + intros h. apply adopts_Act; [reflexivity|]. apply adopts_Set.
      inert_tac.
Qed.

Lemma loadAudio_creating (sc : Scope) :
  sound (st sc) = None -> starts_create (AudioPlayer.loadAudio sc).
Proof.
  intros H. unfold AudioPlayer.loadAudio. rewrite H. cbn.
  apply starts_Act; [reflexivity|]. apply starts_Await.
  constructor; cbn.
  - inert_tac.
  - intros h. apply adopts_Act; [reflexivity|]. apply adopts_Set.
    inert_tac.
Qed.

Lemma starts_create_not_inert (p : Prog unit) :
  starts_create p -> inert p -> False.
Proof.
  induction 1 as [c k Hc Hk IH|u sc k Hk]; intros Hi.
  - apply IH. inversion Hi; assumption.
  - inversion Hi as [| | | |c' k' Hc' Hk' Heq]. simpl in Hc'. discriminate.
Qed.

Lemma unloading_not_inert (X : Handle) (t : Task) :
  unloading X t -> inert_task t -> False.
Proof.
  intros [k Hr Hs] [_ Hi]. apply (starts_create_not_inert _ Hs), Hi.
Qed.

Lemma creating_not_inert (t : Task) : creating t -> inert_task t -> False.
Proof. intros [u sc k Hr Ha] [Hc _]. simpl in Hc. discriminate. Qed.

(** An idle loader is one with no load in flight. *)
Lemma loader_idle_inv (w : World) :
  loader w -> no_load_in_flight w -> loaded (plat w) ⊆ owned (ui w).
Proof.
  intros [Hi Hs|id X t Ht Hu Hi Hm Hx Hs|id t Ht Hc Hi Hm Hs] Hn.
  - exact Hs.
  - destruct (unloading_not_inert X t Hu (Hn id t Ht)).
  - destruct (creating_not_inert t Hc (Hn id t Ht)).
Qed.

Lemma grows_idle (w w' : World) :
  grows w w' -> no_load_in_flight w -> no_load_in_flight w'.
Proof.
  intros [L S D N P O] Hi id t H.
  destruct (P id t H) as [H'|(_ & _ & H')]; [exact (Hi id t H')|exact H'].
Qed.

Lemma exec_starts_create (ok : Call -> bool) (p : Prog unit) :
  starts_create p ->
  forall w,
    lifecycle w = Mounted -> bounded w -> no_load_in_flight w ->
    loaded (plat w) = ∅ ->
    loader (exec ok p w) /\ bounded (exec ok p w).
Proof.
  induction 1 as [c k Hc Hk IH|u sc k Hk]; intros w Hm Hb Hi He; simpl.
  - assert (G := run_cmd_grows c w Hc).
    apply IH.
    + rewrite (grows_lifecycle _ _ G). exact Hm.
    + exact (grows_bounded _ _ G Hb).
    + exact (grows_idle _ _ G Hi).
    + assert (D := grows_loaded _ _ G). rewrite He in D.
      apply leibniz_equiv, equiv_empty. exact D.
  - split.
    + apply (loader_creating _ (next_task w) (mkTask (CreateAsync u sc) k)).
      * simpl. apply lookup_insert_eq.
      * exact Hk.
      * intros id' t' Hne. simpl. rewrite lookup_insert_ne by congruence.
        apply Hi.
      * exact Hm.
      * exact He.
    + intros id t. simpl. rewrite lookup_insert. case_decide as E.
      * intros _. lia.
      * intros H. specialize (Hb id t H). lia.
Qed.

Lemma exec_adopts (ok : Call -> bool) (h : Handle) (p : Prog unit) :
  adopts h p ->
  forall w,
    lifecycle w = Mounted -> bounded w -> no_load_in_flight w ->
    loaded (plat w) ⊆ {[ h ]} ->
    loader (exec ok p w) /\ bounded (exec ok p w).
Proof.
  induction 1 as [c k Hc Hk IH|k Hk]; intros w Hm Hb Hi He; simpl.
  - assert (G := run_cmd_grows c w Hc).
    apply IH.
    + rewrite (grows_lifecycle _ _ G). exact Hm.
    + exact (grows_bounded _ _ G Hb).
    + exact (grows_idle _ _ G Hi).
    + exact (transitivity (grows_loaded _ _ G) He).
  - assert (G := exec_inert ok k Hk (run_cmd (SetSound h) w)).
    assert (L1 : loader (run_cmd (SetSound h) w)).
    { apply loader_idle.
      - intros id t. unfold run_cmd. rewrite Hm. simpl. apply Hi.
      - unfold run_cmd. rewrite Hm. simpl. exact He. }
    assert (B1 : bounded (run_cmd (SetSound h) w)).
    { intros id t. unfold run_cmd. rewrite Hm. simpl. apply Hb. }
    split; [exact (grows_loader _ _ G B1 L1)|exact (grows_bounded _ _ G B1)].
Qed.

Lemma with_plat_loader (p' : Platform) (w : World) :
  loaded p' ⊆ loaded (plat w) -> loader w -> loader (with_plat p' w).
Proof.
  intros Hp [Hi Hs|id X t Ht Hu Hi Hm Hx Hs|id t Ht Hc Hi Hm Hs].
  - apply loader_idle; [exact Hi|]. exact (transitivity Hp Hs).
  - apply (loader_unloading _ id X t); try assumption.
    exact (transitivity Hp Hs).
  - apply (loader_creating _ id t); try assumption.
    simpl. rewrite Hs in Hp. apply leibniz_equiv, equiv_empty. exact Hp.
Qed.

Lemma settled_bounded (id : nat) (w : World) :
  bounded w -> bounded (settled id w).
Proof.
  intros Hb i t. simpl. rewrite lookup_delete.
  case_decide; [discriminate|apply Hb].
Qed.

Lemma settled_idle (id : nat) (w : World) :
  (forall id' t', id' <> id -> pending w !! id' = Some t' -> inert_task t') ->
  no_load_in_flight (settled id w).
Proof.
  intros Hi i t. simpl. rewrite lookup_delete.
  case_decide as E; [discriminate|]. apply Hi. congruence.
Qed.

Lemma settled_loader (id : nat) (t : Task) (w : World) :
  pending w !! id = Some t -> inert_task t ->
  loader w -> loader (settled id w).
Proof.
  intros Ht Hit [Hi Hs|id0 X t0 Ht0 Hu Hi Hm Hx Hs|id0 t0 Ht0 Hc Hi Hm Hs].
  - apply loader_idle; [|exact Hs].
    apply settled_idle. intros id' t' _. apply Hi.
  - assert (Hne : id0 <> id).
    { intros ->. rewrite Ht in Ht0. injection Ht0 as <-.
      exact (unloading_not_inert X t Hu Hit). }
    apply (loader_unloading _ id0 X t0); try assumption.
    + simpl. rewrite lookup_delete_ne by congruence. exact Ht0.
    + intros id' t' Hn. simpl. rewrite lookup_delete.
      case_decide; [discriminate|]. apply Hi, Hn.
  - assert (Hne : id0 <> id).
    { intros ->. rewrite Ht in Ht0. injection Ht0 as <-.
      exact (creating_not_inert t Hc Hit). }
    apply (loader_creating _ id0 t0); try assumption.
    + simpl. rewrite lookup_delete_ne by congruence. exact Ht0.
    + intros id' t' Hn. simpl. rewrite lookup_delete.
      case_decide; [discriminate|]. apply Hi, Hn.
Qed.

Lemma settle_unfold (id : nat) (ok : bool) (t : Task) (w : World) :
  pending w !! id = Some t ->
  settle id ok w =
    if ok
    then exec all_ok
           (resume t (Resolved (fst (complete (awaited t) (plat w)))))
           (with_plat (snd (complete (awaited t) (plat w))) (settled id w))
    else exec all_ok (resume t Rejected) (settled id w).
Proof. intros H. unfold settle. rewrite H. reflexivity. Qed.

Lemma settle_inert_loader (id : nat) (ok : bool) (t : Task) (w : World) :
  pending w !! id = Some t -> inert_task t ->
  loader w -> bounded w ->
  loader (settle id ok w) /\ bounded (settle id ok w).
Proof.
  intros Ht Hit Hl Hb. rewrite (settle_unfold id ok t w Ht).
  assert (L1 := settled_loader id t w Ht Hit Hl).
  assert (B1 := settled_bounded id w Hb).
  destruct Hit as [Hc Hk].
  destruct ok.
  - set (w2 := with_plat (snd (complete (awaited t) (plat w))) (settled id w)).
    assert (L2 : loader w2).
    { apply with_plat_loader; [|exact L1]. apply complete_loaded, Hc. }
    assert (G := exec_inert all_ok _
                   (Hk (Resolved (fst (complete (awaited t) (plat w))))) w2).
    split; [exact (grows_loader _ _ G B1 L2)|exact (grows_bounded _ _ G B1)].
  - assert (G := exec_inert all_ok _ (Hk Rejected) (settled id w)).
    split; [exact (grows_loader _ _ G B1 L1)|exact (grows_bounded _ _ G B1)].
Qed.

Lemma settle_loader (id : nat) (ok : bool) (w : World) :
  loader w -> bounded w ->
  loader (settle id ok w) /\ bounded (settle id ok w).
Proof.
  intros Hl Hb.
  destruct (pending w !! id) as [t|] eqn:Ht;
    [|unfold settle; rewrite Ht; split; assumption].
  destruct Hl as [Hi Hs|id0 X t0 Ht0 Hu Hi Hm Hx Hs|id0 t0 Ht0 Hc Hi Hm Hs].
  - apply (settle_inert_loader id ok t w Ht (Hi id t Ht));
      [apply loader_idle|]; assumption.
  - destruct (decide (id = id0)) as [->|Hne].
    + rewrite Ht0 in Ht. injection Ht as <-.
      rewrite (settle_unfold id0 ok _ w Ht0).
      assert (B1 := settled_bounded id0 w Hb).
      assert (I1 := settled_idle id0 w Hi).
      destruct Hu as [k Hr Hst]. simpl. destruct ok.
      * apply exec_starts_create; try assumption.
        simpl. apply leibniz_equiv, equiv_empty.
        intros x Hx'. apply elem_of_difference in Hx' as [H1 H2].
        destruct (H2 (Hs _ H1)).
      * assert (G := exec_inert all_ok _ Hr (settled id0 w)).
        assert (L1 : loader (settled id0 w)).
        { apply loader_idle; [exact I1|]. simpl. unfold owned.
          rewrite Hx. exact Hs. }
        split; [exact (grows_loader _ _ G B1 L1)
               |exact (grows_bounded _ _ G B1)].
    + apply (settle_inert_loader id ok t w Ht (Hi id t Hne Ht));
        [apply (loader_unloading _ id0 X t0)|]; assumption.
  - destruct (decide (id = id0)) as [->|Hne].
    + rewrite Ht0 in Ht. injection Ht as <-.
      rewrite (settle_unfold id0 ok _ w Ht0).
      assert (B1 := settled_bounded id0 w Hb).
      assert (I1 := settled_idle id0 w Hi).
      destruct Hc as [u sc k Hr Ha]. simpl. destruct ok.
      * apply (exec_adopts all_ok (next_handle (plat w)));
          try assumption; [apply Ha|].
        simpl. rewrite Hs.
        intros x Hx'. apply elem_of_union in Hx' as [H1|H1];
          [destruct (not_elem_of_empty _ H1)|exact H1].
      * assert (G := exec_inert all_ok _ Hr (settled id0 w)).
        assert (L1 : loader (settled id0 w)).
        { apply loader_idle; [exact I1|]. simpl. rewrite Hs.
          apply empty_subseteq. }
        split; [exact (grows_loader _ _ G B1 L1)
               |exact (grows_bounded _ _ G B1)].
    + apply (settle_inert_loader id ok t w Ht (Hi id t Hne Ht));
        [apply (loader_creating _ id0 t0)|]; assumption.
Qed.

Lemma system_volume_changed_grows (v : Q) (w : World) :
  grows w (system_volume_changed v w).
Proof.
  unfold system_volume_changed.
  set (w1 := with_plat (snd (complete (VolumeChange v) (plat w))) w).
  assert (G1 : grows w w1).
  { constructor; simpl; try reflexivity; try lia.
    intros; left; assumption. }
  destruct (volume_listener (plat w1)); [|exact G1].
  eapply grows_trans; [exact G1|].
  apply exec_inert, inert_onVolumeChange.
Qed.

Lemma read_volume_grows (w : World) : grows w (read_volume w).
Proof.
  unfold read_volume. destruct (volume_reads (plat w)); [apply grows_refl|].
  eapply grows_trans; [|apply exec_inert; unfold act; inert_tac].
  constructor; simpl; try reflexivity; try lia.
  intros; left; assumption.
Qed.

(** Every event other than mount, unmount, a locator change and the
    settling of a promise leaves the loader alone. *)
Lemma handle_grows (e : Event) (w : World) :
  match e with
  | Mount _ | ChangeUri _ | Unmount | Settle _ _ => True
  | _ => grows w (handle e w)
  end.
Proof.
  destruct e as [u|u| | | |v|v ok|v| |h s|id ok]; try exact I; unfold handle.
  - destruct (lifecycle w); try apply grows_refl.
    apply exec_inert, inert_handlePlayPause.
  - destruct (lifecycle w); try apply grows_refl.
    apply exec_inert, inert_handleSlidingStart.
  - destruct (lifecycle w); try apply grows_refl.
    apply exec_inert, inert_handleSlidingComplete.
  - destruct (lifecycle w); try apply grows_refl.
    apply exec_inert, inert_handleVolumeChange.
  - assert (H := system_volume_changed_grows v w).
    destruct (lifecycle w); exact H.
  - assert (H := read_volume_grows w).
    destruct (lifecycle w); exact H.
  - assert (H : grows w
                  match subscriber (plat w) !! h with
                  | Some sc =>
                      exec all_ok (AudioPlayer.onPlaybackStatusUpdate sc s) w
                  | None => w
                  end).
    { destruct (subscriber (plat w) !! h); [|apply grows_refl].
      apply exec_inert, inert_onPlaybackStatusUpdate. }
    destruct (lifecycle w); exact H.
Qed.

Lemma with_sound_scope_grows (sc : Scope) (w : World) :
  grows w (with_sound_scope sc w).
Proof.
  constructor; simpl; try reflexivity; try lia. intros; left; assumption.
Qed.

(** A render in which the locator is unchanged starts no load. *)
Lemma rerender_grows (w : World) :
  (lifecycle w = Mounted -> uri (uri_scope w) = props_uri w) ->
  grows w (rerender w).
Proof.
  intros Hu. unfold rerender.
  destruct (lifecycle w) eqn:L; try apply grows_refl.
  rewrite (bool_decide_eq_false_2 (uri (current w) <> _))
    by (simpl; intros H; apply H; symmetry; apply Hu; reflexivity).
  destruct (bool_decide (sound (st (current w)) <> sound (st (sound_scope w))));
    [|apply grows_refl].
  eapply grows_trans; [apply exec_inert, inert_volumeEffect_cleanup|].
  eapply grows_trans; [apply with_sound_scope_grows|].
  apply exec_inert, inert_volumeEffect.
Qed.

Lemma settle_frame (id : nat) (ok : bool) (w : World) :
  lifecycle (settle id ok w) = lifecycle w /\
  props_uri (settle id ok w) = props_uri w /\
  uri_scope (settle id ok w) = uri_scope w.
Proof.
  unfold settle. destruct (pending w !! id); [|repeat split].
  destruct ok; rewrite exec_lifecycle, exec_props_uri, exec_uri_scope;
    repeat split.
Qed.

(** Handling an event other than a locator change keeps the retained
    locator in step with the prop. *)
Lemma handle_uri_sync (e : Event) (w : World) :
  (lifecycle w = Mounted -> uri (uri_scope w) = props_uri w) ->
  match e with
  | ChangeUri _ => True
  | _ =>
      lifecycle (handle e w) = Mounted ->
      uri (uri_scope (handle e w)) = props_uri (handle e w)
  end.
Proof.
  intros Hu.
  destruct e as [u|u| | | |v|v ok|v| |h s|id ok]; try exact I; unfold handle.
  - destruct (lifecycle w) eqn:L; try (rewrite L; exact Hu).
    intros _. unfold mount.
    rewrite !exec_uri_scope, !exec_props_uri. reflexivity.
  - destruct (lifecycle w) eqn:L; try (rewrite L; exact Hu).
    unfold unmount. simpl. discriminate.
  - destruct (lifecycle w) eqn:L; try (rewrite L; exact Hu).
    rewrite exec_lifecycle, exec_uri_scope, exec_props_uri, L. exact Hu.
  - destruct (lifecycle w) eqn:L; try (rewrite L; exact Hu).
    rewrite exec_lifecycle, exec_uri_scope, exec_props_uri, L. exact Hu.
  - destruct (lifecycle w) eqn:L; try (rewrite L; exact Hu).
    rewrite exec_lifecycle, exec_uri_scope, exec_props_uri, L. exact Hu.
  - destruct (lifecycle w) eqn:L; try (rewrite L; exact Hu).
    rewrite exec_lifecycle, exec_uri_scope, exec_props_uri, L. exact Hu.
  - assert (H : lifecycle (system_volume_changed v w) = Mounted ->
                uri (uri_scope (system_volume_changed v w)) =
                props_uri (system_volume_changed v w)).
    { unfold system_volume_changed.
      destruct (volume_listener
                  (plat (with_plat (snd (complete (VolumeChange v) (plat w)))
                           w)));
        [rewrite exec_lifecycle, exec_uri_scope, exec_props_uri|];
        exact Hu. }
    destruct (lifecycle w); exact H.
  - assert (H : lifecycle (read_volume w) = Mounted ->
                uri (uri_scope (read_volume w)) = props_uri (read_volume w)).
    { unfold read_volume. destruct (volume_reads (plat w)); [exact Hu|].
      rewrite exec_lifecycle, exec_uri_scope, exec_props_uri. exact Hu. }
    destruct (lifecycle w); exact H.
  - assert (H : forall x,
                x = match subscriber (plat w) !! h with
                    | Some sc =>
                        exec all_ok
                          (AudioPlayer.onPlaybackStatusUpdate sc s) w
                    | None => w
                    end ->
                lifecycle x = Mounted -> uri (uri_scope x) = props_uri x).
    { intros x ->. destruct (subscriber (plat w) !! h); [|exact Hu].
      rewrite exec_lifecycle, exec_uri_scope, exec_props_uri. exact Hu. }
    destruct (lifecycle w); apply H; reflexivity.
  - destruct (settle_frame id ok w) as (H1 & H2 & H3).
    assert (H : lifecycle (settle id ok w) = Mounted ->
                uri (uri_scope (settle id ok w)) = props_uri (settle id ok w)).
    { rewrite H1, H2, H3. exact Hu. }
    destruct (lifecycle w); exact H.
Qed.

(** Starting a load from an idle loader. *)
Lemma loadEffect_loader (sc : Scope) (w : World) :
  lifecycle w = Mounted -> bounded w -> no_load_in_flight w ->
  sound (st sc) = sound (ui w) ->
  loaded (plat w) ⊆ owned (ui w) ->
  loader (exec all_ok (AudioPlayer.loadEffect sc) w) /\
  bounded (exec all_ok (AudioPlayer.loadEffect sc) w).
Proof.
  intros Hm Hb Hi Hsc Hs. unfold AudioPlayer.loadEffect.
  destruct (uri sc); [split; [apply loader_idle|]; assumption|].
  destruct (sound (st sc)) as [X|] eqn:E.
  - destruct (loadAudio_unloading sc X E) as (k & -> & Hk). simpl.
    split.
    + apply (loader_unloading _ (next_task w) X (mkTask (UnloadAsync X) k)).
      * simpl. apply lookup_insert_eq.
      * exact Hk.
      * intros id' t' Hne. simpl. rewrite lookup_insert_ne by congruence.
        apply Hi.
      * exact Hm.
      * simpl. symmetry. exact Hsc.
      * simpl. unfold owned in Hs. rewrite <- Hsc in Hs. exact Hs.
    + intros id t. simpl. rewrite lookup_insert. case_decide as Eid.
      * intros _. lia.
      * intros H. specialize (Hb id t H). lia.
  - apply exec_starts_create; try assumption.
    + apply loadAudio_creating, E.
    + unfold owned in Hs. rewrite <- Hsc in Hs.
      apply leibniz_equiv, equiv_empty. exact Hs.
Qed.

Lemma pristine_bounded (w : World) : pristine w -> bounded w.
Proof.
  intros (Hp & _) id t H. rewrite Hp, lookup_empty in H. discriminate.
Qed.

Lemma pristine_idle (w : World) : pristine w -> no_load_in_flight w.
Proof.
  intros (Hp & _) id t H. rewrite Hp, lookup_empty in H. discriminate.
Qed.

Lemma mount_loader (u : string) (w : World) :
  pristine w -> loader (mount u w) /\ bounded (mount u w).
Proof.
  intros Hp. unfold mount.
  set (w0 := with_ui initialUI (with_props Mounted u w)).
  set (w1 := with_uri_scope (current w0) (with_sound_scope (current w0) w0)).
  assert (G2 := exec_inert all_ok _ (inert_volumeEffect (current w0)) w1).
  set (w2 := exec all_ok (AudioPlayer.volumeEffect (current w0)) w1) in *.
  assert (G3 := exec_inert all_ok _ inert_initAudio w2).
  set (w3 := exec all_ok AudioPlayer.initAudio w2) in *.
  assert (G := grows_trans _ _ _ G2 G3).
  assert (B1 : bounded w1) by exact (pristine_bounded w Hp).
  assert (I1 : no_load_in_flight w1) by exact (pristine_idle w Hp).
  assert (E1 : loaded (plat w1) = ∅) by apply Hp.
  assert (D := grows_loaded _ _ G). rewrite E1 in D.
  apply loadEffect_loader.
  - rewrite (grows_lifecycle _ _ G). reflexivity.
  - exact (grows_bounded _ _ G B1).
  - exact (grows_idle _ _ G I1).
  - rewrite (grows_sound _ _ G). reflexivity.
  - exact (transitivity D (empty_subseteq _)).
Qed.

Lemma unmount_loader (w : World) :
  no_load_in_flight w -> bounded w -> loaded (plat w) ⊆ owned (ui w) ->
  loader (unmount w) /\ bounded (unmount w).
Proof.
  intros Hi Hb Hs. unfold unmount.
  assert (G1 := exec_inert all_ok _ inert_volumeEffect_cleanup w).
  set (w1 := exec all_ok AudioPlayer.volumeEffect_cleanup w) in *.
  assert (G2 := exec_inert all_ok _
                  (inert_loadEffect_cleanup (uri_scope w1)) w1).
  set (w2 := exec all_ok (AudioPlayer.loadEffect_cleanup (uri_scope w1)) w1)
    in *.
  assert (G := grows_trans _ _ _ G1 G2).
  split.
  - apply loader_idle.
    + exact (grows_idle _ _ G Hi).
    + simpl. rewrite (owned_sound _ _ (grows_sound _ _ G)).
      exact (transitivity (grows_loaded _ _ G) Hs).
  - exact (grows_bounded _ _ G Hb).
Qed.

Lemma change_uri_loader (u : string) (w : World) :
  lifecycle w = Mounted -> in_sync w ->
  no_load_in_flight w -> bounded w -> loaded (plat w) ⊆ owned (ui w) ->
  loader (step w (ChangeUri u)) /\ bounded (step w (ChangeUri u)).
Proof.
  intros Hm Hsync Hi Hb Hs. destruct (Hsync Hm) as (Hsnd & Huri & _).
  unfold step, handle. rewrite Hm.
  set (x := with_props Mounted u w).
  unfold rerender. simpl lifecycle. cbv iota.
  rewrite (bool_decide_eq_false_2 (sound (st (current x)) <> _))
    by (simpl; intros H; apply H; symmetry; exact Hsnd).
  destruct (bool_decide (uri (current x) <> uri (uri_scope x))).
  - assert (G := exec_inert all_ok _
                   (inert_loadEffect_cleanup (uri_scope x)) x).
    set (w2 := exec all_ok (AudioPlayer.loadEffect_cleanup (uri_scope x)) x)
      in *.
    apply loadEffect_loader.
    + simpl. rewrite (grows_lifecycle _ _ G). reflexivity.
    + exact (grows_bounded _ _ G Hb).
    + exact (grows_idle _ _ G Hi).
    + simpl. rewrite (grows_sound _ _ G). reflexivity.
    + simpl. rewrite (owned_sound _ _ (grows_sound _ _ G)).
      exact (transitivity (grows_loaded _ _ G) Hs).
  - split; [apply loader_idle|]; assumption.
Qed.

Lemma handle_lifecycle (e : Event) (w : World) :
  lifecycle (handle e w) = Fresh -> lifecycle w = Fresh.
Proof.
  assert (G := handle_grows e w).
  destruct e as [u|u| | | |v|v ok|v| |h s|id ok];
    try (intros H; rewrite (grows_lifecycle _ _ G) in H; exact H);
    unfold handle.
  - destruct (lifecycle w) eqn:L; intros H; simpl in H; congruence.
  - destruct (lifecycle w) eqn:L; intros H; simpl in H; congruence.
  - destruct (lifecycle w) eqn:L; intros H; simpl in H; congruence.
  - destruct (settle_frame id ok w) as (H1 & _). rewrite <- H1.
    destruct (lifecycle w); trivial.
Qed.

Lemma pristine_step (e : Event) (w : World) :
  (lifecycle w = Fresh -> pristine w) ->
  lifecycle (step w e) = Fresh -> pristine (step w e).
Proof.
  intros HP HF. unfold step in *. rewrite rerender_lifecycle in HF.
  assert (L := handle_lifecycle e w HF).
  destruct (HP L) as (Hp & Hl & Hsub & Hlis & Hr).
  unfold rerender. rewrite HF. revert HF. unfold handle. rewrite L.
  destruct e as [u|u| | | |v|v ok|v| |h s|id ok]; intros HF;
    try (repeat split; assumption).
  - unfold mount in HF. rewrite !exec_lifecycle in HF. discriminate.
  - unfold system_volume_changed. simpl. rewrite Hlis.
    repeat split; assumption.
  - unfold read_volume. rewrite Hr. repeat split; assumption.
  - rewrite Hsub, lookup_empty. repeat split; assumption.
  - unfold settle. rewrite Hp, lookup_empty. repeat split; assumption.
Qed.

Lemma calm_invariant (w : World) :
  calm w ->
  reachable w /\ loader w /\ bounded w /\ (lifecycle w = Fresh -> pristine w).
Proof.
  induction 1 as [|w e Hc (Hr & Hl & Hb & Hp) Hcalm].
  - split; [apply reach_init|]. split; [|split].
    + apply loader_idle.
      * intros id t H. simpl in H. rewrite lookup_empty in H. discriminate.
      * simpl. apply empty_subseteq.
    + intros id t H. simpl in H. rewrite lookup_empty in H. discriminate.
    + intros _. repeat split.
  - split; [apply reach_step, Hr|].
    assert (Hsync := reachable_in_sync w Hr).
    assert (Huri : lifecycle w = Mounted -> uri (uri_scope w) = props_uri w)
      by (intros L; apply Hsync, L).
    cut (loader (step w e) /\ bounded (step w e)).
    { intros [H1 H2]. split; [exact H1|]. split; [exact H2|].
      apply pristine_step, Hp. }
    assert (Hafter : loader (handle e w) /\ bounded (handle e w) ->
                     match e with ChangeUri _ => False | _ => True end ->
                     loader (step w e) /\ bounded (step w e)).
    { intros [H1 H2] He. unfold step.
      assert (G : grows (handle e w) (rerender (handle e w))).
      { apply rerender_grows.
        assert (Hu := handle_uri_sync e w Huri).
        destruct e; try exact Hu. destruct He. }
      split; [exact (grows_loader _ _ G H2 H1)|exact (grows_bounded _ _ G H2)]. }
    assert (Hquiet : grows w (handle e w) ->
                     loader (handle e w) /\ bounded (handle e w)).
    { intros G.
      split; [exact (grows_loader _ _ G Hb Hl)|exact (grows_bounded _ _ G Hb)]. }
    assert (G := handle_grows e w).
    destruct e as [u|u| | | |v|v ok|v| |h s|id ok];
      try (apply Hafter; [apply Hquiet, G|exact I]).
    + apply Hafter; [|exact I]. unfold handle.
      destruct (lifecycle w) eqn:L; try (split; assumption).
      apply mount_loader, Hp, eq_refl.
    + destruct (lifecycle w) eqn:L.
      * unfold step, handle, rerender. rewrite L. cbv iota. rewrite L.
        split; assumption.
      * apply change_uri_loader; try assumption.
        -- apply Hcalm. reflexivity.
        -- apply loader_idle_inv; [exact Hl|]. apply Hcalm. reflexivity.
      * unfold step, handle, rerender. rewrite L. cbv iota. rewrite L.
        split; assumption.
    + apply Hafter; [|exact I]. unfold handle.
      destruct (lifecycle w) eqn:L; try (split; assumption).
      apply unmount_loader; try assumption.
      * apply Hcalm. reflexivity.
      * apply loader_idle_inv; [exact Hl|]. apply Hcalm. reflexivity.
    + apply Hafter; [|exact I].
      assert (H := settle_loader id ok w Hl Hb).
      unfold handle. destruct (lifecycle w); exact H.
Qed.

(** What the loader does achieve: in every run in which the locator
    changes, and the component unmounts, only while no load is in flight,
    at most one sound is loaded at any instant. *)
Theorem calm_at_most_one (w : World) :
  calm w -> (size (loaded (plat w)) <= 1)%nat.
Proof.
  intros H. apply loader_one_sound, (calm_invariant w H).
Qed.

Lemma nothing_pending_idle (w : World) :
  pending w = ∅ -> no_load_in_flight w.
Proof. intros Hp id t H. rewrite Hp, lookup_empty in H. discriminate. Qed.

Lemma run_calm (es : list Event) :
  forall w, calm w -> settled_schedule es w -> calm (run es w).
Proof.
  induction es as [|e es IH]; intros w Hw Hok; simpl; [exact Hw|].
  destruct Hok as [H1 H2]. apply IH; [|exact H2].
  apply calm_step; [exact Hw|].
  intros He. apply nothing_pending_idle, H1, He.
Qed.

Lemma sequential_loads_calm :
  calm sequential_loads /\
  loaded (plat sequential_loads) = {[ 1%nat ]} /\
  unloads (trace sequential_loads) = 0%nat :: nil /\
  sound (ui sequential_loads) = Some 1%nat.
Proof.
  split.
  - apply run_calm; [apply calm_init|].
    do 4 (split; [intros He; discriminate He|]).
    split; [intros _; vm_compute; reflexivity|].
    do 2 (split; [intros He; discriminate He|]).
    exact I.
  - split; [vm_compute; reflexivity|].
    split; vm_compute; reflexivity.
Qed.

(** ** The throttle: one per sound *)

Lemma spaced_snoc (l : list Delivery) (d : Delivery) :
  spaced l = true ->
  (forall x, In x l -> at_time x + wait <= at_time d) ->
  spaced (l ++ d :: nil) = true.
Proof.
  induction l as [|a r IH]; intros Hs Hb; [reflexivity|].
  destruct r as [|b r'].
  - simpl. rewrite andb_true_r. apply Z.leb_le, Hb. left. reflexivity.
  - change (spaced ((a :: b :: r') ++ d :: nil))
      with ((at_time a + wait <=? at_time b) && spaced ((b :: r') ++ d :: nil)).
    change (spaced (a :: b :: r'))
      with ((at_time a + wait <=? at_time b) && spaced (b :: r')) in Hs.
    apply andb_prop in Hs as [H1 H2]. rewrite H1. simpl andb.
    apply IH; [exact H2|]. intros x Hx. apply Hb. right. exact Hx.
Qed.

(** What a run keeps true for the throttle of each sound: its
    deliveries are spaced, none is later than the clock, and the next
    one cannot come before [wait] milliseconds have passed since the
    last. *)
Definition throttled (h : Handle) (tw : Timed) : Prop :=
  spaced (of_sound h (forwarded tw)) = true /\
  forall x, In x (of_sound h (forwarded tw)) ->
    match throttles tw !! h with
    | Some th => at_time x + wait <= window_end th
    | None => at_time x + wait <= clock tw
    end.

Lemma of_sound_snoc (h : Handle) (l : list Delivery) (d : Delivery) :
  of_sound h (l ++ d :: nil) =
    if Nat.eqb (from_sound d) h then of_sound h l ++ d :: nil
    else of_sound h l.
Proof.
  unfold of_sound. rewrite List.filter_app. simpl.
  destruct (Nat.eqb (from_sound d) h); [reflexivity|apply app_nil_r].
Qed.

Lemma forward_throttled (h h' : Handle) (t : Z) (s : PlaybackStatus)
  (tw : Timed) :
  throttled h tw ->
  clock tw <= t ->
  (h' = h ->
   match throttles tw !! h with
   | Some th => window_end th <= t
   | None => True
   end) ->
  throttled h (forward t h' s tw).
Proof.
  intros [Hs Hb] Hc Hw. unfold throttled, forward. simpl.
  rewrite of_sound_snoc. simpl.
  destruct (Nat.eqb_spec h' h) as [->|Hne].
  - specialize (Hw eq_refl). rewrite lookup_insert_eq. simpl.
    assert (Hold : forall x, In x (of_sound h (forwarded tw)) ->
                             at_time x + wait <= t).
    { intros x Hx. specialize (Hb x Hx).
      destruct (throttles tw !! h); lia. }
    split.
    + apply spaced_snoc; [exact Hs|exact Hold].
    + intros x Hx. apply in_app_or in Hx as [Hx|[<-|[]]].
      * specialize (Hold x Hx). unfold wait in *. lia.
      * simpl. lia.
  - rewrite lookup_insert_ne by exact Hne.
    split; [exact Hs|]. intros x Hx. specialize (Hb x Hx).
    destruct (throttles tw !! h); lia.
Qed.

Lemma timed_step_throttled (h : Handle) (tw : Timed) (e : TimedEvent) :
  throttled h tw ->
  throttled h (timed_step tw e) /\ clock tw <= clock (timed_step tw e).
Proof.
  intros Ht. assert (Ht' := Ht). destruct Ht' as [Hs Hb].
  destruct e as [e|t h' s|h']; unfold timed_step.
  - destruct e; (split; [exact Ht|simpl; lia]).
  - destruct (Z.ltb_spec t (clock tw)) as [|Hc]; [split; [exact Ht|lia]|].
    destruct (subscriber (plat (untimed tw)) !! h');
      [|split; [exact Ht|lia]].
    destruct (throttles tw !! h') as [th|] eqn:Eh.
    + destruct (Z.ltb_spec t (window_end th)) as [Hin|Hout].
      * split; [|simpl; lia]. unfold throttled. simpl.
        split; [exact Hs|]. intros x Hx. specialize (Hb x Hx).
        destruct (Nat.eq_dec h' h) as [->|Hne].
        -- rewrite lookup_insert_eq. rewrite Eh in Hb. exact Hb.
        -- rewrite lookup_insert_ne by exact Hne.
           destruct (throttles tw !! h); lia.
      * split; [|simpl; lia].
        apply forward_throttled; [exact Ht|exact Hc|].
        intros ->. rewrite Eh. exact Hout.
    + split; [|simpl; lia].
      apply forward_throttled; [exact Ht|exact Hc|].
      intros ->. rewrite Eh. exact I.
  - destruct (throttles tw !! h') as [th|] eqn:Eh; [|split; [exact Ht|lia]].
    cbv zeta. destruct (kept th) as [s|].
    + split; [|simpl; lia].
      apply forward_throttled; [exact Ht|lia|].
      intros ->. rewrite Eh. lia.
    + split; [|simpl; lia]. unfold throttled. simpl.
      split; [exact Hs|]. intros x Hx. specialize (Hb x Hx).
      destruct (Nat.eq_dec h' h) as [->|Hne].
      * rewrite lookup_delete_eq. rewrite Eh in Hb. lia.
      * rewrite lookup_delete_ne by exact Hne.
        destruct (throttles tw !! h); lia.
Qed.

(** What the throttle does achieve: in every run, the deliveries that
    come from one sound are at least 100 milliseconds apart. *)
Lemma throttle_spaces_each_sound (es : list TimedEvent) (h : Handle) :
  spaced (of_sound h (forwarded (timed_run es timed_init))) = true.
Proof.
  assert (G : forall tw, throttled h tw -> throttled h (timed_run es tw)).
  { induction es as [|e es IH]; intros tw Ht; [exact Ht|].
    simpl. apply IH, timed_step_throttled, Ht. }
  apply (G timed_init). split; [reflexivity|]. intros x [].
Qed.

(** C4: two sounds are loaded and each reports a status, at 1000 and at
    1010 milliseconds.  Each status goes through the throttle of its own
    sound, is the first call of that throttle and is forwarded at once:
    the state cells are written at 1000 (position 500) and again at 1010
    (position 700), ten milliseconds apart. *)
Theorem status_updates_not_spaced :
  let before := timed_run (removelast two_sounds_report) timed_init in
  let after := timed_run two_sounds_report timed_init in
  forwarded after =
    mkDelivery 1000 0%nat status_at_500 ::
    mkDelivery 1010 1%nat status_at_700 :: nil
  /\ spaced (forwarded after) = false
  /\ loaded (plat (untimed after)) = {[ 0%nat; 1%nat ]}
  /\ position (ui (untimed before)) = JNum 500
  /\ isPlaying (ui (untimed before)) = true
  /\ position (ui (untimed after)) = JNum 700
  /\ isPlaying (ui (untimed after)) = false.
Proof.
  cbv zeta.
  split; [vm_compute; reflexivity|].
  split; [vm_compute; reflexivity|].
  split; [vm_compute; reflexivity|].
  split; [vm_compute; reflexivity|].
  split; [vm_compute; reflexivity|].
  split; vm_compute; reflexivity.
Qed.

(** * Further properties of the component *)

(** ** Source loader: what it does achieve *)

(** X1: in every run in which the locator changes, and the component
    unmounts, only while no load is in flight, at most one sound is
    loaded; and whenever no load is in flight, a loaded sound is the one
    the component owns. *)
Theorem one_sound_without_overlap (w : World) (Hc : calm w) :
  (size (loaded (plat w)) <= 1)%nat /\
  (no_load_in_flight w -> loaded (plat w) ⊆ owned (ui w)).
Proof.
  destruct (calm_invariant w Hc) as (_ & Hl & _).
  split; [apply loader_one_sound, Hl|].
  apply loader_idle_inv, Hl.
Qed.

Lemma one_sound_without_overlap_witness :
  calm sequential_loads /\
  (size (loaded (plat sequential_loads)) <= 1)%nat.
Proof.
  split; [apply sequential_loads_calm|].
  apply (one_sound_without_overlap sequential_loads).
  apply sequential_loads_calm.
Defined.

(** ** Status subscriber: the guard as the code evaluates it *)

(** X2: a delivered status is applied exactly when it reports loaded and
    the [isSeeking] captured by the subscriber's closure is false.  It
    then writes the duration, the position and the playing flag, logs, and
    touches nothing else: no platform call, no promise.  Otherwise the
    delivery changes nothing at all. *)
Theorem subscriber_guard (w : World) (h : Handle) (sc : Scope)
  (status : PlaybackStatus)
  (Hr : reachable w)
  (Hm : lifecycle w = Mounted)
  (Hsub : subscriber (plat w) !! h = Some sc) :
  if isLoaded status && negb (isSeeking (st sc))
  then ui (step w (StatusDelivered h status)) =
         mkUI (sound (ui w)) (status_isPlaying status)
              (js_or (durationMillis status) (JNum 0))
              (js_or (positionMillis status) (JNum 0))
              (volume (ui w)) (isSeeking (ui w))
       /\ plat (step w (StatusDelivered h status)) = plat w
       /\ pending (step w (StatusDelivered h status)) = pending w
       /\ trace (step w (StatusDelivered h status)) =
            trace w ++
              Ran (SetDuration (js_or (durationMillis status) (JNum 0))) ::
              Ran (SetPosition (js_or (positionMillis status) (JNum 0))) ::
              Ran (SetIsPlaying (status_isPlaying status)) ::
              Ran (ConsoleLog "Playback status:") :: nil
  else step w (StatusDelivered h status) = w.
Proof.
  destruct (isLoaded status && negb (isSeeking (st sc))) eqn:Hg;
    [|exact (status_dropped w h sc status Hr Hsub Hg)].
  assert (Hs := reachable_in_sync w Hr).
  open_world w Hm Hs. simpl in Hsub.
  unfold step, handle. simpl lifecycle. cbv iota. simpl plat. rewrite Hsub.
  unfold AudioPlayer.onPlaybackStatusUpdate. rewrite Hg. cbn.
  idle_rerender. cbn. rewrite <- !app_assoc. repeat split.
Qed.

Lemma subscriber_guard_witness :
  reachable dragging_world /\
  lifecycle dragging_world = Mounted /\
  subscriber (plat dragging_world) !! O = Some (mkScope "a.mp3" initialUI) /\
  position (ui (step dragging_world (StatusDelivered O status_at_500))) =
    JNum 500.
Proof.
  assert (Hr : reachable dragging_world)
    by (apply run_reachable, reach_init).
  assert (Hm : lifecycle dragging_world = Mounted)
    by (vm_compute; reflexivity).
  assert (Hsub : subscriber (plat dragging_world) !! O =
                 Some (mkScope "a.mp3" initialUI))
    by (vm_compute; reflexivity).
  split; [exact Hr|]. split; [exact Hm|]. split; [exact Hsub|].
  pose proof (subscriber_guard dragging_world O _ status_at_500 Hr Hm Hsub)
    as H.
  change (isLoaded status_at_500 &&
          negb (isSeeking (st (mkScope "a.mp3" initialUI)))) with true in H.
  cbv iota in H. destruct H as (H & _). rewrite H. reflexivity.
Defined.

(** ** Seeking (lines 92-106) *)

Lemma sliding_start_step (w : World) :
  reachable w -> lifecycle w = Mounted ->
  step w SlidingStart = run_cmd (SetIsSeeking true) w.
Proof.
  intros Hr Hm. assert (Hs := reachable_in_sync w Hr).
  open_world w Hm Hs.
  unfold step, handle. simpl lifecycle. cbv iota.
  unfold AudioPlayer.handleSlidingStart. cbn. idle_rerender. reflexivity.
Qed.

Lemma seek_begin_ui (w : World) :
  reachable w -> lifecycle w = Mounted ->
  ui (step w SlidingStart) =
    mkUI (sound (ui w)) (isPlaying (ui w)) (duration (ui w))
         (position (ui w)) (volume (ui w)) true /\
  next_task (step w SlidingStart) = next_task w /\
  lifecycle (step w SlidingStart) = Mounted /\
  trace (step w SlidingStart) = trace w ++ Ran (SetIsSeeking true) :: nil.
Proof.
  intros Hr Hm. rewrite (sliding_start_step w Hr Hm).
  unfold run_cmd. rewrite Hm. repeat split. exact Hm.
Qed.

(** X3: a drag whose seek call fails never ends.  After drag start, a
    release at [v] and the rejection of [setPositionAsync], the error is
    logged, the position is what it was and [isSeeking] is still true. *)
Theorem failed_seek_keeps_seeking (w : World) (v : Z) (h : Handle)
  (Hr : reachable w) (Hm : lifecycle w = Mounted)
  (Hsound : sound (ui w) = Some h) :
  let w1 := step w SlidingStart in
  let w2 := step w1 (SlidingComplete v) in
  let w3 := step w2 (Settle (next_task w) false) in
  isSeeking (ui w3) = true /\
  position (ui w3) = position (ui w) /\
  trace w3 =
    trace w ++
      Ran (SetIsSeeking true) ::
      Issued (SetPositionAsync h v) ::
      Ran (ConsoleError (Some "Error seeking:"%string)) :: nil.
Proof.
  intros w1 w2 w3.
  destruct (seek_begin_ui w Hr Hm) as (Hu1 & Hn1 & Hm1 & Ht1).
  fold w1 in Hu1, Hn1, Hm1, Ht1.
  assert (Hr1 : reachable w1) by apply reach_step, Hr.
  assert (Hs1 : sound (ui w1) = Some h) by (rewrite Hu1; exact Hsound).
  destruct (seek_commit_rejected w1 v h Hr1 Hm1 Hs1) as [Hu3 Ht3].
  rewrite Hn1 in Hu3, Ht3. fold w2 w3 in Hu3, Ht3.
  rewrite Hu3, Ht3, Hu1, Ht1, <- app_assoc. repeat split.
Qed.

Lemma failed_seek_keeps_seeking_witness :
  reachable playing_world /\
  lifecycle playing_world = Mounted /\
  sound (ui playing_world) = Some O /\
  isSeeking
    (ui (step (step (step playing_world SlidingStart) (SlidingComplete 5000))
              (Settle (next_task playing_world) false))) = true.
Proof.
  split; [exact playing_world_reachable|].
  split; [exact playing_world_mounted|].
  split; [exact playing_world_sound|].
  destruct (failed_seek_keeps_seeking playing_world 5000 O
              playing_world_reachable playing_world_mounted
              playing_world_sound) as (H & _).
  exact H.
Defined.

(** X4: with no sound owned a drag never ends either: the release does
    nothing, so [isSeeking] stays true. *)
Theorem seek_without_sound (w : World) (v : Z)
  (Hr : reachable w) (Hm : lifecycle w = Mounted)
  (Hsound : sound (ui w) = None) :
  step (step w SlidingStart) (SlidingComplete v) = step w SlidingStart /\
  isSeeking (ui (step w SlidingStart)) = true.
Proof.
  destruct (seek_begin_ui w Hr Hm) as (Hu1 & Hn1 & Hm1 & Ht1).
  split; [|rewrite Hu1; reflexivity].
  assert (Hr1 : reachable (step w SlidingStart)) by apply reach_step, Hr.
  assert (Hs1 := reachable_in_sync _ Hr1).
  assert (Hsnd : sound (st (sound_scope (step w SlidingStart))) = None).
  { destruct (Hs1 Hm1) as (H & _). rewrite H, Hu1. exact Hsound. }
  unfold step at 1. unfold handle. rewrite Hm1.
  unfold AudioPlayer.handleSlidingComplete. rewrite Hsnd. simpl.
  apply rerender_idle, Hs1.
Qed.

Lemma seek_without_sound_witness :
  reachable (step init (Mount "a.mp3")) /\
  lifecycle (step init (Mount "a.mp3")) = Mounted /\
  sound (ui (step init (Mount "a.mp3"))) = None /\
  isSeeking (ui (step (step init (Mount "a.mp3")) SlidingStart)) = true.
Proof.
  assert (Hr : reachable (step init (Mount "a.mp3")))
    by apply reach_step, reach_init.
  assert (Hm : lifecycle (step init (Mount "a.mp3")) = Mounted)
    by (vm_compute; reflexivity).
  assert (Hn : sound (ui (step init (Mount "a.mp3"))) = None)
    by (vm_compute; reflexivity).
  split; [exact Hr|]. split; [exact Hm|]. split; [exact Hn|].
  destruct (seek_without_sound (step init (Mount "a.mp3")) 0 Hr Hm Hn)
    as (_ & H).
  exact H.
Defined.

(** ** What is written when *)

Lemma exec_ui_unmounted (ok : Call -> bool) (p : Prog unit) :
  forall w, lifecycle w <> Mounted -> ui (exec ok p w) = ui w.
Proof.
  induction p as [a| |c k IH|c k IH|c k IH]; intros w Hw; simpl; trivial.
  - rewrite IH.
    + unfold run_cmd. destruct (lifecycle w); try reflexivity.
      destruct Hw. reflexivity.
    + destruct (run_cmd_frame c w) as (H & _). rewrite H. exact Hw.
  - destruct (ok c); rewrite IH; trivial.
Qed.

Lemma settle_ui_unmounted (id : nat) (ok : bool) (w : World) :
  lifecycle w <> Mounted -> ui (settle id ok w) = ui w.
Proof.
  intros Hw. unfold settle. destruct (pending w !! id); [|reflexivity].
  destruct ok; rewrite exec_ui_unmounted; trivial.
Qed.

Lemma handle_ui_unmounted (e : Event) (w : World) :
  lifecycle w <> Mounted ->
  match e with Mount _ => True | _ => ui (handle e w) = ui w end.
Proof.
  intros Hw.
  destruct e as [u|u| | | |v|v ok|v| |h s|id ok]; try exact I; unfold handle.
  - destruct (lifecycle w) eqn:L; first [reflexivity|congruence].
  - destruct (lifecycle w) eqn:L; first [reflexivity|congruence].
  - destruct (lifecycle w) eqn:L; first [reflexivity|congruence].
  - destruct (lifecycle w) eqn:L; first [reflexivity|congruence].
  - destruct (lifecycle w) eqn:L; first [reflexivity|congruence].
  - destruct (lifecycle w) eqn:L; first [reflexivity|congruence].
  - assert (H : ui (system_volume_changed v w) = ui w).
    { unfold system_volume_changed.
      destruct (volume_listener
                  (plat (with_plat (snd (complete (VolumeChange v) (plat w)))
                           w))); [|reflexivity].
      rewrite exec_ui_unmounted; trivial. }
    destruct (lifecycle w); exact H.
  - assert (H : ui (read_volume w) = ui w).
    { unfold read_volume. destruct (volume_reads (plat w)); [reflexivity|].
      rewrite exec_ui_unmounted; trivial. }
    destruct (lifecycle w); exact H.
  - assert (H : forall x,
                x = match subscriber (plat w) !! h with
                    | Some sc =>
                        exec all_ok
                          (AudioPlayer.onPlaybackStatusUpdate sc s) w
                    | None => w
                    end -> ui x = ui w).
    { intros x ->. destruct (subscriber (plat w) !! h); [|reflexivity].
      apply exec_ui_unmounted, Hw. }
    destruct (lifecycle w); apply H; reflexivity.
  - assert (H := settle_ui_unmounted id ok w Hw).
    destruct (lifecycle w); exact H.
Qed.

(** Before mount the state cells hold their initial values. *)
Lemma fresh_initial (w : World) :
  reachable w -> lifecycle w = Fresh -> ui w = initialUI.
Proof.
  induction 1 as [|w e Hr IH]; [reflexivity|].
  intros HF. unfold step in *. rewrite rerender_lifecycle in HF.
  rewrite rerender_ui.
  assert (L := handle_lifecycle e w HF).
  assert (Hn : lifecycle w <> Mounted) by (rewrite L; discriminate).
  assert (H := handle_ui_unmounted e w Hn).
  destruct e as [u|u| | | |v|v ok|v| |h s|id ok];
    try (rewrite H; apply IH, L).
  unfold handle in HF. rewrite L in HF. unfold mount in HF.
  rewrite !exec_lifecycle in HF. discriminate.
Qed.

Lemma unmount_ui (w : World) : ui (unmount w) = ui w.
Proof.
  unfold unmount. simpl. rewrite loadEffect_cleanup_ui. reflexivity.
Qed.

(** X5: the owned sound is replaced only when a promise settles.  No
    user action, status delivery, volume notification, locator change or
    unmount changes the [sound] cell by itself. *)
Theorem sound_changes_only_on_settle (w : World) (e : Event)
  (Hr : reachable w)
  (He : is_settle e = false) :
  sound (ui (step w e)) = sound (ui w).
Proof.
  unfold step. rewrite rerender_ui.
  assert (G := handle_grows e w).
  destruct e as [u|u| | | |v|v ok|v| |h s|id ok];
    try exact (grows_sound _ _ G).
  - unfold handle. destruct (lifecycle w) eqn:L; try reflexivity.
    rewrite mount_ui, (fresh_initial w Hr L). reflexivity.
  - unfold handle. destruct (lifecycle w); reflexivity.
  - unfold handle. destruct (lifecycle w); try reflexivity.
    rewrite unmount_ui. reflexivity.
  - discriminate He.
Qed.

Lemma sound_changes_only_on_settle_witness :
  reachable playing_world /\
  is_settle (ChangeUri "b.mp3") = false /\
  sound (ui (step playing_world (ChangeUri "b.mp3"))) = Some O.
Proof.
  split; [exact playing_world_reachable|]. split; [reflexivity|].
  rewrite (sound_changes_only_on_settle playing_world (ChangeUri "b.mp3")
             playing_world_reachable eq_refl).
  exact playing_world_sound.
Defined.

(** ** The volume listener across the life of the component *)

Lemma settle_listener (id : nat) (ok : bool) (w : World) :
  tame_pending w ->
  volume_listener (plat (settle id ok w)) = volume_listener (plat w).
Proof.
  intros Hq. unfold settle.
  destruct (pending w !! id) as [t|] eqn:Ht; [|reflexivity].
  destruct (Hq id t Ht) as [Hc Hk].
  destruct ok; rewrite exec_listener by apply Hk; simpl; [|reflexivity].
  apply complete_listener, Hc.
Qed.

Lemma handle_listener (e : Event) (w : World) :
  tame_pending w ->
  match e with
  | Mount _ | Unmount => True
  | _ => volume_listener (plat (handle e w)) = volume_listener (plat w)
  end.
Proof.
  intros Hq.
  destruct e as [u|u| | | |v|v ok|v| |h s|id ok]; try exact I; unfold handle.
  - destruct (lifecycle w); reflexivity.
  - destruct (lifecycle w); try reflexivity.
    apply exec_listener, tame_handlePlayPause.
  - destruct (lifecycle w); try reflexivity.
    apply exec_listener, tame_handleSlidingStart.
  - destruct (lifecycle w); try reflexivity.
    apply exec_listener, tame_handleSlidingComplete.
  - destruct (lifecycle w); try reflexivity.
    apply exec_listener, tame_handleVolumeChange.
  - assert (H : volume_listener (plat (system_volume_changed v w)) =
                volume_listener (plat w)).
    { unfold system_volume_changed.
      destruct (volume_listener
                  (plat (with_plat (snd (complete (VolumeChange v) (plat w)))
                           w))); [|reflexivity].
      rewrite exec_listener by apply tame_onVolumeChange. reflexivity. }
    destruct (lifecycle w); exact H.
  - assert (H : volume_listener (plat (read_volume w)) =
                volume_listener (plat w)).
    { unfold read_volume. destruct (volume_reads (plat w)); [reflexivity|].
      rewrite exec_listener by (unfold act; tame_tac). reflexivity. }
    destruct (lifecycle w); exact H.
  - assert (H : forall x,
                x = match subscriber (plat w) !! h with
                    | Some sc =>
                        exec all_ok
                          (AudioPlayer.onPlaybackStatusUpdate sc s) w
                    | None => w
                    end ->
                volume_listener (plat x) = volume_listener (plat w)).
    { intros x ->. destruct (subscriber (plat w) !! h); [|reflexivity].
      apply exec_listener, tame_onPlaybackStatusUpdate. }
    destruct (lifecycle w); apply H; reflexivity.
  - assert (H := settle_listener id ok w Hq).
    destruct (lifecycle w); exact H.
Qed.

Lemma handle_keeps_lifecycle (e : Event) (w : World) :
  match e with
  | Mount _ | Unmount => True
  | _ => lifecycle (handle e w) = lifecycle w
  end.
Proof.
  assert (G := handle_grows e w).
  destruct e as [u|u| | | |v|v ok|v| |h s|id ok];
    try exact I; try exact (grows_lifecycle _ _ G); unfold handle.
  - destruct (lifecycle w) eqn:L; try exact L. reflexivity.
  - destruct (settle_frame id ok w) as (H & _).
    destruct (lifecycle w); exact H.
Qed.

Lemma unmounted_no_listener (w : World) :
  reachable w -> lifecycle w <> Mounted -> volume_listener (plat w) = None.
Proof.
  induction 1 as [|w e Hr IH]; [reflexivity|].
  intros Hn. unfold step in *. rewrite rerender_lifecycle in Hn.
  unfold rerender.
  destruct (lifecycle (handle e w)) eqn:L; try (destruct Hn; reflexivity).
  - (* still not mounted *)
    assert (LF := handle_lifecycle e w L).
    assert (Hq : tame_pending w) by apply (reachable_consistent w Hr).
    assert (Hl := handle_listener e w Hq).
    assert (Hw : lifecycle w <> Mounted) by (rewrite LF; discriminate).
    destruct e as [u|u| | | |v|v ok|v| |h s|id ok];
      try (rewrite Hl; apply IH, Hw).
    + unfold handle in L. rewrite LF in L. unfold mount in L.
      rewrite !exec_lifecycle in L. discriminate.
    + unfold handle. rewrite LF. apply IH, Hw.
  - (* unmounted *)
    assert (Hq : tame_pending w) by apply (reachable_consistent w Hr).
    assert (Hl := handle_listener e w Hq).
    assert (Hk := handle_keeps_lifecycle e w).
    destruct e as [u|u| | | |v|v ok|v| |h s|id ok];
      try (rewrite Hl; apply IH; rewrite <- Hk, L; discriminate).
    + unfold handle in *. destruct (lifecycle w) eqn:L'.
      * unfold mount in L. rewrite !exec_lifecycle in L. discriminate.
      * simpl in L. congruence.
      * apply IH. congruence.
    + unfold handle in *. destruct (lifecycle w) eqn:L'.
      * apply IH. congruence.
      * unfold unmount. simpl.
        rewrite (exec_listener all_ok _ (tame_loadEffect_cleanup _)).
        reflexivity.
      * apply IH. congruence.
Qed.

(** X6: while the component is mounted a volume listener is subscribed
    and the sound it mirrors onto is the owned one; before mount and after
    unmount none is subscribed, and an external volume change then makes
    the component do nothing. *)
Theorem listener_follows_lifecycle (w : World) (v : Q) (Hr : reachable w) :
  match lifecycle w with
  | Mounted =>
      exists sc, volume_listener (plat w) = Some sc /\
                 sound (st sc) = sound (ui w)
  | _ =>
      volume_listener (plat w) = None /\
      trace (step w (SystemVolumeChanged v)) = trace w /\
      ui (step w (SystemVolumeChanged v)) = ui w /\
      pending (step w (SystemVolumeChanged v)) = pending w
  end.
Proof.
  destruct (lifecycle w) eqn:L.
  - assert (Hn : volume_listener (plat w) = None)
      by (apply unmounted_no_listener; [exact Hr|rewrite L; discriminate]).
    split; [exact Hn|].
    unfold step, handle. unfold system_volume_changed. simpl.
    rewrite Hn. unfold rerender. simpl. rewrite L. repeat split.
  - destruct (reachable_in_sync w Hr L) as (H1 & _ & H3).
    exists (sound_scope w). split; assumption.
  - assert (Hn : volume_listener (plat w) = None)
      by (apply unmounted_no_listener; [exact Hr|rewrite L; discriminate]).
    split; [exact Hn|].
    unfold step, handle. unfold system_volume_changed. simpl.
    rewrite Hn. unfold rerender. simpl. rewrite L. repeat split.
Qed.

Lemma listener_follows_lifecycle_witness :
  reachable (step playing_world Unmount) /\
  volume_listener (plat (step playing_world Unmount)) = None.
Proof.
  assert (Hr : reachable (step playing_world Unmount))
    by apply reach_step, playing_world_reachable.
  split; [exact Hr|].
  pose proof (listener_follows_lifecycle (step playing_world Unmount) 1 Hr)
    as H.
  assert (L : lifecycle (step playing_world Unmount) = Gone)
    by (vm_compute; reflexivity).
  rewrite L in H. exact (proj1 H).
Defined.

(** ** Unmount (cleanups of lines 131-134 and 159-161) *)

Lemma rerender_uri_scope (w : World) :
  (lifecycle w = Mounted -> uri (uri_scope w) = props_uri w) ->
  uri_scope (rerender w) = uri_scope w.
Proof.
  intros Hu. unfold rerender.
  destruct (lifecycle w) eqn:L; try reflexivity.
  rewrite (bool_decide_eq_false_2 (uri (current w) <> _))
    by (simpl; intros H; apply H; symmetry; apply Hu; reflexivity).
  destruct (bool_decide (sound (st (current w)) <> sound (st (sound_scope w))));
    cbv beta zeta iota; [|reflexivity].
  rewrite exec_uri_scope. simpl. rewrite ?exec_uri_scope. reflexivity.
Qed.

Lemma handle_uri_scope (e : Event) (w : World) :
  sets_locator e = false -> uri_scope (handle e w) = uri_scope w.
Proof.
  intros He.
  destruct e as [u|u| | | |v|v ok|v| |h s|id ok]; try discriminate He;
    unfold handle.
  - destruct (lifecycle w); try reflexivity.
    unfold unmount. simpl. rewrite exec_uri_scope. reflexivity.
  - destruct (lifecycle w); try reflexivity. apply exec_uri_scope.
  - destruct (lifecycle w); try reflexivity. apply exec_uri_scope.
  - destruct (lifecycle w); try reflexivity. apply exec_uri_scope.
  - destruct (lifecycle w); try reflexivity. apply exec_uri_scope.
  - unfold system_volume_changed.
    destruct (volume_listener
                (plat (with_plat (snd (complete (VolumeChange v) (plat w)))
                         w))); [|reflexivity].
    rewrite exec_uri_scope. reflexivity.
  - unfold read_volume. destruct (volume_reads (plat w)); [reflexivity|].
    rewrite exec_uri_scope. reflexivity.
  - destruct (subscriber (plat w) !! h); [|reflexivity].
    apply exec_uri_scope.
  - apply settle_frame.
Qed.

(** The render retained by the [uri] effect changes only at mount and
    at a locator change. *)
Lemma step_uri_scope (w : World) (e : Event) :
  reachable w -> sets_locator e = false ->
  uri_scope (step w e) = uri_scope w.
Proof.
  intros Hr He. unfold step.
  rewrite rerender_uri_scope; [apply handle_uri_scope, He|].
  assert (Hu := handle_uri_sync e w
                  (fun L => proj1 (proj2 (reachable_in_sync w Hr L)))).
  destruct e; try exact Hu. discriminate He.
Qed.

(** The requests of an unmount: the listener goes first; the unload is
    for the sound captured by the cleanup closure. *)
Lemma unmount_requests (w : World) (Hm : lifecycle w = Mounted) :
  loaded (plat (step w Unmount)) = loaded (plat w) /\
  trace (step w Unmount) =
    trace w ++
      Issued ListenerRemove ::
      match sound (st (uri_scope w)) with
      | Some h => Issued (UnloadAsync h) :: nil
      | None => nil
      end.
Proof.
  destruct w as [life u s ss us p q n tr]. simpl in Hm. subst life.
  unfold step, handle. simpl lifecycle. cbv iota.
  unfold unmount, AudioPlayer.loadEffect_cleanup. simpl.
  destruct (sound (st us)); cbn; unfold rerender; cbn;
    rewrite <- ?app_assoc; repeat split.
Qed.

(** X7: unmount first removes the volume listener and then asks to
    unload the sound that was owned when the locator last changed, which
    is the one the cleanup closure captured; the sound owned now is not
    looked at.  Nothing is unloaded by the unmount itself, no state cell
    changes, and the request is not awaited: it is left in flight. *)
Theorem unmount_effect (w : World) (Hm : lifecycle w = Mounted) :
  lifecycle (step w Unmount) = Gone /\
  volume_listener (plat (step w Unmount)) = None /\
  ui (step w Unmount) = ui w /\
  loaded (plat (step w Unmount)) = loaded (plat w) /\
  trace (step w Unmount) =
    trace w ++
      Issued ListenerRemove ::
      match sound (st (uri_scope w)) with
      | Some h => Issued (UnloadAsync h) :: nil
      | None => nil
      end /\
  match sound (st (uri_scope w)) with
  | Some h =>
      exists k, pending (step w Unmount) !! next_task w =
                  Some (mkTask (UnloadAsync h) k)
  | None => pending (step w Unmount) = pending w
  end.
Proof.
  destruct (unmount_requests w Hm) as (Hl & Ht).
  split; [|split; [|split; [|split; [exact Hl|split; [exact Ht|]]]]];
    clear Hl Ht;
    destruct w as [life u s ss us p q n tr]; simpl in Hm; subst life;
    unfold step, handle; simpl lifecycle; cbv iota;
    unfold unmount, AudioPlayer.loadEffect_cleanup; simpl;
    destruct (sound (st us)); cbn; unfold rerender; cbn;
    try reflexivity.
  eexists. apply lookup_insert_eq.
Qed.

Lemma unmount_effect_witness :
  lifecycle playing_world = Mounted /\
  trace (step playing_world Unmount) =
    trace playing_world ++ Issued ListenerRemove :: nil.
Proof.
  split; [exact playing_world_mounted|].
  destruct (unmount_effect playing_world playing_world_mounted)
    as (_ & _ & _ & _ & H & _).
  assert (Hs : sound (st (uri_scope playing_world)) = None)
    by (vm_compute; reflexivity).
  rewrite Hs in H. exact H.
Defined.

Lemma run_uri_scope (es : list Event) :
  forall w,
    reachable w -> forallb (fun e => negb (sets_locator e)) es = true ->
    uri_scope (run es w) = uri_scope w.
Proof.
  induction es as [|e es IH]; intros w Hr Hes; simpl; [reflexivity|].
  simpl in Hes. apply andb_prop in Hes as [He Hes].
  rewrite IH; [|apply reach_step, Hr|exact Hes].
  apply step_uri_scope; [exact Hr|].
  destruct (sets_locator e); [discriminate He|reflexivity].
Qed.

Lemma mount_uri_scope (u : string) :
  uri_scope (step init (Mount u)) = mkScope u initialUI.
Proof.
  unfold step. rewrite rerender_uri_scope.
  - change (handle (Mount u) init) with (mount u init). unfold mount.
    rewrite !exec_uri_scope. reflexivity.
  - intros _. change (handle (Mount u) init) with (mount u init).
    unfold mount. rewrite !exec_uri_scope, !exec_props_uri. reflexivity.
Qed.

(** X8: if the locator never changed since mount, unmounting requests no
    unload at all, whatever happened in between: a sound loaded by the
    first [loadAudio] stays loaded after the component is gone. *)
Theorem unmount_after_single_uri (u : string) (es : list Event)
  (Hes : forallb (fun e => negb (sets_locator e)) es = true)
  (Hm : lifecycle (run es (step init (Mount u))) = Mounted) :
  trace (step (run es (step init (Mount u))) Unmount) =
    trace (run es (step init (Mount u))) ++ Issued ListenerRemove :: nil /\
  loaded (plat (step (run es (step init (Mount u))) Unmount)) =
    loaded (plat (run es (step init (Mount u)))).
Proof.
  assert (Hr0 : reachable (step init (Mount u)))
    by apply reach_step, reach_init.
  assert (Hr : reachable (run es (step init (Mount u))))
    by apply run_reachable, Hr0.
  destruct (unmount_requests _ Hm) as (Hl & Ht).
  rewrite (run_uri_scope es _ Hr0 Hes), mount_uri_scope in Ht.
  split; [exact Ht|exact Hl].
Qed.

Lemma unmount_after_single_uri_witness :
  forallb (fun e => negb (sets_locator e))
    (Settle 1 true :: PressPlayPause :: nil) = true /\
  lifecycle (run (Settle 1 true :: PressPlayPause :: nil)
               (step init (Mount "a.mp3"))) = Mounted /\
  loaded (plat (step (run (Settle 1 true :: PressPlayPause :: nil)
                        (step init (Mount "a.mp3"))) Unmount)) =
    loaded (plat (run (Settle 1 true :: PressPlayPause :: nil)
                    (step init (Mount "a.mp3")))).
Proof.
  assert (Hm : lifecycle (run (Settle 1 true :: PressPlayPause :: nil)
                            (step init (Mount "a.mp3"))) = Mounted)
    by (vm_compute; reflexivity).
  split; [reflexivity|]. split; [exact Hm|].
  destruct (unmount_after_single_uri "a.mp3"
              (Settle 1 true :: PressPlayPause :: nil) eq_refl Hm)
    as (_ & H).
  exact H.
Defined.

(** ** Locator changes (effect of lines 155-162) *)

(** X9: passing the same locator again runs no effect and no cleanup:
    the world is unchanged. *)
Theorem same_uri_is_idle (w : World) (Hr : reachable w)
  (Hm : lifecycle w = Mounted) :
  step w (ChangeUri (props_uri w)) = w.
Proof.
  assert (Hs := reachable_in_sync w Hr).
  open_world w Hm Hs.
  unfold step, handle. simpl. idle_rerender. reflexivity.
Qed.

Lemma same_uri_is_idle_witness :
  reachable playing_world /\
  lifecycle playing_world = Mounted /\
  step playing_world (ChangeUri (props_uri playing_world)) = playing_world.
Proof.
  split; [exact playing_world_reachable|].
  split; [exact playing_world_mounted|].
  exact (same_uri_is_idle playing_world playing_world_reachable
           playing_world_mounted).
Defined.

(** X10: a new locator first runs the cleanup of the render in which the
    locator last changed, which asks to unload the sound owned at that
    time; then, unless the new locator is empty, [loadAudio] of the new
    render starts: it asks to unload the sound owned now, or, when none
    is owned, asks at once for the new sound, with the status subscriber
    of the new render.  No state cell and nothing on the platform has
    changed when the event ends. *)
Theorem uri_change_effect (w : World) (u' : string) (Hr : reachable w)
  (Hm : lifecycle w = Mounted) (Hu : u' <> props_uri w) :
  props_uri (step w (ChangeUri u')) = u' /\
  ui (step w (ChangeUri u')) = ui w /\
  plat (step w (ChangeUri u')) = plat w /\
  uri_scope (step w (ChangeUri u')) = mkScope u' (ui w) /\
  trace (step w (ChangeUri u')) =
    (trace w ++
     match sound (st (uri_scope w)) with
     | Some h => Issued (UnloadAsync h) :: nil
     | None => nil
     end) ++
    match u' with
    | EmptyString => nil
    | String _ _ =>
        match sound (ui w) with
        | Some h => Issued (UnloadAsync h) :: nil
        | None =>
            Ran (ConsoleLog "Loading audio from URI:") ::
            Issued (CreateAsync u' (mkScope u' (ui w))) :: nil
        end
    end.
Proof.
  assert (Hs := reachable_in_sync w Hr).
  open_world w Hm Hs. simpl in Hu.
  unfold step, handle. simpl lifecycle. cbv iota.
  unfold rerender, with_props, current. simpl.
  rewrite (bool_decide_eq_false_2 (sound s <> sound (st ss)))
    by (intros H; apply H; symmetry; exact Hsnd).
  rewrite (bool_decide_eq_true_2 (u' <> uri us)) by congruence.
  cbv iota.
  unfold AudioPlayer.loadEffect_cleanup, AudioPlayer.loadEffect,
    AudioPlayer.loadAudio.
  destruct (sound (st us)) as [h0|] eqn:Hus; destruct u' as [|a u'];
    destruct (sound s) as [h|] eqn:Hsound; cbn; rewrite ?Hus; cbn;
    rewrite ?Hsound; cbn;
    rewrite <- ?app_assoc, ?app_nil_r; repeat split.
Qed.

Lemma uri_change_effect_witness :
  reachable playing_world /\
  lifecycle playing_world = Mounted /\
  "b.mp3"%string <> props_uri playing_world /\
  ui (step playing_world (ChangeUri "b.mp3")) = ui playing_world.
Proof.
  assert (Hu : "b.mp3"%string <> props_uri playing_world)
    by (vm_compute; discriminate).
  split; [exact playing_world_reachable|].
  split; [exact playing_world_mounted|].
  split; [exact Hu|].
  destruct (uri_change_effect playing_world "b.mp3" playing_world_reachable
              playing_world_mounted Hu) as (_ & H & _).
  exact H.
Defined.

(** ** Mount (effects of lines 124-135, 150-152 and 155-162) *)

(** X11: mounting subscribes the volume listener, asks for the audio
    permissions and, without waiting for the answer, asks for the sound
    of a non-empty locator with the status subscriber of the first
    render.  An empty locator starts no load.  Nothing is loaded yet. *)
Theorem mount_effect (w : World) (u' : string) (Hr : reachable w)
  (Hf : lifecycle w = Fresh) :
  volume_listener (plat (step w (Mount u'))) = Some (mkScope u' initialUI) /\
  loaded (plat (step w (Mount u'))) = loaded (plat w) /\
  trace (step w (Mount u')) =
    trace w ++
      Issued (VolumeOnChange (mkScope u' initialUI)) ::
      Issued RequestPermissionsAsync ::
      match u' with
      | EmptyString => nil
      | String _ _ =>
          Ran (ConsoleLog "Loading audio from URI:") ::
          Issued (CreateAsync u' (mkScope u' initialUI)) :: nil
      end.
Proof.
  destruct w as [life u s ss us p q n tr]. simpl in Hf. subst life.
  unfold step, handle. simpl lifecycle. cbv iota.
  unfold mount, AudioPlayer.loadEffect, AudioPlayer.loadAudio.
  destruct u' as [|a u']; cbn; idle_rerender; cbn;
    rewrite <- ?app_assoc; repeat split.
Qed.

Lemma mount_effect_witness :
  reachable init /\
  lifecycle init = Fresh /\
  volume_listener (plat (step init (Mount "a.mp3"))) =
    Some (mkScope "a.mp3" initialUI).
Proof.
  split; [exact reach_init|]. split; [reflexivity|].
  destruct (mount_effect init "a.mp3" reach_init eq_refl) as (H & _).
  exact H.
Defined.

(** ** Initialisation (lines 22-39) *)

Lemma settle_step (w : World) (id : nat) (ok : bool) :
  step w (Settle id ok) = rerender (settle id ok w).
Proof. unfold step, handle. destruct (lifecycle w); reflexivity. Qed.

(** X12: when the permission request is rejected, [initAudio] logs the
    error and stops: the audio mode is not set, the system volume is not
    read, and no state cell changes. *)
Theorem init_permission_denied (w : World) (id : nat) (Hr : reachable w)
  (Hp : pending w !! id = parked AudioPlayer.initAudio) :
  trace (step w (Settle id false)) =
    trace w ++ Ran (ConsoleError (Some "Error initializing audio:")) :: nil /\
  ui (step w (Settle id false)) = ui w /\
  plat (step w (Settle id false)) = plat w /\
  pending (step w (Settle id false)) = delete id (pending w).
Proof.
  assert (Hs := reachable_in_sync w Hr).
  rewrite settle_step. cbn in Hp. rewrite (settle_unfold _ _ _ _ Hp).
  destruct w as [life u s ss us p q n tr].
  destruct life; cbn; rewrite rerender_idle;
    try (repeat split; reflexivity);
    try (intros L; discriminate L).
  exact Hs.
Qed.

Lemma init_permission_denied_witness :
  reachable (step init (Mount "a.mp3")) /\
  pending (step init (Mount "a.mp3")) !! O = parked AudioPlayer.initAudio /\
  ui (step (step init (Mount "a.mp3")) (Settle O false)) =
    ui (step init (Mount "a.mp3")).
Proof.
  assert (Hr : reachable (step init (Mount "a.mp3")))
    by apply reach_step, reach_init.
  assert (Hp : pending (step init (Mount "a.mp3")) !! O =
               parked AudioPlayer.initAudio)
    by (vm_compute; reflexivity).
  split; [exact Hr|]. split; [exact Hp|].
  destruct (init_permission_denied _ O Hr Hp) as (_ & H & _).
  exact H.
Defined.

(** X13: once the permission request has resolved, [initAudio] sets the
    audio mode and waits for it.  If that is rejected the error is logged
    and the system volume is not read; if it resolves, exactly one read
    of the system volume is requested.  No state cell changes on the
    way. *)
Theorem init_sequence (w : World) (id : nat) (Hr : reachable w)
  (Hp : pending w !! id = parked AudioPlayer.initAudio) :
  trace (step w (Settle id true)) = trace w ++ Issued SetAudioModeAsync :: nil
  /\ (trace (step (step w (Settle id true)) (Settle (next_task w) true)) =
        trace w ++ Issued SetAudioModeAsync :: Issued GetVolume :: nil
      /\ volume_reads
           (plat (step (step w (Settle id true)) (Settle (next_task w) true)))
         = S (volume_reads (plat w))
      /\ ui (step (step w (Settle id true)) (Settle (next_task w) true))
         = ui w)
  /\ (trace (step (step w (Settle id true)) (Settle (next_task w) false)) =
        trace w ++ Issued SetAudioModeAsync ::
                   Ran (ConsoleError (Some "Error initializing audio:")) ::
                   nil
      /\ volume_reads
           (plat (step (step w (Settle id true)) (Settle (next_task w) false)))
         = volume_reads (plat w)
      /\ ui (step (step w (Settle id true)) (Settle (next_task w) false))
         = ui w).
Proof.
  assert (Hs := reachable_in_sync w Hr).
  assert (H1 : step w (Settle id true) =
               exec all_ok
                 (try_catch (await SetAudioModeAsync;; invoke GetVolume)
                    (act (ConsoleError (Some "Error initializing audio:"%string))))
                 (settled id w)).
  { rewrite settle_step. cbn in Hp. rewrite (settle_unfold _ _ _ _ Hp).
    destruct w as [life u s ss us p q n tr]. cbn.
    apply rerender_idle. destruct life; [intros L; discriminate L|exact Hs|
                                         intros L; discriminate L]. }
  rewrite H1. clear H1 Hp.
  destruct w as [life u s ss us p q n tr]. cbn.
  rewrite !settle_step. unfold settle. cbn. rewrite lookup_insert_eq. cbn.
  split; [reflexivity|].
  destruct life; cbn; rewrite !rerender_idle;
    try (intros L; discriminate L); try exact Hs;
    cbn; rewrite <- ?app_assoc; repeat split.
Qed.

Lemma init_sequence_witness :
  reachable (step init (Mount "a.mp3")) /\
  pending (step init (Mount "a.mp3")) !! O = parked AudioPlayer.initAudio /\
  trace (step (step init (Mount "a.mp3")) (Settle O true)) =
    trace (step init (Mount "a.mp3")) ++ Issued SetAudioModeAsync :: nil.
Proof.
  assert (Hr : reachable (step init (Mount "a.mp3")))
    by apply reach_step, reach_init.
  assert (Hp : pending (step init (Mount "a.mp3")) !! O =
               parked AudioPlayer.initAudio)
    by (vm_compute; reflexivity).
  split; [exact Hr|]. split; [exact Hp|].
  destruct (init_sequence _ O Hr Hp) as (H & _).
  exact H.
Defined.

(** X14: when the platform runs the callback given to [getVolume], the
    volume cell takes the system level of that moment.  Nothing else
    changes: in particular the playback volume of a loaded sound is not
    brought in line with it. *)
Theorem volume_read_effect (w : World) (k : nat) (Hr : reachable w)
  (Hm : lifecycle w = Mounted)
  (Hk : volume_reads (plat w) = S k) :
  ui (step w VolumeRead) =
    mkUI (sound (ui w)) (isPlaying (ui w)) (duration (ui w))
         (position (ui w)) (sys_volume (plat w)) (isSeeking (ui w)) /\
  volume_reads (plat (step w VolumeRead)) = k /\
  res_volume (plat (step w VolumeRead)) = res_volume (plat w) /\
  sys_volume (plat (step w VolumeRead)) = sys_volume (plat w) /\
  pending (step w VolumeRead) = pending w /\
  trace (step w VolumeRead) =
    trace w ++ Ran (SetVolume (sys_volume (plat w))) :: nil.
Proof.
  assert (Hs := reachable_in_sync w Hr).
  open_world w Hm Hs. simpl in Hk.
  unfold step, handle. simpl lifecycle. cbv iota.
  unfold read_volume. simpl plat. rewrite Hk. cbn.
  idle_rerender. repeat split.
Qed.

Lemma volume_read_effect_witness :
  reachable (run (Mount "a.mp3" :: Settle 0 true :: Settle 2 true ::
                  SystemVolumeChanged (2 # 5) :: nil) init) /\
  lifecycle (run (Mount "a.mp3" :: Settle 0 true :: Settle 2 true ::
                  SystemVolumeChanged (2 # 5) :: nil) init) = Mounted /\
  volume_reads (plat (run (Mount "a.mp3" :: Settle 0 true :: Settle 2 true ::
                           SystemVolumeChanged (2 # 5) :: nil) init)) = 1%nat /\
  volume_reads
    (plat (step (run (Mount "a.mp3" :: Settle 0 true :: Settle 2 true ::
                      SystemVolumeChanged (2 # 5) :: nil) init) VolumeRead))
    = O.
Proof.
  pose (w0 := run (Mount "a.mp3" :: Settle 0 true :: Settle 2 true ::
                   SystemVolumeChanged (2 # 5) :: nil) init).
  assert (Hr : reachable w0) by apply run_reachable, reach_init.
  assert (Hm : lifecycle w0 = Mounted) by (vm_compute; reflexivity).
  assert (Hk : volume_reads (plat w0) = 1%nat) by (vm_compute; reflexivity).
  split; [exact Hr|]. split; [exact Hm|]. split; [exact Hk|].
  destruct (volume_read_effect w0 O Hr Hm Hk) as (_ & H & _).
  exact H.
Defined.

(** ** Outcomes of a load (lines 42-62) *)

(** With the locator in step, a render re-subscribes the volume listener
    at most: sounds, subscribers, levels and promises are untouched. *)
Lemma rerender_keeps_sounds (w : World) :
  (lifecycle w = Mounted -> uri (uri_scope w) = props_uri w) ->
  loaded (plat (rerender w)) = loaded (plat w) /\
  next_handle (plat (rerender w)) = next_handle (plat w) /\
  subscriber (plat (rerender w)) = subscriber (plat w) /\
  res_volume (plat (rerender w)) = res_volume (plat w) /\
  sys_volume (plat (rerender w)) = sys_volume (plat w) /\
  volume_reads (plat (rerender w)) = volume_reads (plat w) /\
  pending (rerender w) = pending w.
Proof.
  intros Hu. unfold rerender.
  destruct (lifecycle w) eqn:L; try (repeat split; reflexivity).
  rewrite (bool_decide_eq_false_2 (uri (current w) <> _))
    by (simpl; intros H; apply H; symmetry; apply Hu; reflexivity).
  destruct (bool_decide (sound (st (current w)) <> sound (st (sound_scope w))));
    cbv beta zeta iota; repeat split; reflexivity.
Qed.

Lemma settle_uri_sync (w : World) (id : nat) (ok : bool) :
  reachable w ->
  lifecycle (settle id ok w) = Mounted ->
  uri (uri_scope (settle id ok w)) = props_uri (settle id ok w).
Proof.
  intros Hr.
  assert (Hs := reachable_in_sync w Hr).
  destruct (settle_frame id ok w) as (L & P & U).
  rewrite L, P, U. intros Hm. apply (Hs Hm).
Qed.

(** The task parked at line 50 and the rest of [loadAudio] after it. *)
Lemma awaiting_create_task (sc : Scope) :
  awaiting_create sc =
    Some (mkTask (CreateAsync (uri sc) sc)
            (fun o =>
               try_catch
                 (audioSound ← unwrap o;
                  act (ConsoleLog "Audio loaded, status:");;
                  act (SetSound audioSound))
                 (act (ConsoleError (Some "Error loading audio:"%string))))).
Proof.
  unfold awaiting_create, AudioPlayer.loadAudio.
  destruct (sound (st sc)); reflexivity.
Qed.

(** X15: when [createAsync] resolves, the new sound is loaded on the
    platform with the status subscriber of the render that started the
    load and with playback volume 1, whatever the volume cell holds.  The
    component takes ownership of it if it is still mounted; after unmount
    [setSound] is ignored and the sound stays loaded with no owner. *)
Theorem load_resolved (w : World) (id : nat) (sc : Scope)
  (Hr : reachable w)
  (Hp : pending w !! id = awaiting_create sc) :
  loaded (plat (step w (Settle id true))) =
    loaded (plat w) ∪ {[ next_handle (plat w) ]} /\
  subscriber (plat (step w (Settle id true))) !! next_handle (plat w) =
    Some sc /\
  res_volume (plat (step w (Settle id true))) !! next_handle (plat w) =
    Some 1%Q /\
  ui (step w (Settle id true)) =
    match lifecycle w with
    | Mounted =>
        mkUI (Some (next_handle (plat w))) (isPlaying (ui w))
             (duration (ui w)) (position (ui w)) (volume (ui w))
             (isSeeking (ui w))
    | _ => ui w
    end.
Proof.
  rewrite settle_step.
  destruct (rerender_keeps_sounds (settle id true w)
              (settle_uri_sync w id true Hr)) as (E1 & _ & E2 & E3 & _).
  rewrite E1, E2, E3, rerender_ui. clear E1 E2 E3.
  rewrite awaiting_create_task in Hp.
  rewrite (settle_unfold _ _ _ _ Hp).
  destruct w as [life u s ss us p q n tr].
  destruct life; cbn; rewrite !lookup_insert_eq; repeat split.
Qed.

Lemma load_resolved_witness :
  reachable (step init (Mount "a.mp3")) /\
  pending (step init (Mount "a.mp3")) !! 1%nat =
    awaiting_create (mkScope "a.mp3" initialUI) /\
  subscriber (plat (step (step init (Mount "a.mp3")) (Settle 1 true)))
    !! next_handle (plat (step init (Mount "a.mp3"))) =
    Some (mkScope "a.mp3" initialUI).
Proof.
  assert (Hr : reachable (step init (Mount "a.mp3")))
    by apply reach_step, reach_init.
  assert (Hp : pending (step init (Mount "a.mp3")) !! 1%nat =
               awaiting_create (mkScope "a.mp3" initialUI))
    by (vm_compute; reflexivity).
  split; [exact Hr|]. split; [exact Hp|].
  destruct (load_resolved _ 1%nat _ Hr Hp) as (_ & H & _).
  exact H.
Defined.

(** A rejected promise of [loadAudio], at either [await]. *)
Lemma load_rejected_at (w : World) (id : nat) (sc : Scope) :
  reachable w ->
  pending w !! id = parked (AudioPlayer.loadAudio sc) \/
  pending w !! id = awaiting_create sc ->
  step w (Settle id false) =
    with_trace
      (trace w ++ Ran (ConsoleError (Some "Error loading audio:")) :: nil)
      (settled id w).
Proof.
  intros Hr Hp.
  assert (Hs := reachable_in_sync w Hr).
  rewrite settle_step.
  assert (E : settle id false w =
              with_trace
                (trace w ++
                 Ran (ConsoleError (Some "Error loading audio:")) :: nil)
                (settled id w)).
  { destruct Hp as [Hp|Hp].
    - unfold AudioPlayer.loadAudio in Hp.
      destruct (sound (st sc)); cbn in Hp;
        rewrite (settle_unfold _ _ _ _ Hp);
        destruct w as [life u s ss us p q n tr]; destruct life; reflexivity.
    - rewrite awaiting_create_task in Hp.
      rewrite (settle_unfold _ _ _ _ Hp).
      destruct w as [life u s ss us p q n tr]; destruct life; reflexivity. }
  rewrite E. apply rerender_idle.
  destruct w as [life u s ss us p q n tr]. exact Hs.
Qed.

(** X16: when the unload of the previous sound or the creation of the
    new one is rejected, [loadAudio] logs the error and ends.  No state
    cell changes, so a sound owned before is still owned; nothing changes
    on the platform; in particular, after a failed unload the new sound
    is never requested. *)
Theorem load_rejected (w : World) (id : nat) (sc : Scope)
  (Hr : reachable w)
  (Hp : pending w !! id = parked (AudioPlayer.loadAudio sc) \/
        pending w !! id = awaiting_create sc) :
  trace (step w (Settle id false)) =
    trace w ++ Ran (ConsoleError (Some "Error loading audio:")) :: nil /\
  ui (step w (Settle id false)) = ui w /\
  plat (step w (Settle id false)) = plat w /\
  pending (step w (Settle id false)) = delete id (pending w).
Proof.
  rewrite (load_rejected_at w id sc Hr Hp). repeat split.
Qed.

Lemma load_rejected_witness :
  reachable (step init (Mount "a.mp3")) /\
  (pending (step init (Mount "a.mp3")) !! 1%nat =
     parked (AudioPlayer.loadAudio (mkScope "a.mp3" initialUI)) \/
   pending (step init (Mount "a.mp3")) !! 1%nat =
     awaiting_create (mkScope "a.mp3" initialUI)) /\
  ui (step (step init (Mount "a.mp3")) (Settle 1 false)) =
    ui (step init (Mount "a.mp3")).
Proof.
  assert (Hr : reachable (step init (Mount "a.mp3")))
    by apply reach_step, reach_init.
  assert (Hp : pending (step init (Mount "a.mp3")) !! 1%nat =
                 parked (AudioPlayer.loadAudio (mkScope "a.mp3" initialUI)) \/
               pending (step init (Mount "a.mp3")) !! 1%nat =
                 awaiting_create (mkScope "a.mp3" initialUI))
    by (right; vm_compute; reflexivity).
  split; [exact Hr|]. split; [exact Hp|].
  destruct (load_rejected _ 1%nat _ Hr Hp) as (_ & H & _).
  exact H.
Defined.

(** The unload of line 46 resolves: the sound is gone from the platform
    and the new one is requested. *)
Lemma unload_resolved_step (w : World) (id : nat) (sc : Scope) (X : Handle) :
  reachable w ->
  sound (st sc) = Some X ->
  pending w !! id = parked (AudioPlayer.loadAudio sc) ->
  ui (step w (Settle id true)) = ui w /\
  loaded (plat (step w (Settle id true))) = loaded (plat w) ∖ {[ X ]} /\
  pending (step w (Settle id true)) !! next_task w = awaiting_create sc /\
  trace (step w (Settle id true)) =
    trace w ++
      Ran (ConsoleLog "Loading audio from URI:") ::
      Issued (CreateAsync (uri sc) sc) :: nil.
Proof.
  intros Hr Hsc Hp.
  assert (Hs := reachable_in_sync w Hr).
  rewrite settle_step, awaiting_create_task.
  unfold AudioPlayer.loadAudio in Hp. rewrite Hsc in Hp. cbn in Hp.
  rewrite (settle_unfold _ _ _ _ Hp).
  destruct w as [life u s ss us p q n tr].
  destruct life; cbn; rewrite rerender_idle;
    try (intros L; discriminate L); try exact Hs;
    cbn; rewrite lookup_insert_eq, <- ?app_assoc; repeat split.
Qed.

(** X17: a load that finds a sound owned unloads it first; if the
    creation of the new sound is then rejected, the error is logged and
    the sound cell still holds the handle that was unloaded. *)
Theorem failed_load_keeps_stale_handle (w : World) (id : nat) (sc : Scope)
  (X : Handle)
  (Hr : reachable w)
  (Hsc : sound (st sc) = Some X)
  (Hown : sound (ui w) = Some X)
  (Hp : pending w !! id = parked (AudioPlayer.loadAudio sc)) :
  trace (step (step w (Settle id true)) (Settle (next_task w) false)) =
    trace w ++
      Ran (ConsoleLog "Loading audio from URI:") ::
      Issued (CreateAsync (uri sc) sc) ::
      Ran (ConsoleError (Some "Error loading audio:")) :: nil /\
  sound (ui (step (step w (Settle id true)) (Settle (next_task w) false))) =
    Some X /\
  X ∉ loaded (plat (step (step w (Settle id true))
                      (Settle (next_task w) false))).
Proof.
  destruct (unload_resolved_step w id sc X Hr Hsc Hp) as (U & L & P & T).
  rewrite (load_rejected_at (step w (Settle id true)) (next_task w) sc
             (reach_step _ _ Hr) (or_intror P)).
  cbn. rewrite U, L, T, <- app_assoc. split; [reflexivity|].
  split; [exact Hown|].
  apply not_elem_of_difference. right. apply elem_of_singleton. reflexivity.
Qed.

Lemma failed_load_keeps_stale_handle_witness :
  reachable (step playing_world (ChangeUri "b.mp3")) /\
  sound (st (mkScope "b.mp3" (ui playing_world))) = Some O /\
  sound (ui (step playing_world (ChangeUri "b.mp3"))) = Some O /\
  pending (step playing_world (ChangeUri "b.mp3")) !! 2%nat =
    parked (AudioPlayer.loadAudio (mkScope "b.mp3" (ui playing_world))) /\
  sound (ui (step (step (step playing_world (ChangeUri "b.mp3"))
                     (Settle 2 true))
               (Settle (next_task (step playing_world (ChangeUri "b.mp3")))
                  false))) = Some O.
Proof.
  assert (Hr : reachable (step playing_world (ChangeUri "b.mp3")))
    by apply reach_step, playing_world_reachable.
  assert (Hsc : sound (st (mkScope "b.mp3" (ui playing_world))) = Some O)
    by exact playing_world_sound.
  assert (Hown : sound (ui (step playing_world (ChangeUri "b.mp3"))) = Some O)
    by (vm_compute; reflexivity).
  assert (Hp : pending (step playing_world (ChangeUri "b.mp3")) !! 2%nat =
               parked (AudioPlayer.loadAudio
                         (mkScope "b.mp3" (ui playing_world))))
    by (vm_compute; reflexivity).
  split; [exact Hr|]. split; [exact Hsc|]. split; [exact Hown|].
  split; [exact Hp|].
  destruct (failed_load_keeps_stale_handle _ 2%nat _ O Hr Hsc Hown Hp)
    as (_ & H & _).
  exact H.
Defined.

(** ** The playing flag and the duration are written by the status
    subscriber only *)

Lemma run_cmd_hushed (c : Cmd) (w : World) :
  hushed_cmd c = true ->
  isPlaying (ui (run_cmd c w)) = isPlaying (ui w) /\
  duration (ui (run_cmd c w)) = duration (ui w).
Proof.
  intros Hc. unfold run_cmd.
  destruct (lifecycle w); simpl; try (split; reflexivity).
  destruct c; simpl in *; try discriminate; split; reflexivity.
Qed.

Lemma exec_hushed (ok : Call -> bool) (p : Prog unit) :
  hushed p ->
  forall w,
    hushed_pending w ->
    hushed_pending (exec ok p w) /\
    isPlaying (ui (exec ok p w)) = isPlaying (ui w) /\
    duration (ui (exec ok p w)) = duration (ui w).
Proof.
  induction 1 as [u| |c k Hc Hk IH|c k Hk IH|c k Hk IH];
    intros w Hw; simpl.
  - repeat split; trivial.
  - repeat split; trivial.
  - destruct (run_cmd_hushed c w Hc) as (E1 & E2).
    destruct (IH (run_cmd c w)) as (I1 & I2 & I3).
    + destruct (run_cmd_frame c w) as (_ & _ & _ & _ & _ & Hq & _).
      intros id t. rewrite Hq. apply Hw.
    + split; [exact I1|]. rewrite I2, I3. split; assumption.
  - destruct (ok c).
    + exact (IH _ (with_plat (snd (complete c (plat (record (Issued c) w))))
                     (record (Issued c) w)) Hw).
    + exact (IH _ (record (Issued c) w) Hw).
  - split; [|split; reflexivity].
    intros id t. simpl. rewrite lookup_insert.
    case_decide as E.
    + intros [= <-]. exact Hk.
    + apply Hw.
Qed.

Ltac hushed_tac :=
  repeat first
    [ apply hushed_Ret | apply hushed_Throw
    | apply hushed_Act; [reflexivity|]
    | apply hushed_Invoke; intros []
    | apply hushed_Await; intros [] ].

Lemma hushed_initAudio : hushed AudioPlayer.initAudio.
Proof. unfold AudioPlayer.initAudio. cbn. hushed_tac. Qed.

Lemma hushed_loadAudio sc : hushed (AudioPlayer.loadAudio sc).
Proof.
  unfold AudioPlayer.loadAudio. destruct (sound (st sc)); cbn; hushed_tac.
Qed.

Lemma hushed_loadEffect sc : hushed (AudioPlayer.loadEffect sc).
Proof.
  unfold AudioPlayer.loadEffect.
  destruct (uri sc); [hushed_tac|apply hushed_loadAudio].
Qed.

Lemma hushed_loadEffect_cleanup sc :
  hushed (AudioPlayer.loadEffect_cleanup sc).
Proof.
  unfold AudioPlayer.loadEffect_cleanup.
  destruct (sound (st sc)); cbn; hushed_tac.
Qed.

Lemma hushed_volumeEffect sc : hushed (AudioPlayer.volumeEffect sc).
Proof. unfold AudioPlayer.volumeEffect. cbn. hushed_tac. Qed.

Lemma hushed_volumeEffect_cleanup : hushed AudioPlayer.volumeEffect_cleanup.
Proof. unfold AudioPlayer.volumeEffect_cleanup. cbn. hushed_tac. Qed.

Lemma hushed_handlePlayPause sc : hushed (AudioPlayer.handlePlayPause sc).
Proof.
  unfold AudioPlayer.handlePlayPause.
  destruct (sound (st sc)); [destruct (isPlaying (st sc))|]; cbn; hushed_tac.
Qed.

Lemma hushed_handleSlidingStart : hushed AudioPlayer.handleSlidingStart.
Proof. unfold AudioPlayer.handleSlidingStart. cbn. hushed_tac. Qed.

Lemma hushed_handleSlidingComplete sc v :
  hushed (AudioPlayer.handleSlidingComplete sc v).
Proof.
  unfold AudioPlayer.handleSlidingComplete.
  destruct (sound (st sc)); cbn; hushed_tac.
Qed.

Lemma hushed_handleVolumeChange sc v :
  hushed (AudioPlayer.handleVolumeChange sc v).
Proof.
  unfold AudioPlayer.handleVolumeChange.
  destruct (sound (st sc)); cbn; hushed_tac.
Qed.

Lemma hushed_onVolumeChange sc v : hushed (AudioPlayer.onVolumeChange sc v).
Proof.
  unfold AudioPlayer.onVolumeChange.
  destruct (sound (st sc)); cbn; hushed_tac.
Qed.

Create HintDb hushed.

#[local] Hint Resolve hushed_initAudio hushed_loadAudio hushed_loadEffect
  hushed_loadEffect_cleanup hushed_volumeEffect hushed_volumeEffect_cleanup
  hushed_handlePlayPause hushed_handleSlidingStart
  hushed_handleSlidingComplete hushed_handleVolumeChange
  hushed_onVolumeChange : hushed.

(** The status subscriber awaits nothing. *)
Lemma status_update_pending (sc : Scope) (s : PlaybackStatus) (w : World) :
  pending (exec all_ok (AudioPlayer.onPlaybackStatusUpdate sc s) w) =
    pending w.
Proof.
  unfold AudioPlayer.onPlaybackStatusUpdate.
  destruct (isLoaded s && negb (isSeeking (st sc))); [|reflexivity].
  destruct w as [life u s0 ss us p q n tr]. destruct life; reflexivity.
Qed.

Lemma settle_hushed (id : nat) (ok : bool) (w : World) :
  hushed_pending w ->
  hushed_pending (settle id ok w) /\
  isPlaying (ui (settle id ok w)) = isPlaying (ui w) /\
  duration (ui (settle id ok w)) = duration (ui w).
Proof.
  intros Hw. unfold settle.
  destruct (pending w !! id) as [t|] eqn:Ht; [|repeat split; trivial].
  assert (Hq : forall p',
             hushed_pending
               (with_plat p'
                  (with_pending (delete id (pending w)) (next_task w) w))).
  { intros p' i t'. simpl. rewrite lookup_delete.
    case_decide; [discriminate|apply Hw]. }
  destruct ok.
  - apply (exec_hushed all_ok _ (Hw id t Ht _) _ (Hq _)).
  - apply (exec_hushed all_ok _ (Hw id t Ht _) _ (Hq (plat w))).
Qed.

Lemma mount_hushed (u : string) (w : World) :
  hushed_pending w -> hushed_pending (mount u w).
Proof.
  intros Hw. unfold mount.
  apply exec_hushed; [apply hushed_loadEffect|].
  apply exec_hushed; [apply hushed_initAudio|].
  apply exec_hushed; [apply hushed_volumeEffect|].
  exact Hw.
Qed.

Lemma unmount_hushed (w : World) :
  hushed_pending w -> hushed_pending (unmount w).
Proof.
  intros Hw. unfold unmount.
  assert (H : hushed_pending
                (exec all_ok
                   (AudioPlayer.loadEffect_cleanup
                      (uri_scope
                         (exec all_ok AudioPlayer.volumeEffect_cleanup w)))
                   (exec all_ok AudioPlayer.volumeEffect_cleanup w))).
  { apply exec_hushed; [apply hushed_loadEffect_cleanup|].
    apply exec_hushed; [apply hushed_volumeEffect_cleanup|exact Hw]. }
  exact H.
Qed.

Lemma system_volume_changed_hushed (v : Q) (w : World) :
  hushed_pending w ->
  hushed_pending (system_volume_changed v w) /\
  isPlaying (ui (system_volume_changed v w)) = isPlaying (ui w) /\
  duration (ui (system_volume_changed v w)) = duration (ui w).
Proof.
  intros Hw. unfold system_volume_changed.
  set (w1 := with_plat (snd (complete (VolumeChange v) (plat w))) w).
  assert (H1 : hushed_pending w1) by exact Hw.
  destruct (volume_listener (plat w1)); [|repeat split; trivial].
  apply (exec_hushed all_ok _ (hushed_onVolumeChange _ _) w1 H1).
Qed.

Lemma read_volume_hushed (w : World) :
  hushed_pending w ->
  hushed_pending (read_volume w) /\
  isPlaying (ui (read_volume w)) = isPlaying (ui w) /\
  duration (ui (read_volume w)) = duration (ui w).
Proof.
  intros Hw. unfold read_volume.
  destruct (volume_reads (plat w)) as [|k]; [repeat split; trivial|].
  cbv zeta.
  refine (exec_hushed all_ok _ _ (with_plat _ w) Hw).
  unfold act. hushed_tac.
Qed.

Lemma handle_hushed (e : Event) (w : World) :
  hushed_pending w -> hushed_pending (handle e w).
Proof.
  intros Hw.
  destruct e as [u|u| | | |v|v ok|v| |h s|id ok]; unfold handle.
  - destruct (lifecycle w); try assumption. apply mount_hushed, Hw.
  - destruct (lifecycle w); assumption.
  - destruct (lifecycle w); try assumption. apply unmount_hushed, Hw.
  - destruct (lifecycle w); try assumption.
    apply exec_hushed; auto with hushed.
  - destruct (lifecycle w); try assumption.
    apply exec_hushed; auto with hushed.
  - destruct (lifecycle w); try assumption.
    apply exec_hushed; auto with hushed.
  - destruct (lifecycle w); try assumption.
    apply exec_hushed; auto with hushed.
  - assert (H := proj1 (system_volume_changed_hushed v w Hw)).
    destruct (lifecycle w); exact H.
  - assert (H := proj1 (read_volume_hushed w Hw)).
    destruct (lifecycle w); exact H.
  - assert (H : hushed_pending
                  match subscriber (plat w) !! h with
                  | Some sc =>
                      exec all_ok (AudioPlayer.onPlaybackStatusUpdate sc s) w
                  | None => w
                  end).
    { destruct (subscriber (plat w) !! h); [|assumption].
      intros id t. rewrite status_update_pending. apply Hw. }
    destruct (lifecycle w); exact H.
  - assert (H := proj1 (settle_hushed id ok w Hw)).
    destruct (lifecycle w); exact H.
Qed.

Lemma rerender_hushed (w : World) :
  hushed_pending w -> hushed_pending (rerender w).
Proof.
  intros Hw. unfold rerender. destruct (lifecycle w); try assumption.
  cbv zeta.
  assert (H1 : hushed_pending
                 (if bool_decide
                       (sound (st (current w)) <> sound (st (sound_scope w)))
                  then exec all_ok AudioPlayer.volumeEffect_cleanup w
                  else w)).
  { destruct (bool_decide _); [|assumption].
    apply exec_hushed; auto with hushed. }
  set (w1 := if bool_decide
                  (sound (st (current w)) <> sound (st (sound_scope w)))
             then exec all_ok AudioPlayer.volumeEffect_cleanup w
             else w) in *.
  assert (H2 : hushed_pending
                 (if bool_decide (uri (current w) <> uri (uri_scope w))
                  then exec all_ok
                         (AudioPlayer.loadEffect_cleanup (uri_scope w1)) w1
                  else w1)).
  { destruct (bool_decide (uri (current w) <> _)); [|assumption].
    apply exec_hushed; auto with hushed. }
  set (w2 := if bool_decide (uri (current w) <> uri (uri_scope w))
             then exec all_ok
                    (AudioPlayer.loadEffect_cleanup (uri_scope w1)) w1
             else w1) in *.
  assert (H3 : hushed_pending
                 (if bool_decide
                       (sound (st (current w)) <> sound (st (sound_scope w)))
                  then exec all_ok (AudioPlayer.volumeEffect (current w))
                         (with_sound_scope (current w) w2)
                  else w2)).
  { destruct (bool_decide (sound _ <> _)); [|assumption].
    apply exec_hushed; [auto with hushed|exact H2]. }
  destruct (bool_decide (uri (current w) <> _)); [|exact H3].
  apply exec_hushed; [auto with hushed|exact H3].
Qed.

Lemma reachable_hushed (w : World) : reachable w -> hushed_pending w.
Proof.
  induction 1 as [|w e Hr IH].
  - intros id t H. simpl in H. rewrite lookup_empty in H. discriminate.
  - apply rerender_hushed, handle_hushed, IH.
Qed.

(** X18: the playing flag and the duration change only when a status is
    delivered.  Pressing play or pause, seeking, changing the volume or
    the locator, and the outcome of any request leave both as they are:
    the button never anticipates the answer of the player. *)
Theorem playing_flag_follows_status (w : World) (e : Event)
  (Hr : reachable w)
  (He : is_status e = false) :
  isPlaying (ui (step w e)) = isPlaying (ui w) /\
  duration (ui (step w e)) = duration (ui w).
Proof.
  assert (Hw := reachable_hushed w Hr).
  unfold step. rewrite rerender_ui.
  destruct e as [u|u| | | |v|v ok|v| |h s|id ok]; try discriminate He;
    unfold handle.
  - destruct (lifecycle w) eqn:L; try (split; reflexivity).
    rewrite mount_ui, (fresh_initial w Hr L). split; reflexivity.
  - destruct (lifecycle w); split; reflexivity.
  - destruct (lifecycle w); try (split; reflexivity).
    rewrite unmount_ui. split; reflexivity.
  - destruct (lifecycle w); try (split; reflexivity).
    apply exec_hushed; auto with hushed.
  - destruct (lifecycle w); try (split; reflexivity).
    apply exec_hushed; auto with hushed.
  - destruct (lifecycle w); try (split; reflexivity).
    apply exec_hushed; auto with hushed.
  - destruct (lifecycle w); try (split; reflexivity).
    apply exec_hushed; auto with hushed.
  - assert (H := proj2 (system_volume_changed_hushed v w Hw)).
    destruct (lifecycle w); exact H.
  - assert (H := proj2 (read_volume_hushed w Hw)).
    destruct (lifecycle w); exact H.
  - assert (H := proj2 (settle_hushed id ok w Hw)).
    destruct (lifecycle w); exact H.
Qed.

Lemma playing_flag_follows_status_witness :
  reachable playing_world /\
  is_status PressPlayPause = false /\
  isPlaying (ui (step playing_world PressPlayPause)) =
    isPlaying (ui playing_world).
Proof.
  split; [exact playing_world_reachable|]. split; [reflexivity|].
  destruct (playing_flag_follows_status playing_world PressPlayPause
              playing_world_reachable eq_refl) as (H & _).
  exact H.
Defined.

(** ** The status subscriber of a sound never changes *)

Lemma extends_refl (p : Platform) : extends p p.
Proof. split; [lia|reflexivity]. Qed.

Lemma extends_trans (a b c : Platform) :
  extends a b -> extends b c -> extends a c.
Proof.
  intros [N1 S1] [N2 S2]. split; [lia|].
  intros h Hh. rewrite S2 by lia. apply S1, Hh.
Qed.

Lemma complete_extends (c : Call) (p : Platform) :
  extends p (snd (complete c p)).
Proof.
  destruct c; (split; simpl; [lia|]); intros h' Hh; try reflexivity.
  apply lookup_insert_ne. lia.
Qed.

Lemma complete_known (c : Call) (p : Platform) :
  known p -> known (snd (complete c p)).
Proof.
  intros Hp. destruct c; intros h' Hh; simpl in *;
    try (apply Hp; exact Hh).
  rewrite lookup_insert_ne by lia. apply Hp. lia.
Qed.

Lemma exec_plat_extends (ok : Call -> bool) (p : Prog unit) :
  forall w,
    extends (plat w) (plat (exec ok p w)) /\
    (known (plat w) -> known (plat (exec ok p w))).
Proof.
  induction p as [a| |c k IH|c k IH|c k IH]; intros w; simpl.
  - split; [apply extends_refl|trivial].
  - split; [apply extends_refl|trivial].
  - destruct (IH (run_cmd c w)) as (E & K).
    destruct (run_cmd_frame c w) as (_ & _ & _ & _ & Hp & _).
    rewrite Hp in E, K. split; assumption.
  - destruct (ok c).
    + destruct (IH (Resolved (fst (complete c (plat (record (Issued c) w)))))
                  (with_plat (snd (complete c (plat (record (Issued c) w))))
                     (record (Issued c) w))) as (E & K).
      split.
      * exact (extends_trans _ _ _ (complete_extends c (plat w)) E).
      * intros Hw. apply K. exact (complete_known c (plat w) Hw).
    + exact (IH Rejected (record (Issued c) w)).
  - split; [apply extends_refl|trivial].
Qed.

Lemma settle_plat_extends (id : nat) (ok : bool) (w : World) :
  extends (plat w) (plat (settle id ok w)) /\
  (known (plat w) -> known (plat (settle id ok w))).
Proof.
  unfold settle.
  destruct (pending w !! id) as [t|]; [|split; [apply extends_refl|trivial]].
  destruct ok.
  - destruct (exec_plat_extends all_ok
                (resume t (Resolved (fst (complete (awaited t) (plat w)))))
                (with_plat (snd (complete (awaited t) (plat w)))
                   (with_pending (delete id (pending w)) (next_task w) w)))
      as (E & K).
    split.
    + exact (extends_trans _ _ _ (complete_extends (awaited t) (plat w)) E).
    + intros Hw. apply K. exact (complete_known (awaited t) (plat w) Hw).
  - exact (exec_plat_extends all_ok (resume t Rejected)
             (with_pending (delete id (pending w)) (next_task w) w)).
Qed.

Lemma handle_plat_extends (e : Event) (w : World) :
  extends (plat w) (plat (handle e w)) /\
  (known (plat w) -> known (plat (handle e w))).
Proof.
  assert (R : extends (plat w) (plat w) /\ (known (plat w) -> known (plat w)))
    by (split; [apply extends_refl|trivial]).
  destruct e as [u|u| | | |v|v ok|v| |h s|id ok]; unfold handle.
  - destruct (lifecycle w); try exact R. unfold mount.
    destruct (exec_plat_extends all_ok
                (AudioPlayer.volumeEffect
                   (current (with_ui initialUI (with_props Mounted u w))))
                (with_uri_scope
                   (current (with_ui initialUI (with_props Mounted u w)))
                   (with_sound_scope
                      (current (with_ui initialUI (with_props Mounted u w)))
                      (with_ui initialUI (with_props Mounted u w)))))
      as (E1 & K1).
    cbv zeta.
    match goal with
    | |- context [exec all_ok AudioPlayer.initAudio ?x] =>
        destruct (exec_plat_extends all_ok AudioPlayer.initAudio x)
          as (E2 & K2)
    end.
    match goal with
    | |- context [exec all_ok (AudioPlayer.loadEffect ?c) ?x] =>
        destruct (exec_plat_extends all_ok (AudioPlayer.loadEffect c) x)
          as (E3 & K3)
    end.
    split.
    + exact (extends_trans _ _ _ (extends_trans _ _ _ E1 E2) E3).
    + intros Hw. apply K3, K2, K1, Hw.
  - destruct (lifecycle w); exact R.
  - destruct (lifecycle w); try exact R. unfold unmount. cbv zeta.
    destruct (exec_plat_extends all_ok AudioPlayer.volumeEffect_cleanup w)
      as (E1 & K1).
    match goal with
    | |- context [exec all_ok (AudioPlayer.loadEffect_cleanup ?c) ?x] =>
        destruct (exec_plat_extends all_ok
                    (AudioPlayer.loadEffect_cleanup c) x) as (E2 & K2)
    end.
    split.
    + exact (extends_trans _ _ _ E1 E2).
    + intros Hw. apply K2, K1, Hw.
  - destruct (lifecycle w); try exact R. apply exec_plat_extends.
  - destruct (lifecycle w); try exact R. apply exec_plat_extends.
  - destruct (lifecycle w); try exact R. apply exec_plat_extends.
  - destruct (lifecycle w); try exact R. apply exec_plat_extends.
  - assert (H : extends (plat w) (plat (system_volume_changed v w)) /\
                (known (plat w) -> known (plat (system_volume_changed v w)))).
    { unfold system_volume_changed. cbv zeta.
      destruct (volume_listener
                  (plat (with_plat (snd (complete (VolumeChange v) (plat w)))
                           w))) as [sc|]; [|exact R].
      exact (exec_plat_extends all_ok (AudioPlayer.onVolumeChange sc v)
               (with_plat (snd (complete (VolumeChange v) (plat w))) w)). }
    destruct (lifecycle w); exact H.
  - assert (H : extends (plat w) (plat (read_volume w)) /\
                (known (plat w) -> known (plat (read_volume w)))).
    { unfold read_volume.
      destruct (volume_reads (plat w)) as [|k]; [exact R|]. cbv zeta.
      match goal with
      | |- context [exec all_ok ?p ?x] =>
          exact (exec_plat_extends all_ok p x)
      end. }
    destruct (lifecycle w); exact H.
  - assert (H : forall x,
                x = match subscriber (plat w) !! h with
                    | Some sc =>
                        exec all_ok
                          (AudioPlayer.onPlaybackStatusUpdate sc s) w
                    | None => w
                    end ->
                extends (plat w) (plat x) /\
                (known (plat w) -> known (plat x))).
    { intros x ->. destruct (subscriber (plat w) !! h); [|exact R].
      apply exec_plat_extends. }
    destruct (lifecycle w); apply H; reflexivity.
  - assert (H := settle_plat_extends id ok w).
    destruct (lifecycle w); exact H.
Qed.

Lemma rerender_plat_extends (w : World) :
  extends (plat w) (plat (rerender w)) /\
  (known (plat w) -> known (plat (rerender w))).
Proof.
  assert (T : forall a b c : Platform,
             extends a b /\ (known a -> known b) ->
             extends b c /\ (known b -> known c) ->
             extends a c /\ (known a -> known c)).
  { intros a b c [E1 K1] [E2 K2].
    split; [exact (extends_trans _ _ _ E1 E2)|auto]. }
  assert (R : forall a : Platform, extends a a /\ (known a -> known a))
    by (intros a; split; [apply extends_refl|trivial]).
  unfold rerender. destruct (lifecycle w); try apply R. cbv zeta.
  set (sc := bool_decide
               (sound (st (current w)) <> sound (st (sound_scope w)))).
  set (uc := bool_decide (uri (current w) <> uri (uri_scope w))).
  set (w1 := if sc then exec all_ok AudioPlayer.volumeEffect_cleanup w
             else w).
  set (w2 := if uc
             then exec all_ok
                    (AudioPlayer.loadEffect_cleanup (uri_scope w1)) w1
             else w1).
  set (w3 := if sc
             then exec all_ok (AudioPlayer.volumeEffect (current w))
                    (with_sound_scope (current w) w2)
             else w2).
  assert (H1 : extends (plat w) (plat w1) /\
               (known (plat w) -> known (plat w1))).
  { subst w1. destruct sc; [apply exec_plat_extends|apply R]. }
  assert (H2 : extends (plat w1) (plat w2) /\
               (known (plat w1) -> known (plat w2))).
  { subst w2. destruct uc; [apply exec_plat_extends|apply R]. }
  assert (H3 : extends (plat w2) (plat w3) /\
               (known (plat w2) -> known (plat w3))).
  { subst w3. destruct sc; [|apply R].
    exact (exec_plat_extends all_ok (AudioPlayer.volumeEffect (current w))
             (with_sound_scope (current w) w2)). }
  assert (H4 : extends (plat w3)
                 (plat (if uc
                        then exec all_ok (AudioPlayer.loadEffect (current w))
                               (with_uri_scope (current w) w3)
                        else w3)) /\
               (known (plat w3) ->
                known (plat (if uc
                             then exec all_ok
                                    (AudioPlayer.loadEffect (current w))
                                    (with_uri_scope (current w) w3)
                             else w3)))).
  { destruct uc; [|apply R].
    exact (exec_plat_extends all_ok (AudioPlayer.loadEffect (current w))
             (with_uri_scope (current w) w3)). }
  exact (T _ _ _ (T _ _ _ (T _ _ _ H1 H2) H3) H4).
Qed.

Lemma step_plat_extends (w : World) (e : Event) :
  extends (plat w) (plat (step w e)) /\
  (known (plat w) -> known (plat (step w e))).
Proof.
  unfold step.
  destruct (handle_plat_extends e w) as (E1 & K1).
  destruct (rerender_plat_extends (handle e w)) as (E2 & K2).
  split; [exact (extends_trans _ _ _ E1 E2)|auto].
Qed.

Lemma reachable_known (w : World) : reachable w -> known (plat w).
Proof.
  induction 1 as [|w e Hr IH].
  - intros h _. apply lookup_empty.
  - apply step_plat_extends, IH.
Qed.

Lemma run_subscriber (es : list Event) :
  forall w h sc,
    reachable w ->
    subscriber (plat w) !! h = Some sc ->
    subscriber (plat (run es w)) !! h = Some sc.
Proof.
  induction es as [|e es IH]; intros w h sc Hr Hsub; simpl; [exact Hsub|].
  apply IH; [apply reach_step, Hr|].
  destruct (step_plat_extends w e) as ((_ & E) & _).
  rewrite E; [exact Hsub|].
  destruct (Nat.lt_ge_cases h (next_handle (plat w))) as [Hlt|Hge];
    [exact Hlt|].
  rewrite (reachable_known w Hr h Hge) in Hsub. discriminate.
Qed.

(** X19: the status subscriber attached to a sound is the closure of the
    render that started its load, and it is never replaced.  So the
    [isSeeking] it reads never changes: a sound whose load started while
    the seek slider was held never gets a status through, whatever
    happens later. *)
Theorem subscriber_is_fixed (w : World) (h : Handle) (sc : Scope)
  (es : list Event)
  (Hr : reachable w)
  (Hsub : subscriber (plat w) !! h = Some sc) :
  subscriber (plat (run es w)) !! h = Some sc /\
  (isSeeking (st sc) = true ->
   forall status,
     step (run es w) (StatusDelivered h status) = run es w).
Proof.
  assert (H := run_subscriber es w h sc Hr Hsub).
  split; [exact H|].
  intros Hk status.
  apply (status_dropped _ h sc status (run_reachable es w Hr) H).
  rewrite Hk. apply andb_false_r.
Qed.

Lemma subscriber_is_fixed_witness :
  reachable playing_world /\
  subscriber (plat playing_world) !! O = Some (mkScope "a.mp3" initialUI) /\
  subscriber (plat (run (SlidingStart :: nil) playing_world)) !! O =
    Some (mkScope "a.mp3" initialUI).
Proof.
  split; [exact playing_world_reachable|].
  split; [exact playing_world_subscriber|].
  destruct (subscriber_is_fixed playing_world O _ (SlidingStart :: nil)
              playing_world_reachable playing_world_subscriber) as (H & _).
  exact H.
Defined.

(** ** Time labels (lines 138-147) *)

Module FmtLabels.
Import Fmt.

Lemma append_length (s t : string) :
  String.length (s +:+ t) = (String.length s + String.length t)%nat.
Proof. induction s as [|c s IH]; simpl; [reflexivity|]. rewrite IH. reflexivity. Qed.

Lemma append_inj (s1 s2 t1 t2 : string) :
  String.length t1 = String.length t2 ->
  (s1 +:+ t1 = s2 +:+ t2)%string -> s1 = s2 /\ t1 = t2.
Proof.
  revert s2. induction s1 as [|c s1 IH]; intros s2 Hl H.
  - destruct s2 as [|c2 s2]; [split; [reflexivity|exact H]|].
    apply (f_equal String.length) in H.
    rewrite !append_length in H. simpl in H. lia.
  - destruct s2 as [|c2 s2].
    + apply (f_equal String.length) in H.
      rewrite !append_length in H. simpl in H. lia.
    + simpl in H. injection H as -> H.
      destruct (IH s2 Hl H) as [-> ->]. split; reflexivity.
Qed.

Lemma to_int_not_nil (n : Z) :
  Z.to_int n <> Decimal.Pos Decimal.Nil /\
  Z.to_int n <> Decimal.Neg Decimal.Nil.
Proof.
  split; intros H; assert (E := f_equal Z.of_int H);
    rewrite DecimalZ.of_to in E; simpl in E; subst n; discriminate H.
Qed.

Lemma decimal_inj (a b : Z) : decimal a = decimal b -> a = b.
Proof.
  unfold decimal. intros H.
  apply (f_equal NilZero.int_of_string) in H.
  destruct (to_int_not_nil a) as [A1 A2].
  destruct (to_int_not_nil b) as [B1 B2].
  rewrite !NilZero.isi in H by assumption.
  injection H as H. apply (f_equal Z.of_int) in H.
  rewrite !DecimalZ.of_to in H. exact H.
Qed.

Lemma digit_inj (a b : Z) :
  0 <= a < 10 -> 0 <= b < 10 -> digit a = digit b -> a = b.
Proof.
  unfold digit. intros Ha Hb H.
  apply (f_equal nat_of_ascii) in H.
  rewrite !nat_ascii_embedding in H by lia. lia.
Qed.

Lemma two_digits_inj (a b : Z) :
  0 <= a < 60 -> 0 <= b < 60 -> two_digits a = two_digits b -> a = b.
Proof.
  unfold two_digits. intros Ha Hb H. injection H as H1 H2.
  apply digit_inj in H1;
    [|split; [apply Z.div_pos|apply Z.div_lt_upper_bound]; lia ..].
  apply digit_inj in H2; [|apply Z.mod_pos_bound; lia ..].
  rewrite (Z.div_mod a 10), (Z.div_mod b 10) by lia. lia.
Qed.

(** The label of a time, by its whole seconds. *)
Lemma label_of_seconds (ms : Z) :
  0 <= ms <= max_safe_integer ->
  formatTime (Finite ms 0) =
    (decimal (ms / 1000 / 60) +:+ ":" +:+ two_digits ((ms / 1000) mod 60))%string.
Proof.
  intros Hms. rewrite FmtFacts.formatTime_safe by exact Hms.
  assert (H0 : 0 <= ms / 1000) by (apply Z.div_pos; lia).
  rewrite Z.rem_mod_nonneg by lia.
  rewrite FmtFacts.pad_two_digits by (apply Z.mod_pos_bound; lia).
  reflexivity.
Qed.



End FmtLabels.
